(** * Vectorized intraday backtester: execution policies, membership, accounting

    A shallow embedding of [src/src/backtest.py], [src/src/portfolio.py] and
    [src/src/costs.py], with the equity curve and the drawdown of
    [src/src/plotting.py] and [src/src/metrics.py] and the windows of
    [src/scripts/walkforward.py].

    Numbers.  Python floats are read as exact rationals ([Q], compared with
    [==]); rounding error is outside the model.  A comparison of two numbers
    that are equal here (a move exactly as large as the band, a rank exactly
    on 1 - q_in) can fall either way in floating point.  A cell of a pandas
    frame that may be missing (NaN) is an [option Q]; frames of weights,
    which the code fills with [fillna(0.0)] before any execution policy
    runs, hold plain [Q].  Infinities do not arise: prices are positive, and
    a row is divided only by its own absolute sum, which is zero only when
    the row is (0.0 / 0.0 is NaN).  [np.log] is a parameter [ln] of the run.

    Frames.  A DataFrame is the list of its rows in index order, each row the
    list of its cells in column order; a Series is a list.

    Errors.  A raised exception is an [Err] of the [result] type. *)

From Stdlib Require Import String.
From Stdlib Require OrderedTypeEx.
From Stdlib Require Import List ZArith QArith Qabs Qminmax Qround Lia Lqa Bool Sorted.
From Stdlib Require Import Permutation.
Import ListNotations.
Open Scope Q_scope.

(** ** Frames *)

Abbreviation row := (list Q).
Abbreviation frame := (list (list Q)).

(** A row or frame whose cells may be NaN. *)
Abbreviation nrow := (list (option Q)).
Abbreviation nframe := (list (list (option Q))).

(** Number of columns of a frame, read off its first row. *)
Definition ncols {A : Type} (m : list (list A)) : nat :=
  match m with
  | [] => 0%nat
  | r :: _ => length r
  end.

(** All rows have the frame's width. *)
Definition rect {A : Type} (m : list (list A)) : Prop :=
  Forall (fun r => length r = ncols m) m.

Definition cell (m : frame) (t s : nat) : Q := nth s (nth t m []) 0.

(** Element-wise binary operation on two aligned rows. *)
Fixpoint zipw {A B C : Type} (f : A -> B -> C) (xs : list A) (ys : list B) : list C :=
  match xs, ys with
  | x :: xs', y :: ys' => f x y :: zipw f xs' ys'
  | _, _ => []
  end.

(** [pd.Series(0.0, index=cols)] *)
Definition zeros (n : nat) : row := repeat 0 n.

(** ** Scalar helpers *)

(** [Series.clip(lower, upper)] with scalar bounds: pandas orders the two
    bounds first, then keeps the cell where [x >= lower] (else [lower]) and
    where [x <= upper] (else [upper]). *)
Definition clip (lower upper x : Q) : Q :=
  let lo := Qmin lower upper in
  let hi := Qmax lower upper in
  let y := if Qle_bool lo x then x else lo in
  if Qle_bool x hi then y else hi.

(** Row sum that skips NaN, as [sum(axis=1)] does. *)
Definition sum_skipna (r : nrow) : Q :=
  fold_right (fun c acc => match c with Some x => x + acc | None => acc end) 0 r.

Definition qsum (r : row) : Q := fold_right Qplus 0 r.

(** ** Execution policies *)

(** One pass of the loop body of [rate_limit_time]:
    [delta = (row - prev).clip(-step, step)];
    [prev = (prev + delta).clip(-max_w, max_w)]. *)
Definition rate_limit_step (step max_w : Q) (prev target : row) : row :=
  let delta := map (clip (- step) step) (zipw Qminus target prev) in
  map (clip (- max_w) max_w) (zipw Qplus prev delta).

(** The [for _, row in w_target.iterrows()] loop, with the running [prev]
    and the list [rows] the code appends to. *)
Fixpoint rate_limit_loop (step max_w : Q) (prev : row) (todo rows : frame) : frame :=
  match todo with
  | [] => rows
  | target :: rest =>
      let prev' := rate_limit_step step max_w prev target in
      rate_limit_loop step max_w prev' rest (rows ++ [prev'])
  end.

Definition rate_limit_time (w_target : frame) (step_bps max_w : Q) : frame :=
  let step := step_bps / 10000 in
  let prev := zeros (ncols w_target) in
  rate_limit_loop step max_w prev w_target [].

(** One pass of the loop body of [apply_no_trade_band]:
    [trade = (row - prev).abs() >= band]; [prev = prev.where(~trade, row)]. *)
Definition band_step (band : Q) (prev target : row) : row :=
  zipw (fun p r => if Qle_bool band (Qabs (r - p)) then r else p) prev target.

Fixpoint band_loop (band : Q) (prev : row) (todo rows : frame) : frame :=
  match todo with
  | [] => rows
  | target :: rest =>
      let prev' := band_step band prev target in
      band_loop band prev' rest (rows ++ [prev'])
  end.

Definition apply_no_trade_band (w_smooth : frame) (band_bps : Q) : frame :=
  let band := band_bps / 10000 in
  let prev := zeros (ncols w_smooth) in
  band_loop band prev w_smooth [].

(** ** Turnover and costs *)

(** [DataFrame.diff()]: the first row is NaN, every later row is the
    difference with the row before it. *)
Fixpoint diff_from (prev : row) (m : frame) : nframe :=
  match m with
  | [] => []
  | r :: rest => map Some (zipw Qminus r prev) :: diff_from r rest
  end.

Definition df_diff (m : frame) : nframe :=
  match m with
  | [] => []
  | r :: rest => map (fun _ => None) r :: diff_from r rest
  end.

Definition df_abs (m : nframe) : nframe := map (map (option_map Qabs)) m.

(** [w_exec.diff().abs().sum(axis=1)], the turnover series. *)
Definition abs_diff_sum (w_exec : frame) : list Q :=
  map sum_skipna (df_abs (df_diff w_exec)).

(** [costs_from_turnover]: [dw * cost_bps / 1e4]. *)
Definition costs_from_turnover (weights : frame) (cost_bps : Q) : list Q :=
  let dw := map sum_skipna (df_abs (df_diff weights)) in
  map (fun x => x * cost_bps / 10000) dw.

(** ** Missing values *)

(** [fillna(d)] *)
Definition fillna {A : Type} (d : A) (m : list (list (option A))) : list (list A) :=
  map (map (fun c => match c with Some x => x | None => d end)) m.

(** [ffill()]: every column carries its last valid cell forward. *)
Definition ffill_row {A : Type} (last r : list (option A)) : list (option A) :=
  zipw (fun l c => match c with Some _ => c | None => l end) last r.

Fixpoint ffill_from {A : Type} (last : list (option A)) (m : list (list (option A)))
  : list (list (option A)) :=
  match m with
  | [] => []
  | r :: rest => let r' := ffill_row last r in r' :: ffill_from r' rest
  end.

Definition ffill {A : Type} (m : list (list (option A))) : list (list (option A)) :=
  ffill_from (repeat None (ncols m)) m.

(** [frame.loc[mask]] and [series.reindex(frame.loc[mask].index)]: the rows
    at which the boolean series is true. *)
Fixpoint loc_mask {A : Type} (mask : list bool) (rows : list A) : list A :=
  match mask, rows with
  | b :: mask', r :: rows' =>
      if b then r :: loc_mask mask' rows' else loc_mask mask' rows'
  | _, _ => []
  end.

(** ** Errors *)

Inductive error : Type :=
| AssertionError (msg : string)
| IndexError
| ValueError (msg : string).

Inductive result (A : Type) : Type :=
| Ok (a : A)
| Err (e : error).
Arguments Ok {A} a.
Arguments Err {A} e.

Definition bind {A B : Type} (r : result A) (k : A -> result B) : result B :=
  match r with
  | Ok a => k a
  | Err e => Err e
  end.

Definition is_ok {A : Type} (r : result A) : bool :=
  match r with Ok _ => true | Err _ => false end.

(** ** Cross-sectional ranks *)

Definition is_some {A : Type} (c : option A) : bool :=
  match c with Some _ => true | None => false end.

Definition count_valid (r : nrow) : nat := length (filter is_some r).

Definition count_if (p : Q -> bool) (r : nrow) : nat :=
  length (filter (fun c => match c with Some y => p y | None => false end) r).

Definition Qlt_bool (x y : Q) : bool := negb (Qle_bool y x).

(** Rank of the cell [x] among the valid cells of its row, [method="first"]:
    one more than the number of cells that sort before it, equal cells
    sorting in column order. *)
Definition rank_first (before after : nrow) (x : Q) : nat :=
  (1 + count_if (fun y => Qle_bool y x) before + count_if (fun y => Qlt_bool y x) after)%nat.

Fixpoint rank_cells (n : nat) (before rest : nrow) : nrow :=
  match rest with
  | [] => []
  | None :: rest' => None :: rank_cells n (None :: before) rest'
  | Some x :: rest' =>
      Some (inject_Z (Z.of_nat (rank_first before rest' x)) / inject_Z (Z.of_nat n))
        :: rank_cells n (Some x :: before) rest'
  end.

(** One row of [score.rank(axis=1, method="first", pct=True)]: NaN stays NaN,
    a valid cell gets its rank over the number of valid cells of the row. *)
Definition rank_pct (r : nrow) : nrow := rank_cells (count_valid r) [] r.

(** ** Sticky membership *)

(** Membership cells are the floats [1.0], [0.0], [-1.0]; they are kept as
    integers. *)
Abbreviation mrow := (list Z).
Abbreviation mframe := (list (list Z)).

(** Body of the update loop for one symbol: lines 81-91. A NaN rank fails
    every comparison. *)
Definition sticky_cell (q_in q_out : Q) (prev : Z) (r : option Q) : Z :=
  let was_long := (prev =? 1)%Z in
  let was_short := (prev =? -1)%Z in
  let ge (x : Q) := match r with Some v => Qle_bool x v | None => false end in
  let le (x : Q) := match r with Some v => Qle_bool v x | None => false end in
  let stay_long := was_long && ge (1 - q_out) in
  let stay_short := was_short && le q_out in
  let enter_long := negb was_long && ge (1 - q_in) in
  let enter_short := negb was_short && le q_in in
  let cur := 0%Z in
  let cur := if stay_long || enter_long then 1%Z else cur in
  if stay_short || enter_short then (-1)%Z else cur.

(** The loop over [update_times], row by row: a row of [m] at an update time
    receives [cur], which becomes [prev]; any other row of [m] keeps the
    zeros it was created with and leaves [prev] alone. *)
Fixpoint sticky_loop (q_in q_out : Q) (prev : mrow) (ranks : nframe) (mask : list bool)
  : mframe :=
  match ranks with
  | [] => []
  | r :: ranks' =>
      let upd := match mask with b :: _ => b | [] => false end in
      if upd then
        let cur := zipw (sticky_cell q_in q_out) prev r in
        cur :: sticky_loop q_in q_out cur ranks' (tl mask)
      else
        map (fun _ => 0%Z) r :: sticky_loop q_in q_out prev ranks' (tl mask)
  end.

(** [m.replace(0.0, np.nan)] *)
Definition replace_zero_nan (m : mframe) : list (list (option Z)) :=
  map (map (fun x => if (x =? 0)%Z then None else Some x)) m.

(** Everything after the two entry checks of [sticky_membership]. *)
Definition sticky_body (score : nframe) (q_in q_out : Q) (mask : list bool) : mframe :=
  let ranks := map rank_pct score in
  let prev := repeat 0%Z (ncols score) in
  let m := sticky_loop q_in q_out prev ranks mask in
  fillna 0%Z (ffill (replace_zero_nan m)).

Definition sticky_membership (score : nframe) (q_in q_out : Q)
  (update_mask : option (list bool)) : result mframe :=
  if negb (Qle_bool q_in q_out) then Err (AssertionError "q_out must be >= q_in")
  else
    let mask := match update_mask with
                | Some um => um
                | None => map (fun _ => true) score
                end in
    match score with
    | [] => Err IndexError                      (* m.iloc[0] on an empty frame *)
    | _ :: _ => Ok (sticky_body score q_in q_out mask)
    end.

(** The matrix [m] as the loop leaves it, before the last line of the
    function. *)
Definition sticky_raw (score : nframe) (q_in q_out : Q) (mask : list bool) : mframe :=
  sticky_loop q_in q_out (repeat 0%Z (ncols score)) (map rank_pct score) mask.

(** [quantile_long_short]: +1 for the bottom [q] fraction of the ranks, -1 for
    the top [q] fraction, the two added. *)
Definition quantile_long_short (zwide : nframe) (q : Q) : mframe :=
  map (fun r =>
         map (fun c =>
                let long := match c with Some v => Qle_bool v q | None => false end in
                let short := match c with Some v => Qle_bool (1 - q) v | None => false end in
                ((if long then 1 else 0) + (if short then -1 else 0))%Z)
             (rank_pct r))
      zwide.

(** ** Position sizing *)

Definition abs_sum_Z (r : mrow) : Z := fold_right (fun x acc => (Z.abs x + acc)%Z) 0%Z r.

(** [memb.fillna(0.0).div(memb.abs().sum(axis=1), axis=0) * gross] on one
    row. The divisor is the row's own absolute sum, so it is zero only when
    every cell is zero, and [0.0 / 0.0] is NaN. *)
Definition scale_row (gross : Q) (r : mrow) : nrow :=
  let s := abs_sum_Z r in
  map (fun x => if (s =? 0)%Z then None
                else Some (inject_Z x / inject_Z s * gross)) r.

(** [w_target.where(update_mask2, np.nan)] *)
Definition where_rows (mask : list bool) (m : nframe) : nframe :=
  zipw (fun (b : bool) r => if b then r else map (fun _ => None) r) mask m.

(** Lines 269-272 of [vector_backtest]. *)
Definition target_weights (gross max_w : Q) (memb : mframe) (update_mask2 : list bool)
  : frame :=
  let w := map (scale_row gross) memb in
  let w := fillna 0 (ffill (where_rows update_mask2 w)) in
  map (map (clip (- max_w) max_w)) w.

Definition abs_sum_skipna (r : nrow) : Q := sum_skipna (map (option_map Qabs) r).

(** [size_positions] of portfolio.py. A row of [raw] whose absolute sum is
    zero holds only zeros and NaN, so its quotient is all NaN; a zero
    [gross_now] makes [gross / gross_now] infinite or NaN, which the code
    replaces by [0.0]. *)
Definition size_positions (raw : nframe) (gross max_w : Q) : frame :=
  let scaled :=
    map (fun r =>
           let s := abs_sum_skipna r in
           map (fun c => match c with
                         | Some x => if Qeq_bool s 0 then None else Some (x / s * gross)
                         | None => None
                         end) r) raw in
  let capped := fillna 0 (map (map (option_map (clip (- max_w) max_w))) scaled) in
  map (fun r =>
         let gross_now := qsum (map Qabs r) in
         let adj := if Qeq_bool gross_now 0 then 0 else gross / gross_now in
         map (fun x => x * adj) r) capped.

(** ** Wide-table reshaping *)

(** One observation of the long-form input. [datetime] is the bar's instant
    in New-York time, written [86400 * day + s] with [day] the local calendar
    day and [s] the seconds elapsed since local midnight, which is what
    [idx_local - idx_local.normalize()] measures. Instants keep their order. *)
Record bar : Type := mkBar {
  datetime : Z;
  symbol : string;
  open : Q;
  close : Q
}.

Record wide : Type := mkWide {
  index : list Z;
  columns : list string;
  values : nframe
}.

Section SortUniq.
Context {A : Type} (cmp : A -> A -> comparison).

Fixpoint insert_uniq (x : A) (l : list A) : list A :=
  match l with
  | [] => [x]
  | y :: l' =>
      match cmp x y with
      | Lt => x :: l
      | Eq => l
      | Gt => y :: insert_uniq x l'
      end
  end.

(** Sorted list of the distinct elements. *)
Definition sort_uniq (l : list A) : list A := fold_right insert_uniq [] l.
End SortUniq.

Definition same_key (t : Z) (s : string) (b : bar) : bool :=
  (datetime b =? t)%Z && String.eqb (symbol b) s.

Fixpoint has_dup (df : list bar) : bool :=
  match df with
  | [] => false
  | b :: rest => existsb (same_key (datetime b) (symbol b)) rest || has_dup rest
  end.

(** [df.pivot(index="datetime", columns="symbol", values=col).sort_index()]:
    a repeated (datetime, symbol) pair is a [ValueError]. *)
Definition to_wide (df : list bar) (col : bar -> Q) : result wide :=
  if has_dup df then Err (ValueError "Index contains duplicate entries, cannot reshape")
  else
    let idx := sort_uniq Z.compare (map datetime df) in
    let cols := sort_uniq String.compare (map symbol df) in
    Ok {| index := idx;
          columns := cols;
          values := map (fun t => map (fun s => option_map col (find (same_key t s) df)) cols)
                        idx |}.

(** ** Session clock *)

Definition secs_of_day (t : Z) : Z := (t mod 86400)%Z.
Definition day_of (t : Z) : Z := (t / 86400)%Z.

(** Minutes since 09:30 and minutes until 16:00. *)
Definition minutes_from_open (t : Z) : Q := inject_Z (secs_of_day t - 34200) / 60.
Definition minutes_to_close (t : Z) : Q := inject_Z (57600 - secs_of_day t) / 60.

(** [by_day.groupby(by_day).cumcount()]: how many earlier rows share the
    row's day. *)
Fixpoint cumcount_from (seen : list Z) (days : list Z) : list Z :=
  match days with
  | [] => []
  | d :: rest => Z.of_nat (count_occ Z.eq_dec seen d) :: cumcount_from (d :: seen) rest
  end.

Definition cumcount (days : list Z) : list Z := cumcount_from [] days.

(** [(bar_num % n) == 0]; pandas gives NaN for a zero modulus, which is not
    equal to zero. *)
Definition on_cadence (n bar_num : Z) : bool :=
  if (n =? 0)%Z then false else (bar_num mod n =? 0)%Z.

(** ** Score *)

Definition nsub (a b : option Q) : option Q :=
  match a, b with
  | Some x, Some y => Some (x - y)
  | _, _ => None
  end.

Definition nan_row {A : Type} (r : list A) : nrow := map (fun _ => None) r.

(** Row [t] of [frame.diff(K)]: the row minus the row [K] places earlier
    (later when [K] is negative), NaN when there is no such row. [K] is a
    64-bit integer there: for a [K] outside [-2^63, 2^63) the call raises an
    OverflowError, which is not part of this definition. *)
Definition diff_k_row (K : Z) (m : nframe) (t : nat) (r : nrow) : nrow :=
  let j := (Z.of_nat t - K)%Z in
  match (if (j <? 0)%Z then None else nth_error m (Z.to_nat j)) with
  | Some old => zipw nsub r old
  | None => nan_row r
  end.

Definition diff_k (K : Z) (m : nframe) : nframe :=
  map (fun tr => diff_k_row K m (fst tr) (snd tr)) (combine (seq 0 (length m)) m).

(** ** Rounding *)

(** [round()]: to the nearest integer, a tie to the even one. *)
Definition round_half_even (x : Q) : Z :=
  let f := Qfloor x in
  match Qcompare (x - inject_Z f) (1 # 2) with
  | Lt => f
  | Gt => (f + 1)%Z
  | Eq => if Z.even f then f else (f + 1)%Z
  end.

(** ** The backtest *)

Inductive signal_mode : Type := Momentum | MeanRev.

(** [exec_mode.lower()]: the three named policies; any other string leaves
    the target weights as they are. *)
Inductive exec_mode : Type := Ratelimit | Band | Grid | OtherMode.

Record config : Type := mkConfig {
  gross : Q;
  max_w : Q;
  cost_bps : Q;
  skip_first_min : Z;
  skip_last_min : Z;
  mode : exec_mode;
  step_bps : Q;
  band_bps : Q;
  grid_bps : Q;
  rebalance_every_n_bars : Z;
  signal : signal_mode;
  K : Z;
  q_in : Q;
  q_out : Q
}.

(** One row of the wide tables: its timestamp, and the close and the open of
    every symbol ([None] where the symbol has no bar at that time). *)
Record wrow : Type := mkWrow {
  ts : Z;
  px : nrow;
  op : nrow
}.

Record out_row : Type := mkOut {
  o_ts : Z;
  raw_ret : Q;
  tc : Q;
  net_ret : Q;
  turnover : Q
}.

(** What one run computes on the way to its result. *)
Record stages : Type := mkStages {
  st_score : nframe;          (* score, on the full index *)
  st_memb_full : mframe;      (* sticky_membership's result *)
  st_memb : mframe;           (* memb.loc[mask] *)
  st_w_target : frame;
  st_w_exec : frame;          (* after the end-of-day flattening *)
  st_rets_oc : nframe;
  st_out : list out_row
}.

(** [prices / opens - 1.0] on one cell; prices are positive. *)
Definition ret_oc (c o : option Q) : option Q :=
  match c, o with
  | Some c', Some o' => Some (c' / o' - 1)
  | _, _ => None
  end.

(** [w_exec.shift(1).fillna(0.0)] *)
Definition shift1 (m : frame) : nframe :=
  match m with
  | [] => []
  | r :: _ => nan_row r :: map (map Some) (removelast m)
  end.

Definition w_lag_of (w_exec : frame) : frame := fillna 0 (shift1 w_exec).

(** [(w_lag * rets_oc).sum(axis=1)] *)
Definition pnl_gross_of (w_lag : frame) (rets_oc : nframe) : list Q :=
  map sum_skipna (zipw (zipw (fun w r => option_map (Qmult w) r)) w_lag rets_oc).

(** [w_exec.loc[eod_flat.values] = 0.0] *)
Definition flatten_eod (eod_flat : list bool) (w_exec : frame) : frame :=
  zipw (fun (e : bool) r => if e then map (fun _ => 0) r else r) eod_flat w_exec.

(** [pd.concat({...}, axis=1)] of the four series on their common index. *)
Fixpoint concat_out (idx : list Z) (g c n t : list Q) : list out_row :=
  match idx, g, c, n, t with
  | i :: idx', g0 :: g', c0 :: c', n0 :: n', t0 :: t' =>
      mkOut i g0 c0 n0 t0 :: concat_out idx' g' c' n' t'
  | _, _, _, _, _ => []
  end.

(** Lines 243-247: the bars at least [skip_first_min] minutes after the open
    and at least [skip_last_min] minutes before the close. *)
Definition in_session (cfg : config) (t : Z) : bool :=
  Qle_bool (inject_Z (skip_first_min cfg)) (minutes_from_open t)
  && Qle_bool (inject_Z (skip_last_min cfg)) (minutes_to_close t).

Definition session_mask (cfg : config) (idx : list Z) : list bool :=
  map (in_session cfg) idx.

(** Lines 249-251: every [rebalance_every_n_bars]-th bar of each day. *)
Definition cadence_mask (cfg : config) (idx : list Z) : list bool :=
  let bar_num := cumcount (map day_of idx) in
  map (on_cadence (rebalance_every_n_bars cfg)) bar_num.

(** [minutes_to_close < 10] *)
Definition eod_mask (idx : list Z) : list bool :=
  map (fun t => Qlt_bool (minutes_to_close t) 10) idx.

(** The bars that survive the session mask, in time order: the index of the
    executed weights and of the result. *)
Definition session_rows (cfg : config) (rows : list wrow) : list wrow :=
  loc_mask (session_mask cfg (map ts rows)) rows.

(** The sum over symbols of weight times (close / open - 1), as the
    specification words the gross return of a bar; a symbol with no bar
    contributes nothing. *)
Fixpoint gross_return (w : row) (c o : nrow) : Q :=
  match w, c, o with
  | w0 :: w', c0 :: c', o0 :: o' =>
      match c0, o0 with
      | Some cv, Some ov => w0 * (cv / ov - 1)
      | _, _ => 0
      end + gross_return w' c' o'
  | _, _, _ => 0
  end.

(** The sum over symbols of the absolute difference of two weight rows, as
    the specification words turnover. *)
Definition weight_change (w w' : row) : Q :=
  qsum (map Qabs (zipw Qminus w w')).

(** Lines 274-288: the execution policy named by [exec_mode]. *)
Definition execute (cfg : config) (w_target : frame) : frame :=
  match mode cfg with
  | Ratelimit =>
      let w_pre := if Qlt_bool 0 (band_bps cfg)
                   then apply_no_trade_band w_target (band_bps cfg)
                   else w_target in
      rate_limit_time w_pre (step_bps cfg) (max_w cfg)
  | Band => apply_no_trade_band w_target (band_bps cfg)
  | Grid =>
      let g := if Qlt_bool (1 # 100000000) (grid_bps cfg / 10000)
               then grid_bps cfg / 10000 else 1 # 100000000 in
      map (map (fun w => inject_Z (round_half_even (w / g)) * g)) w_target
  | OtherMode => w_target
  end.

(** Lines 267-312 of [vector_backtest]: from the membership to the result. *)
Definition assemble (cfg : config) (rows : list wrow) (score : nframe) (memb_full : mframe)
  : stages :=
  let idx := map ts rows in
  let prices := map px rows in
  let opens := map op rows in
  let mask := session_mask cfg idx in
  let update_mask := cadence_mask cfg idx in
  let memb := loc_mask mask memb_full in
  let update_mask2 := loc_mask mask update_mask in
  let w_target := target_weights (gross cfg) (max_w cfg) memb update_mask2 in
  let w_pol := execute cfg w_target in
  let eod_flat := loc_mask mask (eod_mask idx) in
  let w_exec := flatten_eod eod_flat w_pol in
  let rets_oc := loc_mask mask (zipw (zipw ret_oc) prices opens) in
  let w_lag := w_lag_of w_exec in
  let pnl_gross := pnl_gross_of w_lag rets_oc in
  let tc_ := costs_from_turnover w_exec (cost_bps cfg) in
  let turnover_ := abs_diff_sum w_exec in
  let pnl_net := zipw Qminus pnl_gross tc_ in
  {| st_score := score;
     st_memb_full := memb_full;
     st_memb := memb;
     st_w_target := w_target;
     st_w_exec := w_exec;
     st_rets_oc := rets_oc;
     st_out := concat_out (loc_mask mask idx) pnl_gross tc_ pnl_net turnover_ |}.

(** The rows of the two wide tables, side by side on their common index. *)
Fixpoint zip_rows (idx : list Z) (p o : nframe) : list wrow :=
  match idx, p, o with
  | t :: idx', a :: p', b :: o' => mkWrow t a b :: zip_rows idx' p' o'
  | _, _, _ => []
  end.

Section Backtest.
(** [np.log] on the prices, which are positive: its values are not
    rationals, so the function is a parameter of the run. *)
Variable ln : Q -> Q.

(** Lines 257-264: [retk = np.log(prices).diff(K)], negated in momentum
    mode. *)

Definition score_of (sig : signal_mode) (k : Z) (prices : nframe) : nframe :=
  let retk := diff_k k (map (map (option_map ln)) prices) in
  match sig with
  | Momentum => map (map (option_map Qopp)) retk
  | MeanRev => retk
  end.

(** [vector_backtest] after the reshaping, over the rows of the wide tables:
    the score, the entry checks of [sticky_membership], then [assemble]. *)
Definition backtest_rows (cfg : config) (rows : list wrow) : result stages :=
  let idx := map ts rows in
  let prices := map px rows in
  let update_mask := cadence_mask cfg idx in
  let score := score_of (signal cfg) (K cfg) prices in
  bind (sticky_membership score (q_in cfg) (q_out cfg) (Some update_mask))
    (fun memb_full => Ok (assemble cfg rows score memb_full)).

(** The stages of a run that passes the two entry checks of
    [sticky_membership]. *)
Definition stages_of (cfg : config) (rows : list wrow) : stages :=
  let score := score_of (signal cfg) (K cfg) (map px rows) in
  assemble cfg rows score
    (sticky_body score (q_in cfg) (q_out cfg) (cadence_mask cfg (map ts rows))).

Definition vector_backtest (df_feat : list bar) (cfg : config) : result (list out_row) :=
  bind (to_wide df_feat close) (fun prices =>
  bind (to_wide df_feat open) (fun opens =>
  bind (backtest_rows cfg (zip_rows (index prices) (values prices) (values opens)))
    (fun st => Ok (st_out st)))).
End Backtest.

(** ** Predicates on rows *)

Definition all_none {A : Type} (r : list (option A)) : Prop :=
  Forall (fun c => c = None) r.

(** The sum of the absolute membership values of the row is zero. *)
Definition zero_row (r : mrow) : Prop := abs_sum_Z r = 0%Z.

Definition no_zero_cell (r : list (option Z)) : Prop :=
  Forall (fun c => c <> Some 0%Z) r.

(** No all-zero row comes after a row that is not all-zero. *)
Definition zeros_first (m : mframe) : Prop :=
  StronglySorted (fun a b => zero_row b -> zero_row a) m.

(** [p] is an initial segment of [l]: the rows up to some bar. *)
Definition prefix_of {A : Type} (p l : list A) : Prop := exists y, l = p ++ y.

(** How many of the first [n] entries of a boolean series are true. *)
Definition kept (mask : list bool) (n : nat) : nat :=
  length (filter (fun b : bool => b) (firstn n mask)).

(** The bars of a long-form table up to the instant [T]. *)
Definition upto (T : Z) (df : list bar) : list bar :=
  filter (fun b => (datetime b <=? T)%Z) df.

(** Row [t] of the two wide tables of [df], over the columns [cols]. *)
Definition wide_row (df : list bar) (cols : list string) (t : Z) : wrow :=
  mkWrow t
    (map (fun s => option_map close (find (same_key t s) df)) cols)
    (map (fun s => option_map open (find (same_key t s) df)) cols).

(** [fillna(0.0)] on one membership cell. *)
Definition fill0 (c : option Z) : Z := match c with Some x => x | None => 0%Z end.

(** ** Cells, masks and keys *)

(** One cell of one pass of the loop of [rate_limit_time]: the new [prev] of
    a symbol, from its [prev] [p] and its target [r]. *)
Definition rate_limit_cell (step mw p r : Q) : Q :=
  clip (- mw) mw (p + clip (- step) step (r - p)).

(** A cell of a membership frame. *)
Definition mcell (m : mframe) (t s : nat) : Z := nth s (nth t m []) 0%Z.

(** Lines 73-74 of [sticky_membership]: without [update_mask] every bar is
    an update bar. *)
Definition mask_of (update_mask : option (list bool)) (score : nframe) : list bool :=
  match update_mask with
  | Some um => um
  | None => map (fun _ => true) score
  end.

(** The pair that [pivot] requires to be unique. *)
Definition bar_key (b : bar) : Z * string := (datetime b, symbol b).

(** A row that is all NaN, or holds no NaN and has an absolute sum of at
    most [B]. *)
Definition within_budget (B : Q) (r : nrow) : Prop :=
  all_none r \/ exists v : row, r = map Some v /\ qsum (map Qabs v) <= B.

(** The last update bar before bar [t], if there is one. *)
Fixpoint last_update (mask : list bool) (t : nat) : option nat :=
  match t with
  | O => None
  | S t' => if nth t' mask false then Some t' else last_update mask t'
  end.

(** The integer ranks behind [rank_cells]: the rank of every valid cell,
    before the division by the number of valid cells. *)
Fixpoint rank_nats (before rest : nrow) : list (option nat) :=
  match rest with
  | [] => []
  | None :: rest' => None :: rank_nats (None :: before) rest'
  | Some x :: rest' => Some (rank_first before rest' x) :: rank_nats (Some x :: before) rest'
  end.

(** The valid cells of a row. *)
Fixpoint valid_cells {A : Type} (r : list (option A)) : list A :=
  match r with
  | [] => []
  | Some x :: r' => x :: valid_cells r'
  | None :: r' => valid_cells r'
  end.

(** ** Walk-forward windows *)

(** [day_index] of [scripts/walkforward.py]: the distinct local calendar
    days of the timestamps, sorted; a day is written as its number. *)
Definition day_index (x : list Z) : list Z := sort_uniq Z.compare (map day_of x).

(** [days[k]] for a Python integer [k]: a negative [k] counts from the end,
    an index outside the range is an [IndexError]. *)
Definition py_index (days : list Z) (k : Z) : result Z :=
  let n := Z.of_nat (length days) in
  if ((k <? - n) || (n <=? k))%Z then Err IndexError
  else Ok (nth (Z.to_nat (if (k <? 0)%Z then k + n else k)) days 0%Z).

(** What [windows] yields: the first and last train day and the first and
    last test day. *)
Record window : Type := mkWindow {
  tr0 : Z;
  tr1 : Z;
  te0 : Z;
  te1 : Z
}.

(** How a run of the generator stands after a number of passes of its loop:
    the loop has ended, an exception was raised, or the loop is still going
    (with [step_days <= 0] it may never end). *)
Inductive gen_state : Type :=
| Finished
| Raised (e : error)
| Running.

(** The [while] loop of [windows], at most [fuel] passes of it: the windows
    yielded so far, and how the generator stands. *)
Fixpoint windows_loop (fuel : nat) (days : list Z)
         (train_days test_days step_days embargo_days i : Z) : list window * gen_state :=
  match fuel with
  | O => ([], Running)
  | S fuel' =>
      let n := Z.of_nat (length days) in
      if (i + train_days + embargo_days <? n)%Z then
        match py_index days i,
              py_index days (i + train_days - 1),
              py_index days (i + train_days + embargo_days),
              py_index days (Z.min (i + train_days + embargo_days + test_days - 1) (n - 1))
        with
        | Ok a, Ok b, Ok c, Ok d =>
            let (ws, st) := windows_loop fuel' days train_days test_days step_days
                              embargo_days (i + step_days) in
            (mkWindow a b c d :: ws, st)
        | _, _, _, _ => ([], Raised IndexError)
        end
      else ([], Finished)
  end.

(** [windows]: the loop over the days of [x], from [i = 0]. *)
Definition windows (fuel : nat) (x : list Z)
           (train_days test_days step_days embargo_days : Z) : list window * gen_state :=
  windows_loop fuel (day_index x) train_days test_days step_days embargo_days 0.

(** A window over the sorted days [days]: its train days are [train]
    consecutive days from some position [i] on, its test days begin
    [embargo] days after the last train day and span at most [test] days. *)
Definition window_ok (days : list Z) (train test embargo : Z) (w : window) : Prop :=
  exists i j : nat,
    nth_error days i = Some (tr0 w)
    /\ nth_error days (i + Z.to_nat train - 1) = Some (tr1 w)
    /\ nth_error days (i + Z.to_nat train + Z.to_nat embargo) = Some (te0 w)
    /\ nth_error days j = Some (te1 w)
    /\ (i + Z.to_nat train + Z.to_nat embargo <= j
        < i + Z.to_nat train + Z.to_nat embargo + Z.to_nat test)%nat
    /\ (tr0 w <= tr1 w < te0 w)%Z /\ (te0 w <= te1 w)%Z.

(** ** Equity curve and drawdown *)

(** [Series.cumprod()] *)
Fixpoint cumprod_from (acc : Q) (l : list Q) : list Q :=
  match l with
  | [] => []
  | x :: l' => acc * x :: cumprod_from (acc * x) l'
  end.

Definition cumprod (l : list Q) : list Q := cumprod_from 1 l.

(** [Series.cummax()] *)
Fixpoint cummax_from (m : Q) (l : list Q) : list Q :=
  match l with
  | [] => []
  | x :: l' => Qmax m x :: cummax_from (Qmax m x) l'
  end.

Definition cummax (l : list Q) : list Q :=
  match l with
  | [] => []
  | x :: l' => x :: cummax_from x l'
  end.

(** [Series.min()]: NaN is skipped, and the minimum of no value is NaN. *)
Fixpoint min_skipna (l : list (option Q)) : option Q :=
  match l with
  | [] => None
  | c :: l' =>
      match c, min_skipna l' with
      | Some x, Some y => Some (Qmin x y)
      | Some x, None => Some x
      | None, r => r
      end
  end.

(** [equity_curve]: [(1 + df_bt["net_ret"]).cumprod()]. *)
Definition equity_curve (df_bt : list out_row) : list Q :=
  cumprod (map (fun o => 1 + net_ret o) df_bt).

(** [eq / peak - 1.0] on one cell. A zero peak is the running maximum of
    products that are zero from some bar on, so the equity is zero there as
    well, and [0.0 / 0.0] is NaN. *)
Definition drawdown_cell (e p : Q) : option Q :=
  if Qeq_bool p 0 then None else Some (e / p - 1).

(** [max_dd], on a series of returns that holds no NaN (the columns of the
    frame [vector_backtest] returns hold none). *)
Definition max_dd (ret : list Q) : option Q :=
  let eq := cumprod (map (fun r => 1 + r) ret) in
  let peak := cummax eq in
  min_skipna (zipw drawdown_cell eq peak).

(** ** Tables with more columns *)

(** [widened P pat r r']: the row [r'] is the row [r] with one more cell,
    satisfying [P], at every place where [pat] is false: the same table with
    more columns. *)
Inductive widened {A : Type} (P : A -> Prop) : list bool -> list A -> list A -> Prop :=
| widened_nil : widened P [] [] []
| widened_keep (x : A) (pat : list bool) (r r' : list A) :
    widened P pat r r' -> widened P (true :: pat) (x :: r) (x :: r')
| widened_new (z : A) (pat : list bool) (r r' : list A) :
    P z -> widened P pat r r' -> widened P (false :: pat) r (z :: r').

(** A cell that is missing. *)
Definition is_nan {A : Type} (c : option A) : Prop := c = None.

(** A cell that is missing or zero. *)
Definition nan_or_zero (c : option Q) : Prop :=
  match c with Some z => z == 0 | None => True end.

(** The wide rows of a table with more symbols, none of which has a bar. *)
Definition widened_rows (pat : list bool) (r r' : wrow) : Prop :=
  ts r = ts r'
  /\ widened is_nan pat (px r) (px r')
  /\ widened is_nan pat (op r) (op r').

(** Two output rows with the same timestamp and equal numbers. *)
Definition same_out (a b : out_row) : Prop :=
  o_ts a = o_ts b
  /\ raw_ret a == raw_ret b
  /\ tc a == tc b
  /\ net_ret a == net_ret b
  /\ turnover a == turnover b.

(** Whether the label [s] is among the labels [l]. *)
Definition has_label (l : list string) (s : string) : bool := existsb (String.eqb s) l.

(** * Properties *)

(** ** Lists and rows *)

Lemma zipw_length {A B C : Type} (f : A -> B -> C) (xs : list A) (ys : list B) :
  length (zipw f xs ys) = Nat.min (length xs) (length ys).
Proof.
  revert ys; induction xs as [|x xs IH]; intros [|y ys]; simpl; auto.
Qed.

Lemma nth_zipw {A B C : Type} (f : A -> B -> C) (dx : A) (dy : B) (d : C) :
  forall (xs : list A) (ys : list B) (s : nat),
    (s < length xs)%nat -> (s < length ys)%nat ->
    nth s (zipw f xs ys) d = f (nth s xs dx) (nth s ys dy).
Proof.
  induction xs as [|x xs IH]; intros [|y ys] [|s] Hx Hy; simpl in *; try lia; auto.
  apply IH; lia.
Qed.

Lemma nth_map_in {A B : Type} (f : A -> B) (da : A) (db : B) (l : list A) (s : nat) :
  (s < length l)%nat -> nth s (map f l) db = f (nth s l da).
Proof.
  intros H. rewrite (nth_indep _ db (f da)) by (rewrite length_map; exact H).
  apply map_nth.
Qed.

Lemma zeros_length (n : nat) : length (zeros n) = n.
Proof. apply repeat_length. Qed.

Lemma nth_zeros (n s : nat) : nth s (zeros n) 0 = 0.
Proof.
  unfold zeros. revert s; induction n as [|n IH]; intros [|s]; simpl; auto.
Qed.

(** ** Clipping *)

Lemma Qle_bool_false (a b : Q) : Qle_bool a b = false -> b < a.
Proof.
  intros H. apply Qnot_le_lt. intros Hle.
  apply Qle_bool_iff in Hle. congruence.
Qed.

Lemma Qmin_le_Qmax (a b : Q) : Qmin a b <= Qmax a b.
Proof.
  destruct (Q.min_spec a b) as [[? E]|[? E]];
    destruct (Q.max_spec a b) as [[? E']|[? E']]; rewrite E, E'; lra.
Qed.

(** The three cases of a clip. *)
Lemma clip_cases (lower upper x : Q) :
  (x < Qmin lower upper /\ clip lower upper x = Qmin lower upper)
  \/ (Qmax lower upper < x /\ clip lower upper x = Qmax lower upper)
  \/ (Qmin lower upper <= x <= Qmax lower upper /\ clip lower upper x = x).
Proof.
  pose proof (Qmin_le_Qmax lower upper) as Hmm.
  unfold clip.
  destruct (Qle_bool (Qmin lower upper) x) eqn:E1;
    destruct (Qle_bool x (Qmax lower upper)) eqn:E2;
    try apply Qle_bool_iff in E1; try apply Qle_bool_iff in E2;
    try apply Qle_bool_false in E1; try apply Qle_bool_false in E2.
  - right; right; auto.
  - right; left; auto.
  - left; auto.
  - exfalso. lra.
Qed.

Lemma clip_between (lower upper x : Q) :
  Qmin lower upper <= clip lower upper x <= Qmax lower upper.
Proof.
  pose proof (Qmin_le_Qmax lower upper).
  destruct (clip_cases lower upper x) as [[? E]|[[? E]|[? E]]]; rewrite E; lra.
Qed.

Lemma clip_cap (m x : Q) : 0 <= m -> - m <= clip (- m) m x <= m.
Proof.
  intros Hm. pose proof (clip_between (- m) m x) as [H1 H2].
  destruct (Q.min_spec (- m) m) as [[? E]|[? E]];
    destruct (Q.max_spec (- m) m) as [[? E']|[? E']];
    rewrite E in H1; rewrite E' in H2; lra.
Qed.

Lemma clip_inside (lower upper x : Q) :
  Qmin lower upper <= x <= Qmax lower upper -> clip lower upper x = x.
Proof.
  intros Hx.
  destruct (clip_cases lower upper x) as [[? E]|[[? E]|[? E]]]; auto; lra.
Qed.

Lemma clip_proper (lower upper x y : Q) :
  x == y -> clip lower upper x == clip lower upper y.
Proof.
  intros Hxy. pose proof (Qmin_le_Qmax lower upper).
  destruct (clip_cases lower upper x) as [[? E]|[[? E]|[? E]]];
    destruct (clip_cases lower upper y) as [[? E']|[[? E']|[? E']]];
    rewrite E, E'; lra.
Qed.

(** With the bounds in order, the clip is the usual one. *)
Lemma clip_ordered (lower upper x : Q) :
  lower <= upper -> clip lower upper x == Qmin upper (Qmax lower x).
Proof.
  intros H.
  destruct (Q.min_spec lower upper) as [[? El]|[? El]];
    destruct (Q.max_spec lower upper) as [[? Eu]|[? Eu]];
    destruct (Q.max_spec lower x) as [[? Ex]|[? Ex]];
    destruct (Q.min_spec upper (Qmax lower x)) as [[? Em]|[? Em]];
    destruct (clip_cases lower upper x) as [[? E]|[[? E]|[? E]]];
    rewrite E, ?Em; lra.
Qed.

(** Zero lies between [-s] and [s] whatever the sign of [s]. *)
Lemma clip_sym_zero (s x : Q) : x == 0 -> clip (- s) s x == 0.
Proof.
  intros Hx.
  destruct (clip_cases (- s) s x) as [[H E]|[[H E]|[H E]]]; rewrite E; try lra.
  - destruct (Q.min_spec (- s) s) as [[? E']|[? E']]; rewrite E' in *; lra.
  - destruct (Q.max_spec (- s) s) as [[? E']|[? E']]; rewrite E' in *; lra.
Qed.

(** ** The rate-limit loop *)

Lemma rate_limit_loop_acc (step mw : Q) :
  forall (todo : frame) (prev : row) (rows : frame),
    rate_limit_loop step mw prev todo rows
    = rows ++ rate_limit_loop step mw prev todo [].
Proof.
  induction todo as [|target rest IH]; intros prev rows; simpl.
  - now rewrite app_nil_r.
  - rewrite IH. rewrite (IH _ [_]). now rewrite <- app_assoc.
Qed.

Lemma rate_limit_loop_cons (step mw : Q) (prev target : row) (rest : frame) :
  rate_limit_loop step mw prev (target :: rest) []
  = rate_limit_step step mw prev target
      :: rate_limit_loop step mw (rate_limit_step step mw prev target) rest [].
Proof. simpl. now rewrite rate_limit_loop_acc. Qed.

Lemma rate_limit_loop_length (step mw : Q) :
  forall (todo : frame) (prev : row),
    length (rate_limit_loop step mw prev todo []) = length todo.
Proof.
  induction todo as [|target rest IH]; intros prev; [reflexivity|].
  rewrite rate_limit_loop_cons. simpl. now rewrite IH.
Qed.

Lemma rate_limit_step_length (step mw : Q) (prev target : row) :
  length target = length prev ->
  length (rate_limit_step step mw prev target) = length prev.
Proof.
  intros H. unfold rate_limit_step.
  rewrite length_map, zipw_length, length_map, zipw_length. lia.
Qed.

(** Row [t] of the result is one step from the row before it (from the
    initial [prev] for the first row). *)
Lemma rate_limit_loop_nth (step mw : Q) :
  forall (todo : frame) (prev : row) (t : nat),
    (t < length todo)%nat ->
    nth t (rate_limit_loop step mw prev todo []) []
    = rate_limit_step step mw
        (match t with
         | O => prev
         | S t' => nth t' (rate_limit_loop step mw prev todo []) []
         end)
        (nth t todo []).
Proof.
  induction todo as [|target rest IH]; intros prev t Ht; simpl in Ht; [lia|].
  rewrite rate_limit_loop_cons.
  destruct t as [|t']; [reflexivity|].
  cbn [nth]. rewrite IH by lia.
  destruct t' as [|t'']; reflexivity.
Qed.

Lemma rate_limit_loop_widths (step mw : Q) (n : nat) :
  forall (todo : frame) (prev : row),
    length prev = n -> Forall (fun r => length r = n) todo ->
    Forall (fun r => length r = n) (rate_limit_loop step mw prev todo []).
Proof.
  induction todo as [|target rest IH]; intros prev Hp Hall.
  - constructor.
  - rewrite rate_limit_loop_cons. inversion Hall; subst.
    assert (length (rate_limit_step step mw prev target) = length prev)
      by (apply rate_limit_step_length; congruence).
    constructor; [assumption|]. apply IH; [congruence|assumption].
Qed.

Lemma rate_limit_step_nth (step mw : Q) (prev target : row) (s : nat) :
  (s < length prev)%nat -> (s < length target)%nat ->
  nth s (rate_limit_step step mw prev target) 0
  = clip (- mw) mw (nth s prev 0 + clip (- step) step (nth s target 0 - nth s prev 0)).
Proof.
  intros Hp Ht. unfold rate_limit_step.
  rewrite (nth_map_in _ 0) by (rewrite zipw_length, length_map, zipw_length; lia).
  rewrite (nth_zipw _ 0 0) by (rewrite ?length_map, ?zipw_length; lia).
  rewrite (nth_map_in _ 0) by (rewrite zipw_length; lia).
  rewrite (nth_zipw _ 0 0) by lia.
  reflexivity.
Qed.

Lemma Forall_nth_len {A : Type} (P : list A -> Prop) (m : list (list A)) (t : nat) :
  Forall P m -> (t < length m)%nat -> P (nth t m []).
Proof.
  intros H Ht. rewrite Forall_forall in H. apply H. now apply nth_In.
Qed.

Lemma Qabs_bound (x y : Q) : - y <= x <= y -> Qabs x <= y.
Proof. intros H. now apply Qabs_Qle_condition. Qed.

Lemma Qabs_lower (x : Q) : - Qabs x <= x <= Qabs x.
Proof. apply Qabs_Qle_condition. lra. Qed.

Lemma sym_bounds (s : Q) : - Qabs s <= Qmin (- s) s /\ Qmax (- s) s <= Qabs s.
Proof.
  pose proof (Qabs_lower s) as [H1 H2].
  destruct (Q.min_spec (- s) s) as [[? E]|[? E]];
    destruct (Q.max_spec (- s) s) as [[? E']|[? E']]; rewrite E, E'; lra.
Qed.

Lemma sym_zero_inside (s : Q) : Qmin (- s) s <= 0 <= Qmax (- s) s.
Proof.
  destruct (Q.min_spec (- s) s) as [[? E]|[? E]];
    destruct (Q.max_spec (- s) s) as [[? E']|[? E']]; rewrite E, E'; lra.
Qed.

(** A capped weight moves by no more than the step. *)
Lemma rate_limit_move_bound (step mw p d : Q) :
  Qmin (- mw) mw <= p <= Qmax (- mw) mw ->
  Qabs (clip (- mw) mw (p + clip (- step) step d) - p) <= Qabs step.
Proof.
  intros Hp.
  pose proof (clip_between (- step) step d) as Hd.
  pose proof (sym_bounds step) as Hs.
  apply Qabs_bound.
  destruct (clip_cases (- mw) mw (p + clip (- step) step d))
    as [[H E]|[[H E]|[H E]]]; rewrite E; lra.
Qed.

(** C5. Rate-limit policy: starting from an all-zero previous weight, the
    executed weight of every bar and every name is
    clip(prev + clip(target - prev, -step, +step), -max_w, +max_w) with
    step = step_bps / 1e4, where prev is the executed weight of the bar
    before; the weight thereby moves by at most the step. *)
Theorem rate_limit_time_recurrence :
  forall (w_target : frame) (step_bps max_w : Q) (t s : nat),
    rect w_target -> (t < length w_target)%nat -> (s < ncols w_target)%nat ->
    let out := rate_limit_time w_target step_bps max_w in
    let step := step_bps / 10000 in
    let prev := match t with O => 0 | S t' => cell out t' s end in
    cell out t s
    = clip (- max_w) max_w (prev + clip (- step) step (cell w_target t s - prev))
    /\ Qabs (cell out t s - prev) <= Qabs step.
Proof.
  intros w step_bps mw t s Hrect Ht Hs out step prev.
  assert (Hw : Forall (fun r => length r = ncols w) w) by exact Hrect.
  assert (Hout : Forall (fun r => length r = ncols w) out).
  { apply rate_limit_loop_widths; [apply zeros_length | exact Hw]. }
  assert (Hlen : length out = length w) by apply rate_limit_loop_length.
  assert (Hrow : length (nth t w []) = ncols w)
    by (apply (Forall_nth_len (fun r => length r = ncols w)); assumption).
  assert (Heq : cell out t s
                = clip (- mw) mw (prev + clip (- step) step (cell w t s - prev))).
  { unfold cell at 1. unfold out, rate_limit_time.
    rewrite rate_limit_loop_nth by exact Ht.
    destruct t as [|t'].
    - rewrite rate_limit_step_nth by (rewrite ?zeros_length; lia).
      rewrite nth_zeros. reflexivity.
    - assert (Hprev : length (nth t' out []) = ncols w)
        by (apply (Forall_nth_len (fun r => length r = ncols w)); [assumption|lia]).
      fold step. change (rate_limit_loop step mw (zeros (ncols w)) w []) with out.
      rewrite rate_limit_step_nth by lia.
      reflexivity. }
  split; [exact Heq|].
  rewrite Heq. apply rate_limit_move_bound.
  destruct t as [|t']; [apply sym_zero_inside|].
  subst prev. unfold cell, out, rate_limit_time.
  rewrite rate_limit_loop_nth by lia.
  assert (Hin : (s < length (nth t' w []))%nat).
  { rewrite (Forall_nth_len (fun r => length r = ncols w) w t' Hw); lia. }
  assert (Hpl : forall p, length p = ncols w ->
            Qmin (- mw) mw
            <= nth s (rate_limit_step (step_bps / 10000) mw p (nth t' w [])) 0
            <= Qmax (- mw) mw).
  { intros p Hp. rewrite rate_limit_step_nth by lia. apply clip_between. }
  apply Hpl. destruct t' as [|t''].
  - apply zeros_length.
  - apply (Forall_nth_len (fun r => length r = ncols w)
             (rate_limit_loop (step_bps / 10000) mw (zeros (ncols w)) w []));
      [exact Hout | rewrite rate_limit_loop_length; lia].
Qed.

Lemma rate_limit_time_recurrence_witness :
  let w := [[1; -1]; [1; -1]] in
  let out := rate_limit_time w 100 (1 # 2) in
  cell out 1 0
  = clip (- (1 # 2)) (1 # 2)
      (cell out 0 0 + clip (- (100 / 10000)) (100 / 10000) (cell w 1 0 - cell out 0 0))
  /\ Qabs (cell out 1 0 - cell out 0 0) <= Qabs (100 / 10000).
Proof.
  apply (rate_limit_time_recurrence [[1; -1]; [1; -1]] 100 (1 # 2) 1 0).
  - repeat constructor.
  - simpl; lia.
  - simpl; lia.
Defined.

Lemma rate_limit_loop_capped (step mw : Q) :
  0 <= mw ->
  forall (todo : frame) (prev : row),
    Forall (Forall (fun x => - mw <= x <= mw)) (rate_limit_loop step mw prev todo []).
Proof.
  intros Hm. induction todo as [|target rest IH]; intros prev.
  - constructor.
  - rewrite rate_limit_loop_cons. constructor; [|apply IH].
    unfold rate_limit_step. apply Forall_map.
    apply Forall_forall. intros x _. now apply clip_cap.
Qed.

(** C10. Cap invariant of the rate-limit policy: for every target matrix,
    every step and every cap max_w >= 0, each entry of the executed-weight
    matrix of rate_limit_time lies in [-max_w, +max_w], at every bar and for
    every name. *)
Theorem rate_limit_time_capped :
  forall (w_target : frame) (step_bps max_w : Q),
    0 <= max_w ->
    Forall (Forall (fun x => - max_w <= x <= max_w))
           (rate_limit_time w_target step_bps max_w).
Proof.
  intros w step_bps mw Hm. unfold rate_limit_time.
  now apply rate_limit_loop_capped.
Qed.

Lemma rate_limit_time_capped_witness :
  Forall (Forall (fun x => - (1 # 100) <= x <= 1 # 100))
         (rate_limit_time [[5; -7]; [-3; 2]] 1000000 (1 # 100)).
Proof.
  apply (rate_limit_time_capped [[5; -7]; [-3; 2]] 1000000 (1 # 100)).
  vm_compute. discriminate.
Defined.

(** ** The no-trade band loop *)

Lemma band_loop_acc (band : Q) :
  forall (todo : frame) (prev : row) (rows : frame),
    band_loop band prev todo rows = rows ++ band_loop band prev todo [].
Proof.
  induction todo as [|target rest IH]; intros prev rows; simpl.
  - now rewrite app_nil_r.
  - rewrite IH. rewrite (IH _ [_]). now rewrite <- app_assoc.
Qed.

Lemma band_loop_cons (band : Q) (prev target : row) (rest : frame) :
  band_loop band prev (target :: rest) []
  = band_step band prev target :: band_loop band (band_step band prev target) rest [].
Proof. simpl. now rewrite band_loop_acc. Qed.

Lemma band_loop_length (band : Q) :
  forall (todo : frame) (prev : row),
    length (band_loop band prev todo []) = length todo.
Proof.
  induction todo as [|target rest IH]; intros prev; [reflexivity|].
  rewrite band_loop_cons. simpl. now rewrite IH.
Qed.

Lemma band_loop_nth (band : Q) :
  forall (todo : frame) (prev : row) (t : nat),
    (t < length todo)%nat ->
    nth t (band_loop band prev todo []) []
    = band_step band
        (match t with
         | O => prev
         | S t' => nth t' (band_loop band prev todo []) []
         end)
        (nth t todo []).
Proof.
  induction todo as [|target rest IH]; intros prev t Ht; simpl in Ht; [lia|].
  rewrite band_loop_cons.
  destruct t as [|t']; [reflexivity|].
  cbn [nth]. rewrite IH by lia.
  destruct t' as [|t'']; reflexivity.
Qed.

(** Offering the same target a second time changes nothing: a name that
    traded sits on the target, a name that held is as far from it as before. *)
Lemma band_step_idem (band : Q) :
  forall (prev target : row),
    band_step band (band_step band prev target) target = band_step band prev target.
Proof.
  unfold band_step.
  induction prev as [|p prev IH]; intros [|r target]; cbn [zipw]; auto.
  f_equal; [|apply IH].
  destruct (Qle_bool band (Qabs (r - p))) eqn:E.
  - destruct (Qle_bool band (Qabs (r - r))); reflexivity.
  - now rewrite E.
Qed.

(** ** Turnover of consecutive rows *)

Lemma diff_from_nth :
  forall (m : frame) (prev : row) (t : nat),
    (t < length m)%nat ->
    nth t (diff_from prev m) []
    = map Some (zipw Qminus (nth t m [])
                     (match t with O => prev | S t' => nth t' m [] end)).
Proof.
  induction m as [|r rest IH]; intros prev t Ht; simpl in Ht; [lia|].
  destruct t as [|t']; [reflexivity|].
  cbn [diff_from nth]. rewrite IH by lia.
  destruct t' as [|t'']; reflexivity.
Qed.

Lemma diff_from_length : forall (m : frame) (prev : row),
    length (diff_from prev m) = length m.
Proof. induction m as [|r rest IH]; intros prev; simpl; auto. Qed.

Lemma df_diff_length (m : frame) : length (df_diff m) = length m.
Proof. destruct m; simpl; [reflexivity|]. now rewrite diff_from_length. Qed.

Lemma abs_diff_sum_length (m : frame) : length (abs_diff_sum m) = length m.
Proof. unfold abs_diff_sum, df_abs. now rewrite !length_map, df_diff_length. Qed.

(** After the first row, turnover is the absolute change summed over names. *)
Lemma abs_diff_sum_succ (m : frame) (t : nat) :
  (S t < length m)%nat ->
  nth (S t) (abs_diff_sum m) 0
  = sum_skipna (map (option_map Qabs)
                    (map Some (zipw Qminus (nth (S t) m []) (nth t m [])))).
Proof.
  intros Ht. unfold abs_diff_sum, df_abs.
  rewrite (nth_map_in _ []) by (rewrite length_map, df_diff_length; exact Ht).
  rewrite (nth_map_in _ []) by (rewrite df_diff_length; exact Ht).
  destruct m as [|r rest]; simpl in Ht; [lia|].
  cbn [df_diff nth]. rewrite diff_from_nth by lia.
  destruct t as [|t']; reflexivity.
Qed.

(** The first row of the turnover series is zero. *)
Lemma abs_diff_sum_first (r : row) (rest : frame) :
  nth 0 (abs_diff_sum (r :: rest)) 0 = 0.
Proof.
  unfold abs_diff_sum, df_abs. cbn [df_diff map nth].
  induction r as [|x r IH]; cbn [map option_map sum_skipna fold_right]; auto.
Qed.

Lemma equal_rows_no_turnover (a b : row) :
  Forall2 Qeq a b ->
  sum_skipna (map (option_map Qabs) (map Some (zipw Qminus a b))) == 0.
Proof.
  induction 1 as [|x y a b Hxy _ IH];
    cbn [zipw map option_map sum_skipna fold_right]; [reflexivity|].
  fold (sum_skipna (map (option_map Qabs) (map Some (zipw Qminus a b)))).
  rewrite IH. assert (E : x - y == 0) by lra.
  rewrite E. reflexivity.
Qed.

Lemma Forall2_Qeq_refl (a : row) : Forall2 Qeq a a.
Proof. induction a; constructor; auto. reflexivity. Qed.

(** A weight that already sits on its target stays there. *)
Lemma rate_limit_step_fixed (step mw : Q) :
  forall (e r : row),
    Forall (fun x => Qmin (- mw) mw <= x <= Qmax (- mw) mw) e ->
    Forall2 Qeq e r ->
    Forall2 Qeq (rate_limit_step step mw e r) e.
Proof.
  intros e r Hcap Heq. revert Hcap.
  induction Heq as [|x y e r Hxy _ IH]; intros Hcap; [constructor|].
  inversion Hcap; subst.
  unfold rate_limit_step in *. cbn [zipw map]. constructor; [|now apply IH].
  assert (E0 : clip (- step) step (y - x) == 0) by (apply clip_sym_zero; lra).
  rewrite (clip_proper _ _ (x + clip (- step) step (y - x)) x) by lra.
  now rewrite clip_inside.
Qed.

Lemma rate_limit_step_between (step mw : Q) (prev target : row) :
  Forall (fun x => Qmin (- mw) mw <= x <= Qmax (- mw) mw)
         (rate_limit_step step mw prev target).
Proof.
  unfold rate_limit_step. apply Forall_map.
  apply Forall_forall. intros x _. apply clip_between.
Qed.

Lemma nth_error_nth_len {A : Type} (l : list A) (t : nat) (x d : A) :
  nth_error l t = Some x -> (t < length l)%nat /\ nth t l d = x.
Proof.
  intros H. split.
  - apply nth_error_Some. congruence.
  - now apply nth_error_nth.
Qed.

(** C8 (as amended). When two consecutive bars carry the same target row:
    under the band policy the executed weights of the second bar equal those
    of the first and the second bar's turnover is 0, whatever came before;
    under the rate-limit policy the same holds once the executed weights of
    the first bar have reached the target. *)
Theorem zero_turnover_idempotence :
  forall (w_target : frame) (t : nat) (r : row),
    nth_error w_target t = Some r ->
    nth_error w_target (S t) = Some r ->
    (forall band_bps : Q,
        let out := apply_no_trade_band w_target band_bps in
        nth (S t) out [] = nth t out []
        /\ nth (S t) (abs_diff_sum out) 0 == 0)
    /\ (forall step_bps max_w : Q,
        let out := rate_limit_time w_target step_bps max_w in
        Forall2 Qeq (nth t out []) r ->
        Forall2 Qeq (nth (S t) out []) (nth t out [])
        /\ nth (S t) (abs_diff_sum out) 0 == 0).
Proof.
  intros w t r H0 H1.
  destruct (nth_error_nth_len w t r [] H0) as [Ht E0].
  destruct (nth_error_nth_len w (S t) r [] H1) as [HSt E1].
  split.
  - intros band_bps out.
    assert (Hsame : nth (S t) out [] = nth t out []).
    { unfold out, apply_no_trade_band.
      rewrite (band_loop_nth _ _ _ (S t)) by exact HSt.
      rewrite E1. rewrite (band_loop_nth _ _ _ t) by exact Ht.
      rewrite E0. apply band_step_idem. }
    split; [exact Hsame|].
    rewrite abs_diff_sum_succ
      by (unfold out, apply_no_trade_band; rewrite band_loop_length; exact HSt).
    rewrite Hsame. apply equal_rows_no_turnover, Forall2_Qeq_refl.
  - intros step_bps mw out Hreached.
    assert (Hsame : Forall2 Qeq (nth (S t) out []) (nth t out [])).
    { unfold out, rate_limit_time in *.
      rewrite (rate_limit_loop_nth _ _ _ _ (S t)) by exact HSt.
      rewrite E1. apply rate_limit_step_fixed; [|exact Hreached].
      rewrite rate_limit_loop_nth by exact Ht.
      apply rate_limit_step_between. }
    split; [exact Hsame|].
    rewrite abs_diff_sum_succ
      by (unfold out, rate_limit_time; rewrite rate_limit_loop_length; exact HSt).
    now apply equal_rows_no_turnover.
Qed.

Lemma zero_turnover_idempotence_witness :
  let w := [[1 # 100; 0]; [1 # 100; 0]] in
  (nth 1 (apply_no_trade_band w 50) [] = nth 0 (apply_no_trade_band w 50) []
   /\ nth 1 (abs_diff_sum (apply_no_trade_band w 50)) 0 == 0)
  /\ (Forall2 Qeq (nth 1 (rate_limit_time w 100 1) []) (nth 0 (rate_limit_time w 100 1) [])
      /\ nth 1 (abs_diff_sum (rate_limit_time w 100 1)) 0 == 0).
Proof.
  destruct (zero_turnover_idempotence
              [[1 # 100; 0]; [1 # 100; 0]] 0 [1 # 100; 0] eq_refl eq_refl)
    as [Hband Hrate].
  split.
  - exact (Hband 50).
  - apply (Hrate 100 1). repeat constructor; vm_compute; reflexivity.
Defined.

(** C8, as stated, fails for the rate-limit policy: with the target held at
    1 over two bars, a step of 100 bps and a cap of 1, the executed weight is
    0.01 at the first bar and 0.02 at the second, and the second bar's
    turnover is 0.01. *)
Lemma rate_limit_keeps_stepping :
  let w := [[1]; [1]] in
  let out := rate_limit_time w 100 1 in
  nth_error w 0 = Some [1] /\ nth_error w 1 = Some [1]
  /\ cell out 0 0 == 1 # 100
  /\ cell out 1 0 == 2 # 100
  /\ ~ nth 1 (abs_diff_sum out) 0 == 0.
Proof.
  cbv zeta. repeat split; try reflexivity.
  intros H. vm_compute in H. discriminate.
Qed.

(** ** Membership on small cross-sections *)

Lemma Qle_bool_true (a b : Q) : a <= b -> Qle_bool a b = true.
Proof. apply Qle_bool_iff. Qed.

Lemma Qle_bool_gt (a b : Q) : b < a -> Qle_bool a b = false.
Proof.
  intros H. destruct (Qle_bool a b) eqn:E; auto.
  apply Qle_bool_iff in E. lra.
Qed.

(** Settle every comparison of the goal from the order facts at hand. *)
Ltac decide_order :=
  repeat match goal with
         | |- context [Qle_bool ?a ?b] =>
             first [ rewrite (Qle_bool_true a b) by lra
                   | rewrite (Qle_bool_gt a b) by lra ]
         end.

Ltac run_membership :=
  cbv -[Qle_bool Qminus Qdiv Qlt_bool Qopp]; unfold Qlt_bool; decide_order;
  vm_compute; reflexivity.

(** Four symbols scored in ascending column order, first scored at the
    second bar, with the default thresholds: the lowest score goes short,
    the two highest go long. *)
Lemma membership_ascending (a b c d : Q) :
  a < b -> b < c -> c < d ->
  sticky_membership [[None; None; None; None]; [Some a; Some b; Some c; Some d]]
                    (3 # 10) (55 # 100) None
  = Ok [[0; 0; 0; 0]; [-1; 0; 1; 1]]%Z.
Proof. intros Hab Hbc Hcd. run_membership. Qed.

Lemma membership_descending (a b c d : Q) :
  d < c -> c < b -> b < a ->
  sticky_membership [[None; None; None; None]; [Some a; Some b; Some c; Some d]]
                    (3 # 10) (55 # 100) None
  = Ok [[0; 0; 0; 0]; [1; 1; 0; -1]]%Z.
Proof. intros Hdc Hcb Hba. run_membership. Qed.

(** C1 (the code at a failing input). Four symbols close at 100, then at
    120, 110, 90 and 80, so their one-bar log returns are in descending
    order. With K = 1 and the default thresholds, momentum mode puts the
    biggest winner short and the two losers long; mean-reversion mode puts
    the two winners long and the biggest loser short. The claim asks for the
    opposite orientation. *)
Theorem momentum_longs_losers :
  forall ln : Q -> Q,
    (forall x y : Q, x < y -> ln x < ln y) ->
    let prices := [[Some 100; Some 100; Some 100; Some 100];
                   [Some 120; Some 110; Some 90; Some 80]] in
    sticky_membership (score_of ln Momentum 1 prices) (3 # 10) (55 # 100) None
    = Ok [[0; 0; 0; 0]; [-1; 0; 1; 1]]%Z
    /\ sticky_membership (score_of ln MeanRev 1 prices) (3 # 10) (55 # 100) None
       = Ok [[0; 0; 0; 0]; [1; 1; 0; -1]]%Z.
Proof.
  intros ln Hmono prices.
  assert (H1 : ln 80 < ln 90) by (apply Hmono; reflexivity).
  assert (H2 : ln 90 < ln 110) by (apply Hmono; reflexivity).
  assert (H3 : ln 110 < ln 120) by (apply Hmono; reflexivity).
  split.
  - change (score_of ln Momentum 1 prices)
      with [[None; None; None; None];
            [Some (- (ln 120 - ln 100)); Some (- (ln 110 - ln 100));
             Some (- (ln 90 - ln 100)); Some (- (ln 80 - ln 100))]].
    apply membership_ascending; lra.
  - change (score_of ln MeanRev 1 prices)
      with [[None; None; None; None];
            [Some (ln 120 - ln 100); Some (ln 110 - ln 100);
             Some (ln 90 - ln 100); Some (ln 80 - ln 100)]].
    apply membership_descending; lra.
Qed.

Lemma momentum_longs_losers_witness :
  let prices := [[Some 100; Some 100; Some 100; Some 100];
                 [Some 120; Some 110; Some 90; Some 80]] in
  sticky_membership (score_of (fun x => x) Momentum 1 prices) (3 # 10) (55 # 100) None
  = Ok [[0; 0; 0; 0]; [-1; 0; 1; 1]]%Z
  /\ sticky_membership (score_of (fun x => x) MeanRev 1 prices) (3 # 10) (55 # 100) None
     = Ok [[0; 0; 0; 0]; [1; 1; 0; -1]]%Z.
Proof.
  apply (momentum_longs_losers (fun x => x)).
  intros x y H. exact H.
Defined.

(** C2 (the code at a failing input). Every bar is an update bar. The third
    symbol enters long at the first bar; at the second bar its rank (0.5)
    meets none of the four conditions and at the third bar it has no score,
    so the loop writes 0 for it at both bars; the returned matrix has it
    long at both. *)
Theorem sticky_membership_stale_long :
  let score := [[Some 1; Some 2; Some 3; Some 4];
                [Some 1; Some 3; Some 2; Some 4];
                [Some 1; Some 3; None; Some 4]] in
  sticky_raw score (1 # 4) (35 # 100) [true; true; true]
  = [[-1; 0; 1; 1]; [-1; 1; 0; 1]; [-1; 1; 0; 1]]%Z
  /\ sticky_membership score (1 # 4) (35 # 100) None
     = Ok [[-1; 0; 1; 1]; [-1; 1; 1; 1]; [-1; 1; 1; 1]]%Z.
Proof. split; vm_compute; reflexivity. Qed.

(** C7 (the code at a failing input). One symbol, three one-minute bars from
    09:30, the first minute skipped, a rebalance at every bar. The first
    output bar (09:31) buys 0.01 from a flat book, yet its turnover and its
    cost are 0; the second bar's turnover is the change 0.01 and its cost is
    that turnover times cost_bps / 10000. *)
Theorem first_bar_turnover_not_charged :
  forall ln : Q -> Q,
    let cfg := mkConfig 1 1 10 1 0 Ratelimit 100 0 0 1 Momentum 1 (3 # 10) (55 # 100) in
    let df := [mkBar 34200 "A" 10 10; mkBar 34260 "A" 10 11; mkBar 34320 "A" 11 12] in
    let rows := [mkWrow 34200 [Some 10] [Some 10];
                 mkWrow 34260 [Some 11] [Some 10];
                 mkWrow 34320 [Some 12] [Some 11]] in
    exists st r0 r1,
      vector_backtest ln df cfg = Ok [r0; r1]
      /\ backtest_rows ln cfg rows = Ok st
      /\ st_out st = [r0; r1]
      /\ o_ts r0 = 34260%Z
      /\ cell (st_w_exec st) 0 0 == 1 # 100
      /\ turnover r0 == 0 /\ tc r0 == 0
      /\ turnover r1 == 1 # 100 /\ tc r1 == (1 # 100) * 10 / 10000.
Proof.
  intros ln cfg df rows.
  eexists. eexists. eexists.
  split; [vm_compute; reflexivity|].
  split; [vm_compute; reflexivity|].
  split; [vm_compute; reflexivity|].
  repeat split; vm_compute; reflexivity.
Qed.

(** ** Accounting rows *)

Lemma loc_mask_map {A B : Type} (f : A -> B) :
  forall (mask : list bool) (l : list A),
    loc_mask mask (map f l) = map f (loc_mask mask l).
Proof.
  induction mask as [|b mask IH]; intros [|x l]; cbn [loc_mask map]; auto.
  destruct b; cbn [map]; now rewrite IH.
Qed.

Lemma zipw_map_both {A B C D : Type} (f : B -> C -> D) (g : A -> B) (h : A -> C) :
  forall l : list A, zipw f (map g l) (map h l) = map (fun x => f (g x) (h x)) l.
Proof. induction l as [|x l IH]; cbn [map zipw]; auto. now rewrite IH. Qed.

Lemma nth_error_zipw {A B C : Type} (f : A -> B -> C) :
  forall (xs : list A) (ys : list B) (k : nat) (v : C),
    nth_error (zipw f xs ys) k = Some v ->
    exists x y, nth_error xs k = Some x /\ nth_error ys k = Some y /\ v = f x y.
Proof.
  induction xs as [|x xs IH]; intros [|y ys] [|k] v H; cbn in H; try discriminate.
  - injection H as <-. exists x, y. auto.
  - apply IH in H. exact H.
Qed.

Lemma nth_error_map_inv {A B : Type} (f : A -> B) (l : list A) (k : nat) (v : B) :
  nth_error (map f l) k = Some v -> exists x, nth_error l k = Some x /\ v = f x.
Proof.
  rewrite nth_error_map. destruct (nth_error l k) as [x|]; cbn; intros H.
  - injection H as <-. now exists x.
  - discriminate.
Qed.

Lemma concat_out_nth :
  forall (idx : list Z) (g c n t : list Q) (k : nat) (o : out_row),
    nth_error (concat_out idx g c n t) k = Some o ->
    nth_error idx k = Some (o_ts o)
    /\ nth_error g k = Some (raw_ret o)
    /\ nth_error c k = Some (tc o)
    /\ nth_error n k = Some (net_ret o)
    /\ nth_error t k = Some (turnover o).
Proof.
  induction idx as [|i idx IH]; intros [|g0 g] [|c0 c] [|n0 n] [|t0 t] k o H;
    cbn [concat_out] in H; try (destruct k; discriminate).
  destruct k as [|k]; cbn [nth_error] in *.
  - injection H as <-. cbn. auto.
  - now apply IH.
Qed.

Lemma fillna_some {A : Type} (d : A) (m : list (list A)) :
  fillna d (map (map Some) m) = m.
Proof.
  unfold fillna. rewrite map_map. rewrite <- (map_id m) at 2.
  apply map_ext. intros r. rewrite map_map. rewrite <- (map_id r) at 2.
  now apply map_ext.
Qed.

Lemma map_zero_zeros {A : Type} (r : list A) : map (fun _ => 0) r = zeros (length r).
Proof. unfold zeros. induction r as [|x r IH]; cbn [map length repeat]; congruence. Qed.

Lemma w_lag_of_cons (r : row) (rest : frame) :
  w_lag_of (r :: rest) = zeros (length r) :: removelast (r :: rest).
Proof.
  unfold w_lag_of, shift1. unfold fillna at 1. cbn [map].
  fold (fillna 0 (map (map Some) (removelast (r :: rest)))).
  rewrite fillna_some. f_equal.
  unfold nan_row. rewrite map_map. apply map_zero_zeros.
Qed.

Lemma nth_error_removelast {A : Type} :
  forall (l : list A) (k : nat) (x : A),
    nth_error (removelast l) k = Some x -> nth_error l k = Some x.
Proof.
  induction l as [|a l IH]; intros k x H; [destruct k; discriminate|].
  destruct l as [|b l]; [destruct k; discriminate|].
  destruct k as [|k]; [exact H|].
  change (removelast (a :: b :: l)) with (a :: removelast (b :: l)) in H.
  cbn [nth_error] in *. now apply IH.
Qed.

(** The lagged weights: zeros before the first bar, then the executed row of
    the bar before. *)
Lemma w_lag_of_nth (w : frame) (k : nat) (wl : row) :
  nth_error (w_lag_of w) k = Some wl ->
  wl = match k with
       | O => zeros (ncols w)
       | S k' => nth k' w []
       end.
Proof.
  destruct w as [|r rest]; [destruct k; discriminate|].
  rewrite w_lag_of_cons. destruct k as [|k]; cbn [nth_error ncols].
  - now intros [= <-].
  - intros H. apply nth_error_removelast in H.
    symmetry. now apply nth_error_nth.
Qed.

Lemma sum_skipna_gross_return :
  forall (w : row) (c o : nrow),
    sum_skipna (zipw (fun x r => option_map (Qmult x) r) w (zipw ret_oc c o))
    == gross_return w c o.
Proof.
  induction w as [|w0 w IH]; intros [|c0 c] [|o0 o];
    cbn [zipw sum_skipna fold_right gross_return]; try reflexivity.
  fold (sum_skipna (zipw (fun x r => option_map (Qmult x) r) w (zipw ret_oc c o))).
  rewrite <- IH.
  destruct c0 as [cv|], o0 as [ov|]; cbn [ret_oc option_map]; lra.
Qed.

(** C6. Gross return accounting: at every output bar, raw_ret is the sum over
    symbols of the weight executed at the previous output bar (zero before
    the first one) times close/open - 1 of this bar, and
    net_ret = raw_ret - tc. *)
Theorem gross_return_accounting :
  forall (ln : Q -> Q) (cfg : config) (rows : list wrow) (st : stages),
    backtest_rows ln cfg rows = Ok st ->
    forall (t : nat) (o : out_row) (b : wrow),
      nth_error (st_out st) t = Some o ->
      nth_error (session_rows cfg rows) t = Some b ->
      let w_prev := match t with
                    | O => zeros (ncols (st_w_exec st))
                    | S t' => nth t' (st_w_exec st) []
                    end in
      o_ts o = ts b
      /\ raw_ret o == gross_return w_prev (px b) (op b)
      /\ net_ret o = raw_ret o - tc o.
Proof.
  intros ln cfg rows st Hrun t o b Ho Hb w_prev.
  unfold backtest_rows in Hrun.
  destruct (sticky_membership _ _ _ _) as [memb_full|e]; cbn [bind] in Hrun;
    [|discriminate].
  injection Hrun as <-. unfold assemble in *. cbn [st_out st_w_exec] in *.
  apply concat_out_nth in Ho. destruct Ho as (Hi & Hg & Hc & Hn & _).
  split; [|split].
  - rewrite loc_mask_map in Hi. fold (session_rows cfg rows) in Hi.
    rewrite nth_error_map, Hb in Hi. cbn in Hi. congruence.
  - unfold pnl_gross_of in Hg.
    apply nth_error_map_inv in Hg. destruct Hg as (pr & Hpr & Hv).
    apply nth_error_zipw in Hpr. destruct Hpr as (wl & rr & Hwl & Hrr & ->).
    apply w_lag_of_nth in Hwl. fold w_prev in Hwl. subst wl.
    rewrite zipw_map_both, loc_mask_map in Hrr.
    fold (session_rows cfg rows) in Hrr.
    rewrite nth_error_map, Hb in Hrr. cbn in Hrr. injection Hrr as <-.
    rewrite Hv. apply sum_skipna_gross_return.
  - apply nth_error_zipw in Hn. destruct Hn as (x & y & Hx & Hy & Hv).
    congruence.
Qed.

(** ** Shapes of the intermediate frames *)

Lemma loc_mask_length {A B : Type} :
  forall (mask : list bool) (l : list A) (l' : list B),
    length l = length l' -> length (loc_mask mask l) = length (loc_mask mask l').
Proof.
  induction mask as [|b mask IH]; intros [|x l] [|y l'] H; cbn in *; try lia.
  destruct b; cbn; rewrite (IH l l'); lia.
Qed.

Lemma loc_mask_Forall {A : Type} (P : A -> Prop) :
  forall (mask : list bool) (l : list A), Forall P l -> Forall P (loc_mask mask l).
Proof.
  induction mask as [|b mask IH]; intros [|x l] H; cbn [loc_mask]; auto.
  inversion H; subst. destruct b; auto.
Qed.

Lemma diff_k_length (k : Z) (m : nframe) : length (diff_k k m) = length m.
Proof.
  unfold diff_k. rewrite length_map, length_combine, length_seq. lia.
Qed.

Lemma diff_k_widths (k : Z) (n : nat) (m : nframe) :
  Forall (fun r => length r = n) m -> Forall (fun r => length r = n) (diff_k k m).
Proof.
  intros H. unfold diff_k. apply Forall_map. apply Forall_forall.
  intros [t r] Hin. apply in_combine_r in Hin. cbn [fst snd].
  rewrite Forall_forall in H. unfold diff_k_row.
  destruct (if (Z.of_nat t - k <? 0)%Z then None
            else nth_error m (Z.to_nat (Z.of_nat t - k))) as [old|] eqn:E.
  - destruct (Z.of_nat t - k <? 0)%Z; [discriminate|].
    apply nth_error_In in E. rewrite zipw_length, (H r Hin), (H old E). lia.
  - unfold nan_row. rewrite length_map. now apply H.
Qed.

Lemma score_of_length (ln : Q -> Q) (sig : signal_mode) (k : Z) (prices : nframe) :
  length (score_of ln sig k prices) = length prices.
Proof.
  unfold score_of. destruct sig; rewrite ?length_map, diff_k_length, length_map; reflexivity.
Qed.

Lemma score_of_widths (ln : Q -> Q) (sig : signal_mode) (k : Z) (n : nat) (prices : nframe) :
  Forall (fun r => length r = n) prices ->
  Forall (fun r => length r = n) (score_of ln sig k prices).
Proof.
  intros H. unfold score_of.
  assert (H' : Forall (fun r => length r = n)
                 (diff_k k (map (map (option_map ln)) prices))).
  { apply diff_k_widths. apply Forall_map.
    eapply Forall_impl; [|exact H]. cbn. intros r Hr. now rewrite length_map. }
  destruct sig; [|exact H'].
  apply Forall_map. eapply Forall_impl; [|exact H'].
  cbn. intros r Hr. now rewrite length_map.
Qed.

Lemma rank_cells_length (n : nat) :
  forall (rest before : nrow), length (rank_cells n before rest) = length rest.
Proof.
  induction rest as [|[x|] rest IH]; intros before; cbn [rank_cells length]; auto.
Qed.

Lemma rank_pct_length (r : nrow) : length (rank_pct r) = length r.
Proof. apply rank_cells_length. Qed.

Lemma sticky_loop_length (q_in q_out : Q) :
  forall (ranks : nframe) (prev : mrow) (mask : list bool),
    length (sticky_loop q_in q_out prev ranks mask) = length ranks.
Proof.
  induction ranks as [|r ranks IH]; intros prev mask; cbn [sticky_loop]; auto.
  destruct (match mask with b :: _ => b | [] => false end); cbn [length]; now rewrite IH.
Qed.

Lemma sticky_loop_widths (q_in q_out : Q) (n : nat) :
  forall (ranks : nframe) (prev : mrow) (mask : list bool),
    length prev = n -> Forall (fun r => length r = n) ranks ->
    Forall (fun r => length r = n) (sticky_loop q_in q_out prev ranks mask).
Proof.
  induction ranks as [|r ranks IH]; intros prev mask Hp H; cbn [sticky_loop];
    [constructor|].
  inversion H as [|? ? Hr Hrest]; clear H.
  destruct (match mask with b :: _ => b | [] => false end).
  - assert (length (zipw (sticky_cell q_in q_out) prev r) = n)
      by (rewrite zipw_length; lia).
    constructor; [assumption|]. now apply IH.
  - constructor; [now rewrite length_map|]. now apply IH.
Qed.

Lemma ffill_row_length {A : Type} (last r : list (option A)) :
  length last = length r -> length (ffill_row last r) = length r.
Proof. intros H. unfold ffill_row. rewrite zipw_length. lia. Qed.

Lemma ffill_from_length {A : Type} :
  forall (m : list (list (option A))) (last : list (option A)),
    length (ffill_from last m) = length m.
Proof. induction m as [|r m IH]; intros last; cbn [ffill_from length]; auto. Qed.

Lemma ffill_from_widths {A : Type} (n : nat) :
  forall (m : list (list (option A))) (last : list (option A)),
    length last = n -> Forall (fun r => length r = n) m ->
    Forall (fun r => length r = n) (ffill_from last m).
Proof.
  induction m as [|r m IH]; intros last Hl H; cbn [ffill_from]; [constructor|].
  inversion H as [|? ? Hr Hrest]; clear H.
  assert (length (ffill_row last r) = n) by (rewrite ffill_row_length; congruence).
  constructor; [assumption|]. now apply IH.
Qed.

Lemma ffill_widths {A : Type} (n : nat) (m : list (list (option A))) :
  Forall (fun r => length r = n) m -> Forall (fun r => length r = n) (ffill m).
Proof.
  intros H. unfold ffill. destruct m as [|r m]; [constructor|].
  apply ffill_from_widths; [|exact H].
  rewrite repeat_length. now inversion H.
Qed.

Lemma fillna_length {A : Type} (d : A) (m : list (list (option A))) :
  length (fillna d m) = length m.
Proof. unfold fillna. apply length_map. Qed.

Lemma fillna_widths {A : Type} (d : A) (n : nat) (m : list (list (option A))) :
  Forall (fun r => length r = n) m -> Forall (fun r => length r = n) (fillna d m).
Proof.
  intros H. unfold fillna. apply Forall_map.
  eapply Forall_impl; [|exact H]. cbn. intros r Hr. now rewrite length_map.
Qed.

Lemma sticky_body_length (score : nframe) (q_in q_out : Q) (mask : list bool) :
  length (sticky_body score q_in q_out mask) = length score.
Proof.
  unfold sticky_body, ffill, replace_zero_nan.
  rewrite fillna_length, ffill_from_length, length_map, sticky_loop_length, length_map.
  reflexivity.
Qed.

Lemma sticky_body_widths (score : nframe) (q_in q_out : Q) (mask : list bool) (n : nat) :
  Forall (fun r => length r = n) score ->
  Forall (fun r => length r = n) (sticky_body score q_in q_out mask).
Proof.
  intros H. unfold sticky_body.
  apply fillna_widths, ffill_widths. unfold replace_zero_nan.
  apply Forall_map.
  assert (Hl : Forall (fun r => length r = n)
                 (sticky_loop q_in q_out (repeat 0%Z (ncols score))
                    (map rank_pct score) mask)).
  { destruct score as [|r0 score]; [constructor|].
    apply sticky_loop_widths.
    - rewrite repeat_length. now inversion H.
    - apply Forall_map. eapply Forall_impl; [|exact H].
      cbn. intros r Hr. now rewrite rank_pct_length. }
  eapply Forall_impl; [|exact Hl]. cbn. intros r Hr. now rewrite length_map.
Qed.

Lemma cumcount_from_length : forall (days seen : list Z),
    length (cumcount_from seen days) = length days.
Proof. induction days as [|d days IH]; intros seen; cbn; auto. Qed.

Lemma cadence_mask_length (cfg : config) (idx : list Z) :
  length (cadence_mask cfg idx) = length idx.
Proof.
  unfold cadence_mask, cumcount.
  now rewrite length_map, cumcount_from_length, length_map.
Qed.

Lemma session_mask_length (cfg : config) (idx : list Z) :
  length (session_mask cfg idx) = length idx.
Proof. apply length_map. Qed.

(** ** Membership never returns to flat *)

Lemma abs_sum_Z_nonneg (r : mrow) : (0 <= abs_sum_Z r)%Z.
Proof. induction r as [|x r IH]; cbn [abs_sum_Z fold_right]; [lia|]. unfold abs_sum_Z in IH. lia. Qed.

Lemma zero_row_iff (r : mrow) : zero_row r <-> Forall (fun x => x = 0%Z) r.
Proof.
  unfold zero_row. induction r as [|x r IH].
  - split; [constructor|reflexivity].
  - pose proof (abs_sum_Z_nonneg r) as Hr.
    change (abs_sum_Z (x :: r)) with (Z.abs x + abs_sum_Z r)%Z.
    split.
    + intros H. constructor; [lia|]. apply IH. lia.
    + intros H. inversion H; subst. apply IH in H3. rewrite H3. reflexivity.
Qed.

Lemma ffill_row_none {A : Type} :
  forall (last r : list (option A)),
    length last = length r -> all_none (ffill_row last r) -> all_none last.
Proof.
  unfold all_none, ffill_row.
  induction last as [|l last IH]; intros [|c r] Hlen H; cbn in *; try lia;
    [constructor|].
  inversion H as [|? ? Hc Hrest]; subst.
  constructor; [|apply (IH r); [lia|assumption]].
  destruct c; [discriminate|assumption].
Qed.

Lemma ffill_row_keeps_none {A : Type} :
  forall (last r : list (option A)),
    all_none last -> all_none r -> all_none (ffill_row last r).
Proof.
  unfold all_none, ffill_row.
  induction last as [|l last IH]; intros [|c r] Hl Hr; cbn [zipw]; try constructor.
  - inversion Hl; inversion Hr; subst. reflexivity.
  - inversion Hl; inversion Hr; subst. now apply IH.
Qed.

Lemma ffill_from_back {A : Type} (n : nat) :
  forall (m : list (list (option A))) (last : list (option A)),
    length last = n -> Forall (fun r => length r = n) m ->
    Forall (fun F => all_none F -> all_none last) (ffill_from last m).
Proof.
  induction m as [|r m IH]; intros last Hl H; cbn [ffill_from]; [constructor|].
  inversion H as [|? ? Hr Hrest]; clear H.
  assert (Hback : all_none (ffill_row last r) -> all_none last)
    by (apply ffill_row_none; congruence).
  constructor; [exact Hback|].
  eapply Forall_impl; [|apply IH; [rewrite ffill_row_length; congruence|assumption]].
  cbn. auto.
Qed.

Lemma ffill_from_sorted {A : Type} (n : nat) :
  forall (m : list (list (option A))) (last : list (option A)),
    length last = n -> Forall (fun r => length r = n) m ->
    StronglySorted (fun F F' => all_none F' -> all_none F) (ffill_from last m).
Proof.
  induction m as [|r m IH]; intros last Hl H; cbn [ffill_from]; [constructor|].
  inversion H as [|? ? Hr Hrest]; clear H.
  assert (Hw : length (ffill_row last r) = n) by (rewrite ffill_row_length; congruence).
  constructor; [now apply IH|].
  now apply (ffill_from_back n).
Qed.

Lemma ffill_row_no_zero (last r : list (option Z)) :
  no_zero_cell last -> no_zero_cell r -> no_zero_cell (ffill_row last r).
Proof.
  unfold no_zero_cell, ffill_row. revert r.
  induction last as [|l last IH]; intros [|c r] Hl Hr; cbn [zipw]; try constructor.
  - inversion Hl; inversion Hr; subst. destruct c; assumption.
  - inversion Hl; inversion Hr; subst. now apply IH.
Qed.

Lemma ffill_from_no_zero :
  forall (m : list (list (option Z))) (last : list (option Z)),
    no_zero_cell last -> Forall no_zero_cell m ->
    Forall no_zero_cell (ffill_from last m).
Proof.
  induction m as [|r m IH]; intros last Hl H; cbn [ffill_from]; [constructor|].
  inversion H; subst.
  assert (no_zero_cell (ffill_row last r)) by now apply ffill_row_no_zero.
  constructor; [assumption|]. now apply IH.
Qed.

Lemma replace_zero_nan_no_zero (m : mframe) : Forall no_zero_cell (replace_zero_nan m).
Proof.
  unfold replace_zero_nan. apply Forall_map. apply Forall_forall. intros r _.
  unfold no_zero_cell. apply Forall_map. apply Forall_forall. intros x _.
  destruct (x =? 0)%Z eqn:E; [discriminate|].
  intros [= ->]. discriminate.
Qed.

Lemma filled_zero_iff (F : list (option Z)) :
  no_zero_cell F -> (zero_row (map fill0 F) <-> all_none F).
Proof.
  intros Hnz. rewrite zero_row_iff. unfold all_none.
  induction Hnz as [|c F Hc _ IH]; cbn [map].
  - split; constructor.
  - split; intros H; inversion H; subst; constructor; try (now apply IH).
    + destruct c as [x|]; [cbn in *; congruence|reflexivity].
    + reflexivity.
Qed.

Lemma StronglySorted_map {A B : Type} (R : B -> B -> Prop) (f : A -> B) (l : list A) :
  StronglySorted (fun a b => R (f a) (f b)) l -> StronglySorted R (map f l).
Proof.
  induction 1 as [|a l _ IH Hall]; cbn [map]; constructor; auto.
  now apply Forall_map.
Qed.

Lemma StronglySorted_within {A : Type} (P : A -> Prop) (R R' : A -> A -> Prop) (l : list A) :
  (forall a b, P a -> P b -> R a b -> R' a b) ->
  Forall P l -> StronglySorted R l -> StronglySorted R' l.
Proof.
  intros Himp HP Hs. induction Hs as [|a l _ IH Hall]; constructor.
  - apply IH. now inversion HP.
  - inversion HP as [|? ? Pa Pl]; subst.
    rewrite Forall_forall in *. intros b Hb. apply Himp; auto.
Qed.

Lemma loc_mask_sorted {A : Type} (R : A -> A -> Prop) :
  forall (mask : list bool) (l : list A),
    StronglySorted R l -> StronglySorted R (loc_mask mask l).
Proof.
  induction mask as [|b mask IH]; intros [|x l] H; cbn [loc_mask]; try constructor.
  inversion H; subst. destruct b; [|now apply IH].
  constructor; [now apply IH|]. now apply loc_mask_Forall.
Qed.

(** What [sticky_membership] returns never goes back to an all-flat row. *)
Lemma sticky_body_zeros_first (score : nframe) (q_in q_out : Q) (mask : list bool) (n : nat) :
  Forall (fun r => length r = n) score ->
  zeros_first (sticky_body score q_in q_out mask).
Proof.
  intros Hw. unfold zeros_first, sticky_body.
  set (R := replace_zero_nan
              (sticky_loop q_in q_out (repeat 0%Z (ncols score)) (map rank_pct score) mask)).
  assert (HR : Forall (fun r => length r = n) R).
  { unfold R, replace_zero_nan. apply Forall_map.
    assert (Hl : Forall (fun r => length r = n)
                   (sticky_loop q_in q_out (repeat 0%Z (ncols score))
                      (map rank_pct score) mask)).
    { destruct score as [|r0 score]; [constructor|].
      apply sticky_loop_widths.
      - rewrite repeat_length. now inversion Hw.
      - apply Forall_map. eapply Forall_impl; [|exact Hw].
        cbn. intros r Hr. now rewrite rank_pct_length. }
    eapply Forall_impl; [|exact Hl]. cbn. intros r Hr. now rewrite length_map. }
  change (fillna 0%Z (ffill R)) with (map (map fill0) (ffill R)).
  apply StronglySorted_map.
  apply (StronglySorted_within no_zero_cell
           (fun F F' => all_none F' -> all_none F)).
  - intros a b Ha Hb Hab Hz. apply filled_zero_iff; [assumption|].
    apply Hab. now apply filled_zero_iff.
  - unfold ffill. apply ffill_from_no_zero.
    + unfold no_zero_cell. apply Forall_forall. intros c Hc.
      apply repeat_spec in Hc. subst. discriminate.
    + apply replace_zero_nan_no_zero.
  - unfold ffill. destruct R as [|r0 R'] eqn:ER; [constructor|].
    apply (ffill_from_sorted n); [|exact HR].
    rewrite repeat_length. now inversion HR.
Qed.

(** ** Target weights of an all-flat row *)

Lemma scale_row_zero (gross : Q) (r : mrow) : zero_row r -> all_none (scale_row gross r).
Proof.
  unfold zero_row, scale_row, all_none. intros ->. cbn.
  apply Forall_map, Forall_forall. reflexivity.
Qed.

Lemma nan_row_all_none {A : Type} (r : list A) : all_none (nan_row r).
Proof. unfold all_none, nan_row. apply Forall_map, Forall_forall. reflexivity. Qed.

Lemma where_rows_length (mask : list bool) (m : nframe) :
  length mask = length m -> length (where_rows mask m) = length m.
Proof. intros H. unfold where_rows. rewrite zipw_length. lia. Qed.

Lemma where_rows_widths (n : nat) :
  forall (mask : list bool) (m : nframe),
    Forall (fun r => length r = n) m -> Forall (fun r => length r = n) (where_rows mask m).
Proof.
  unfold where_rows.
  induction mask as [|b mask IH]; intros [|r m] H; cbn [zipw]; try constructor.
  - inversion H; subst. destruct b; [reflexivity|]. unfold nan_row. apply length_map.
  - inversion H; subst. now apply IH.
Qed.

(** While the membership rows are all-flat, nothing is carried forward. *)
Lemma flat_rows_carry_nothing (gross : Q) :
  forall (memb : mframe) (mask : list bool) (last : nrow) (t : nat),
    all_none last ->
    length mask = length memb ->
    zeros_first memb ->
    (t < length memb)%nat ->
    zero_row (nth t memb []) ->
    all_none (nth t (ffill_from last (where_rows mask (map (scale_row gross) memb))) []).
Proof.
  unfold zeros_first, where_rows.
  induction memb as [|r memb IH]; intros mask last t Hlast Hlen Hs Ht Hz;
    cbn [length] in Ht; [lia|].
  destruct mask as [|b mask]; [discriminate|].
  inversion Hs as [|? ? Hs' Hall]; subst.
  assert (Hr : zero_row r).
  { destruct t as [|t']; [exact Hz|]. cbn [nth] in Hz.
    rewrite Forall_forall in Hall. apply (Hall (nth t' memb [])); [|exact Hz].
    apply nth_In. lia. }
  assert (H0 : all_none (ffill_row last (if b then scale_row gross r
                                         else nan_row (scale_row gross r)))).
  { apply ffill_row_keeps_none; [exact Hlast|].
    destruct b; [now apply scale_row_zero | apply nan_row_all_none]. }
  cbn [map zipw ffill_from]. destruct t as [|t']; [exact H0|].
  cbn [nth]. apply IH; auto; cbn in *; lia.
Qed.

Lemma clip_zero (m : Q) : clip (- m) m 0 = 0.
Proof. apply clip_inside, sym_zero_inside. Qed.

Lemma target_weights_length (gross mw : Q) (memb : mframe) (mask : list bool) :
  length mask = length memb ->
  length (target_weights gross mw memb mask) = length memb.
Proof.
  intros H. unfold target_weights, ffill.
  rewrite length_map, fillna_length, ffill_from_length, where_rows_length;
    rewrite length_map; auto.
Qed.

Lemma scale_row_length (gross : Q) (r : mrow) : length (scale_row gross r) = length r.
Proof. unfold scale_row. apply length_map. Qed.

Lemma target_weights_widths (gross mw : Q) (memb : mframe) (mask : list bool) (n : nat) :
  Forall (fun r => length r = n) memb ->
  Forall (fun r => length r = n) (target_weights gross mw memb mask).
Proof.
  intros H. unfold target_weights. apply Forall_map.
  assert (H' : Forall (fun r => length r = n)
                 (fillna 0 (ffill (where_rows mask (map (scale_row gross) memb))))).
  { apply fillna_widths, ffill_widths, where_rows_widths, Forall_map.
    eapply Forall_impl; [|exact H]. cbn. intros r Hr. now rewrite scale_row_length. }
  eapply Forall_impl; [|exact H']. cbn. intros r Hr. now rewrite length_map.
Qed.

Lemma target_weights_flat_row (gross mw : Q) (memb : mframe) (mask : list bool) (t : nat) :
  length mask = length memb ->
  zeros_first memb ->
  (t < length memb)%nat ->
  zero_row (nth t memb []) ->
  Forall (fun x => x = 0) (nth t (target_weights gross mw memb mask) []).
Proof.
  intros Hlen Hs Ht Hz. unfold target_weights, fillna, ffill.
  set (F := ffill_from _ _).
  assert (HF : all_none (nth t F [])) by (apply flat_rows_carry_nothing; auto;
                                          apply nan_row_all_none || (unfold all_none;
                                          apply Forall_forall; intros c Hc;
                                          now apply repeat_spec in Hc)).
  assert (HlenF : (t < length F)%nat).
  { unfold F. rewrite ffill_from_length, where_rows_length; rewrite length_map; auto. }
  rewrite (nth_map_in _ []) by (rewrite length_map; exact HlenF).
  rewrite (nth_map_in _ []) by exact HlenF.
  rewrite map_map. apply Forall_map.
  eapply Forall_impl; [|exact HF]. cbn. intros c ->. apply clip_zero.
Qed.

(** ** What a successful run holds *)

Lemma sticky_membership_ok (score : nframe) (q_in q_out : Q) (um : list bool) (m : mframe) :
  sticky_membership score q_in q_out (Some um) = Ok m ->
  q_in <= q_out /\ score <> [] /\ m = sticky_body score q_in q_out um.
Proof.
  unfold sticky_membership.
  destruct (Qle_bool q_in q_out) eqn:E; cbn [negb]; [|discriminate].
  apply Qle_bool_iff in E.
  destruct score as [|r score]; [discriminate|].
  intros [= <-]. repeat split; auto. discriminate.
Qed.

Lemma backtest_rows_ok (ln : Q -> Q) (cfg : config) (rows : list wrow) (st : stages) :
  backtest_rows ln cfg rows = Ok st ->
  let idx := map ts rows in
  let um := cadence_mask cfg idx in
  let mask := session_mask cfg idx in
  q_in cfg <= q_out cfg /\ rows <> []
  /\ st_score st = score_of ln (signal cfg) (K cfg) (map px rows)
  /\ st_memb_full st = sticky_body (st_score st) (q_in cfg) (q_out cfg) um
  /\ st_memb st = loc_mask mask (st_memb_full st)
  /\ st_w_target st
     = target_weights (gross cfg) (max_w cfg) (st_memb st) (loc_mask mask um)
  /\ st_w_exec st
     = flatten_eod (loc_mask mask (eod_mask idx)) (execute cfg (st_w_target st)).
Proof.
  intros Hrun idx um mask. unfold backtest_rows in Hrun.
  destruct (sticky_membership _ _ _ _) as [memb_full|e] eqn:Em; cbn [bind] in Hrun;
    [|discriminate].
  apply sticky_membership_ok in Em. destruct Em as (Hq & Hne & ->).
  injection Hrun as <-. unfold assemble. cbn.
  repeat split; auto.
  intros ->. apply Hne. unfold score_of. destruct (signal cfg); reflexivity.
Qed.

Lemma backtest_rows_total (ln : Q -> Q) (cfg : config) (rows : list wrow) :
  q_in cfg <= q_out cfg -> rows <> [] -> exists st, backtest_rows ln cfg rows = Ok st.
Proof.
  intros Hq Hne. unfold backtest_rows, sticky_membership.
  rewrite (Qle_bool_true _ _ Hq). cbn [negb].
  destruct (score_of ln (signal cfg) (K cfg) (map px rows)) as [|r sc] eqn:E.
  - apply (f_equal (@length _)) in E. rewrite score_of_length, length_map in E.
    destruct rows; [congruence|discriminate].
  - cbn [bind]. eexists. reflexivity.
Qed.

Lemma session_lengths (ln : Q -> Q) (cfg : config) (rows : list wrow) (st : stages) :
  backtest_rows ln cfg rows = Ok st ->
  length (st_memb_full st) = length rows
  /\ length (st_memb st) = length (session_rows cfg rows)
  /\ length (loc_mask (session_mask cfg (map ts rows)) (cadence_mask cfg (map ts rows)))
     = length (st_memb st)
  /\ length (st_w_target st) = length (st_memb st).
Proof.
  intros Hrun. apply backtest_rows_ok in Hrun.
  destruct Hrun as (_ & _ & Hsc & Hmf & Hm & Hwt & _).
  assert (H1 : length (st_memb_full st) = length rows)
    by (rewrite Hmf, sticky_body_length, Hsc, score_of_length; apply length_map).
  assert (H3 : length (loc_mask (session_mask cfg (map ts rows))
                         (cadence_mask cfg (map ts rows)))
               = length (st_memb st)).
  { rewrite Hm. apply loc_mask_length.
    now rewrite cadence_mask_length, length_map. }
  repeat split; auto.
  - rewrite Hm. unfold session_rows. now apply loc_mask_length.
  - rewrite Hwt. now apply target_weights_length.
Qed.

(** C3. At every row whose absolute membership sum is zero, the target
    weight row is zero for every symbol, both in the sizing step of
    vector_backtest (lines 269-272, on the membership the run builds) and in
    size_positions, for every gross and max_w. *)
Theorem flat_row_zero_target :
  (forall (ln : Q -> Q) (cfg : config) (rows : list wrow) (st : stages) (n t : nat),
      Forall (fun r => length (px r) = n) rows ->
      backtest_rows ln cfg rows = Ok st ->
      (t < length (st_memb st))%nat ->
      zero_row (nth t (st_memb st) []) ->
      length (nth t (st_w_target st) []) = n
      /\ Forall (fun x => x = 0) (nth t (st_w_target st) []))
  /\ (forall (raw : nframe) (gross max_w : Q) (t : nat),
      (t < length raw)%nat ->
      abs_sum_skipna (nth t raw []) == 0 ->
      length (nth t (size_positions raw gross max_w) []) = length (nth t raw [])
      /\ Forall (fun x => x == 0) (nth t (size_positions raw gross max_w) [])).
Proof.
  split.
  - intros ln cfg rows st n t Hw Hrun Ht Hz.
    destruct (session_lengths ln cfg rows st Hrun) as (_ & _ & Hlm & Hlw).
    apply backtest_rows_ok in Hrun.
    destruct Hrun as (_ & _ & Hsc & Hmf & Hm & Hwt & _).
    assert (Hscw : Forall (fun r => length r = n) (st_score st)).
    { rewrite Hsc. apply score_of_widths. apply Forall_map.
      eapply Forall_impl; [|exact Hw]. auto. }
    assert (Hmw : Forall (fun r => length r = n) (st_memb st)).
    { rewrite Hm. apply loc_mask_Forall. rewrite Hmf. now apply sticky_body_widths. }
    assert (Hzf : zeros_first (st_memb st)).
    { rewrite Hm. apply loc_mask_sorted. rewrite Hmf.
      now apply (sticky_body_zeros_first _ _ _ _ n). }
    split.
    + apply (Forall_nth_len (fun r => length r = n)); [|lia].
      rewrite Hwt. now apply target_weights_widths.
    + rewrite Hwt. now apply target_weights_flat_row.
  - intros raw gross mw t Ht Hs.
    unfold size_positions, fillna.
    rewrite (nth_map_in _ []) by (rewrite !length_map; exact Ht).
    rewrite (nth_map_in _ []) by (rewrite !length_map; exact Ht).
    rewrite (nth_map_in _ []) by (rewrite !length_map; exact Ht).
    rewrite (nth_map_in _ []) by exact Ht.
    set (r := nth t raw []) in *.
    apply Qeq_bool_iff in Hs. rewrite Hs.
    assert (Hcap : map (fun c : option Q => match c with Some x => x | None => 0 end)
                     (map (option_map (clip (- mw) mw))
                        (map (fun c : option Q =>
                                match c with Some _ => None | None => None end) r))
                   = map (fun _ => 0) r).
    { rewrite !map_map. apply map_ext. intros [x|]; reflexivity. }
    rewrite Hcap. split.
    + now rewrite !length_map.
    + apply Forall_map, Forall_map, Forall_forall. intros c _. cbv beta. lra.
Qed.

Lemma flat_row_zero_target_witness :
  let cfg := mkConfig 1 1 10 0 0 Ratelimit 100 0 0 1 Momentum 1 (3 # 10) (55 # 100) in
  let rows := [mkWrow 34200 [Some 10; Some 20] [Some 10; Some 20];
               mkWrow 34260 [Some 11; Some 19] [Some 10; Some 20]] in
  (exists st, backtest_rows (fun x => x) cfg rows = Ok st
              /\ st_memb st = [[0; 0]; [0; 1]]%Z
              /\ length (nth 0 (st_w_target st) []) = 2%nat
              /\ Forall (fun x => x = 0) (nth 0 (st_w_target st) []))
  /\ Forall (fun x => x == 0) (nth 1 (size_positions [[Some 1]; [Some 0; None]] 2 (1 # 2)) []).
Proof.
  intros cfg rows. split.
  - eexists. split; [vm_compute; reflexivity|]. split; [reflexivity|].
    eapply (proj1 flat_row_zero_target (fun x => x) cfg rows).
    + repeat constructor.
    + vm_compute. reflexivity.
    + cbn. lia.
    + reflexivity.
  - apply (proj2 flat_row_zero_target [[Some 1]; [Some 0; None]] 2 (1 # 2) 1%nat).
    + cbn. lia.
    + reflexivity.
Defined.

(** ** Initial segments *)

Lemma prefix_of_app {A : Type} (p x : list A) : prefix_of p (p ++ x).
Proof. now exists x. Qed.

Lemma prefix_of_nil {A : Type} (l : list A) : prefix_of [] l.
Proof. now exists l. Qed.

Lemma prefix_of_cons {A : Type} (x : A) (p l : list A) :
  prefix_of p l -> prefix_of (x :: p) (x :: l).
Proof. intros [y ->]. now exists y. Qed.

Lemma prefix_of_cons_inv {A : Type} (x x' : A) (p l : list A) :
  prefix_of (x :: p) (x' :: l) -> x = x' /\ prefix_of p l.
Proof. intros [y H]. injection H as -> ->. split; [reflexivity|now exists y]. Qed.

Lemma prefix_of_firstn {A : Type} (p l : list A) :
  prefix_of p l -> firstn (length p) l = p.
Proof.
  intros [y ->]. rewrite firstn_app, Nat.sub_diag, firstn_all. cbn.
  now rewrite app_nil_r.
Qed.

Lemma prefix_of_map {A B : Type} (f : A -> B) (p l : list A) :
  prefix_of p l -> prefix_of (map f p) (map f l).
Proof. intros [y ->]. exists (map f y). apply map_app. Qed.

Lemma prefix_of_zipw {A B C : Type} (f : A -> B -> C) :
  forall (a a' : list A) (b b' : list B),
    prefix_of a a' -> prefix_of b b' -> length a = length b ->
    prefix_of (zipw f a b) (zipw f a' b').
Proof.
  induction a as [|x a IH]; intros a' b b' Ha Hb Hlen.
  - destruct b; [apply prefix_of_nil|discriminate].
  - destruct b as [|y b]; [discriminate|].
    destruct Ha as [xa ->], Hb as [xb ->]. cbn [app zipw].
    apply prefix_of_cons. apply IH; try apply prefix_of_app. cbn in Hlen. lia.
Qed.

Lemma prefix_of_loc_mask {A : Type} :
  forall (m m' : list bool) (r r' : list A),
    prefix_of m m' -> prefix_of r r' -> length m = length r ->
    prefix_of (loc_mask m r) (loc_mask m' r').
Proof.
  induction m as [|b m IH]; intros m' r r' Hm Hr Hlen.
  - apply prefix_of_nil.
  - destruct r as [|x r]; [discriminate|].
    destruct Hm as [xm ->], Hr as [xr ->]. cbn [app loc_mask].
    assert (IH' : prefix_of (loc_mask m r) (loc_mask (m ++ xm) (r ++ xr)))
      by (apply IH; try apply prefix_of_app; cbn in Hlen; lia).
    destruct b; [now apply prefix_of_cons|exact IH'].
Qed.

Lemma prefix_of_concat_out :
  forall (i i' : list Z) (g g' c c' n n' t t' : list Q),
    prefix_of i i' -> prefix_of g g' -> prefix_of c c' -> prefix_of n n' ->
    prefix_of t t' ->
    length g = length i -> length c = length i -> length n = length i ->
    length t = length i ->
    prefix_of (concat_out i g c n t) (concat_out i' g' c' n' t').
Proof.
  induction i as [|i0 i IH]; intros i' g g' c c' n n' t t' Hi Hg Hc Hn Ht Lg Lc Ln Lt.
  - apply prefix_of_nil.
  - destruct g as [|g0 g], c as [|c0 c], n as [|n0 n], t as [|t0 t]; try discriminate.
    destruct Hi as [xi ->], Hg as [xg ->], Hc as [xc ->], Hn as [xn ->], Ht as [xt ->].
    cbn [app concat_out]. apply prefix_of_cons.
    apply IH; try apply prefix_of_app; cbn in *; lia.
Qed.

Lemma ncols_prefix {A : Type} (p l : list (list A)) :
  prefix_of p l -> p <> [] -> ncols l = ncols p.
Proof. intros [y ->] Hne. destruct p; [congruence|reflexivity]. Qed.

(** ** Stages that only look back *)

Lemma diff_k_row_prefix (k : Z) (m x : nframe) (t : nat) (r : nrow) :
  (0 <= k)%Z -> (t < length m)%nat ->
  diff_k_row k (m ++ x) t r = diff_k_row k m t r.
Proof.
  intros Hk Ht. unfold diff_k_row.
  destruct (Z.of_nat t - k <? 0)%Z eqn:E; [reflexivity|].
  apply Z.ltb_ge in E.
  rewrite nth_error_app1 by lia. reflexivity.
Qed.

Lemma prefix_of_diff_k (k : Z) (m m' : nframe) :
  (0 <= k)%Z -> prefix_of m m' -> prefix_of (diff_k k m) (diff_k k m').
Proof.
  intros Hk [x ->]. unfold diff_k.
  rewrite length_app, seq_app.
  assert (Hc : combine (seq 0 (length m) ++ seq (0 + length m) (length x)) (m ++ x)
               = combine (seq 0 (length m)) m
                   ++ combine (seq (0 + length m) (length x)) x).
  { generalize (seq (0 + length m) (length x)) as sx.
    assert (Hl : length (seq 0 (length m)) = length m) by apply length_seq.
    revert Hl. generalize (seq 0 (length m)) as sm.
    induction m as [|r m IH]; intros [|i sm] Hl sx; cbn in *; try lia; auto.
    f_equal. apply IH. lia. }
  rewrite Hc, map_app.
  eexists. f_equal. apply map_ext_in. intros [t r] Hin. cbn [fst snd].
  apply diff_k_row_prefix; [assumption|].
  apply in_combine_l in Hin. apply in_seq in Hin. lia.
Qed.

Lemma prefix_of_score_of (ln : Q -> Q) (sig : signal_mode) (k : Z) (p p' : nframe) :
  (0 <= k)%Z -> prefix_of p p' ->
  prefix_of (score_of ln sig k p) (score_of ln sig k p').
Proof.
  intros Hk Hp. unfold score_of.
  assert (H : prefix_of (diff_k k (map (map (option_map ln)) p))
                        (diff_k k (map (map (option_map ln)) p')))
    by (apply prefix_of_diff_k; [assumption|now apply prefix_of_map]).
  destruct sig; [now apply prefix_of_map|exact H].
Qed.

Lemma cumcount_from_app : forall (d d' seen : list Z),
    cumcount_from seen (d ++ d') = cumcount_from seen d ++ cumcount_from (rev d ++ seen) d'.
Proof.
  induction d as [|x d IH]; intros d' seen; cbn [app cumcount_from rev]; [reflexivity|].
  rewrite IH, <- app_assoc. reflexivity.
Qed.

Lemma prefix_of_cadence_mask (cfg : config) (i i' : list Z) :
  prefix_of i i' -> prefix_of (cadence_mask cfg i) (cadence_mask cfg i').
Proof.
  intros [x ->]. unfold cadence_mask, cumcount.
  rewrite map_app, cumcount_from_app, map_app. apply prefix_of_app.
Qed.

Lemma prefix_of_sticky_loop (q_in q_out : Q) :
  forall (r r' : nframe) (m m' : list bool) (prev : mrow),
    prefix_of r r' -> prefix_of m m' -> length m = length r ->
    prefix_of (sticky_loop q_in q_out prev r m) (sticky_loop q_in q_out prev r' m').
Proof.
  induction r as [|x r IH]; intros r' m m' prev Hr Hm Hlen.
  - apply prefix_of_nil.
  - destruct m as [|b m]; [discriminate|].
    destruct Hr as [xr ->], Hm as [xm ->]. cbn [app sticky_loop tl].
    destruct b; apply prefix_of_cons; apply IH; try apply prefix_of_app;
      cbn in Hlen; lia.
Qed.

Lemma ffill_from_app {A : Type} :
  forall (m x : list (list (option A))) (last : list (option A)),
    prefix_of (ffill_from last m) (ffill_from last (m ++ x)).
Proof.
  induction m as [|r m IH]; intros x last; cbn [app ffill_from].
  - apply prefix_of_nil.
  - apply prefix_of_cons, IH.
Qed.

Lemma prefix_of_ffill {A : Type} (m m' : list (list (option A))) :
  prefix_of m m' -> prefix_of (ffill m) (ffill m').
Proof.
  intros H. destruct m as [|r m]; [apply prefix_of_nil|].
  unfold ffill. rewrite (ncols_prefix _ _ H) by discriminate.
  destruct H as [x ->]. apply ffill_from_app.
Qed.

Lemma prefix_of_fillna {A : Type} (d : A) (m m' : list (list (option A))) :
  prefix_of m m' -> prefix_of (fillna d m) (fillna d m').
Proof. apply prefix_of_map. Qed.

Lemma prefix_of_sticky_body (q_in q_out : Q) (s s' : nframe) (m m' : list bool) :
  prefix_of s s' -> prefix_of m m' -> length m = length s ->
  prefix_of (sticky_body s q_in q_out m) (sticky_body s' q_in q_out m').
Proof.
  intros Hs Hm Hlen. destruct s as [|r s].
  - unfold sticky_body at 1. cbn. apply prefix_of_nil.
  - unfold sticky_body. rewrite (ncols_prefix _ _ Hs) by discriminate.
    apply prefix_of_fillna, prefix_of_ffill. unfold replace_zero_nan.
    apply prefix_of_map, prefix_of_sticky_loop; auto.
    + now apply prefix_of_map.
    + now rewrite length_map.
Qed.

Lemma prefix_of_target_weights (gross mw : Q) (m m' : mframe) (u u' : list bool) :
  prefix_of m m' -> prefix_of u u' -> length u = length m ->
  prefix_of (target_weights gross mw m u) (target_weights gross mw m' u').
Proof.
  intros Hm Hu Hlen. unfold target_weights.
  apply prefix_of_map, prefix_of_fillna, prefix_of_ffill. unfold where_rows.
  apply prefix_of_zipw; auto.
  - now apply prefix_of_map.
  - now rewrite length_map.
Qed.

Lemma rate_limit_loop_app (step mw : Q) :
  forall (w x : frame) (prev : row),
    prefix_of (rate_limit_loop step mw prev w []) (rate_limit_loop step mw prev (w ++ x) []).
Proof.
  induction w as [|r w IH]; intros x prev.
  - apply prefix_of_nil.
  - cbn [app]. rewrite !rate_limit_loop_cons. apply prefix_of_cons, IH.
Qed.

Lemma prefix_of_rate_limit_time (step_bps mw : Q) (w w' : frame) :
  prefix_of w w' ->
  prefix_of (rate_limit_time w step_bps mw) (rate_limit_time w' step_bps mw).
Proof.
  intros H. destruct w as [|r w]; [apply prefix_of_nil|].
  unfold rate_limit_time. rewrite (ncols_prefix _ _ H) by discriminate.
  destruct H as [x ->]. apply rate_limit_loop_app.
Qed.

Lemma band_loop_app (band : Q) :
  forall (w x : frame) (prev : row),
    prefix_of (band_loop band prev w []) (band_loop band prev (w ++ x) []).
Proof.
  induction w as [|r w IH]; intros x prev.
  - apply prefix_of_nil.
  - cbn [app]. rewrite !band_loop_cons. apply prefix_of_cons, IH.
Qed.

Lemma prefix_of_apply_no_trade_band (band_bps : Q) (w w' : frame) :
  prefix_of w w' ->
  prefix_of (apply_no_trade_band w band_bps) (apply_no_trade_band w' band_bps).
Proof.
  intros H. destruct w as [|r w]; [apply prefix_of_nil|].
  unfold apply_no_trade_band. rewrite (ncols_prefix _ _ H) by discriminate.
  destruct H as [x ->]. apply band_loop_app.
Qed.

Lemma prefix_of_execute (cfg : config) (w w' : frame) :
  prefix_of w w' -> prefix_of (execute cfg w) (execute cfg w').
Proof.
  intros H. unfold execute. destruct (mode cfg).
  - apply prefix_of_rate_limit_time.
    destruct (Qlt_bool 0 (band_bps cfg)); [now apply prefix_of_apply_no_trade_band|exact H].
  - now apply prefix_of_apply_no_trade_band.
  - now apply prefix_of_map.
  - exact H.
Qed.

Lemma apply_no_trade_band_length (w : frame) (band_bps : Q) :
  length (apply_no_trade_band w band_bps) = length w.
Proof. apply band_loop_length. Qed.

Lemma rate_limit_time_length (w : frame) (step_bps mw : Q) :
  length (rate_limit_time w step_bps mw) = length w.
Proof. apply rate_limit_loop_length. Qed.

Lemma execute_length (cfg : config) (w : frame) : length (execute cfg w) = length w.
Proof.
  unfold execute. destruct (mode cfg).
  - rewrite rate_limit_time_length.
    destruct (Qlt_bool 0 (band_bps cfg)); [apply apply_no_trade_band_length|reflexivity].
  - apply apply_no_trade_band_length.
  - apply length_map.
  - reflexivity.
Qed.

Lemma prefix_of_removelast {A : Type} :
  forall (p l : list A), prefix_of p l -> prefix_of (removelast p) (removelast l).
Proof.
  induction p as [|a p IH]; intros l H; [apply prefix_of_nil|].
  destruct l as [|a' l]; [destruct H as [y H]; discriminate|].
  apply prefix_of_cons_inv in H. destruct H as [<- H].
  destruct p as [|b p]; [apply prefix_of_nil|].
  destruct l as [|b' l]; [destruct H as [y H]; discriminate|].
  change (removelast (a :: b :: p)) with (a :: removelast (b :: p)).
  change (removelast (a :: b' :: l)) with (a :: removelast (b' :: l)).
  apply prefix_of_cons. now apply IH.
Qed.

Lemma prefix_of_w_lag_of (w w' : frame) :
  prefix_of w w' -> prefix_of (w_lag_of w) (w_lag_of w').
Proof.
  intros H. unfold w_lag_of. apply prefix_of_fillna.
  destruct w as [|r w]; [apply prefix_of_nil|].
  destruct w' as [|r' w']; [destruct H as [y H]; discriminate|].
  pose proof (prefix_of_removelast _ _ H) as Hrl.
  apply prefix_of_cons_inv in H. destruct H as [<- H].
  unfold shift1. apply prefix_of_cons. now apply prefix_of_map.
Qed.

Lemma w_lag_of_length (w : frame) : length (w_lag_of w) = length w.
Proof.
  destruct w as [|r w]; [reflexivity|].
  rewrite w_lag_of_cons. cbn [length].
  rewrite removelast_firstn_len, length_firstn. cbn [length]. lia.
Qed.

Lemma diff_from_app : forall (m x : frame) (prev : row),
    prefix_of (diff_from prev m) (diff_from prev (m ++ x)).
Proof.
  induction m as [|r m IH]; intros x prev; [apply prefix_of_nil|].
  cbn [app diff_from]. apply prefix_of_cons, IH.
Qed.

Lemma prefix_of_df_diff (w w' : frame) : prefix_of w w' -> prefix_of (df_diff w) (df_diff w').
Proof.
  intros [x ->]. destruct w as [|r w]; [apply prefix_of_nil|].
  cbn [app df_diff]. apply prefix_of_cons, diff_from_app.
Qed.

Lemma prefix_of_abs_diff_sum (w w' : frame) :
  prefix_of w w' -> prefix_of (abs_diff_sum w) (abs_diff_sum w').
Proof.
  intros H. unfold abs_diff_sum, df_abs.
  now apply prefix_of_map, prefix_of_map, prefix_of_df_diff.
Qed.

Lemma prefix_of_costs (cost : Q) (w w' : frame) :
  prefix_of w w' ->
  prefix_of (costs_from_turnover w cost) (costs_from_turnover w' cost).
Proof.
  intros H. unfold costs_from_turnover, df_abs.
  now apply prefix_of_map, prefix_of_map, prefix_of_map, prefix_of_df_diff.
Qed.

Lemma costs_length (cost : Q) (w : frame) : length (costs_from_turnover w cost) = length w.
Proof.
  unfold costs_from_turnover, df_abs. now rewrite !length_map, df_diff_length.
Qed.

(** ** Row counts, without side conditions *)

Lemma loc_mask_kept {A : Type} :
  forall (mask : list bool) (l : list A), length (loc_mask mask l) = kept mask (length l).
Proof.
  unfold kept.
  induction mask as [|b mask IH]; intros [|x l]; cbn [loc_mask length firstn filter];
    try reflexivity.
  destruct b; cbn [length]; now rewrite IH.
Qed.

Lemma target_weights_rows (gross mw : Q) (memb : mframe) (mask : list bool) :
  length (target_weights gross mw memb mask) = Nat.min (length mask) (length memb).
Proof.
  unfold target_weights, ffill, where_rows.
  now rewrite length_map, fillna_length, ffill_from_length, zipw_length, length_map.
Qed.

Lemma flatten_eod_rows (e : list bool) (w : frame) :
  length (flatten_eod e w) = Nat.min (length e) (length w).
Proof. apply zipw_length. Qed.

Lemma pnl_gross_of_rows (wl : frame) (r : nframe) :
  length (pnl_gross_of wl r) = Nat.min (length wl) (length r).
Proof. unfold pnl_gross_of. now rewrite length_map, zipw_length. Qed.

Lemma eod_mask_length (idx : list Z) : length (eod_mask idx) = length idx.
Proof. apply length_map. Qed.

Lemma concat_out_length :
  forall (i : list Z) (g c n t : list Q),
    length g = length i -> length c = length i -> length n = length i ->
    length t = length i ->
    length (concat_out i g c n t) = length i.
Proof.
  induction i as [|i0 i IH]; intros [|g0 g] [|c0 c] [|n0 n] [|t0 t] Lg Lc Ln Lt;
    cbn in *; try lia.
  rewrite IH; lia.
Qed.

Lemma prefix_of_session_mask (cfg : config) (i i' : list Z) :
  prefix_of i i' -> prefix_of (session_mask cfg i) (session_mask cfg i').
Proof. apply prefix_of_map. Qed.

Lemma prefix_of_eod_mask (i i' : list Z) :
  prefix_of i i' -> prefix_of (eod_mask i) (eod_mask i').
Proof. apply prefix_of_map. Qed.

Lemma prefix_of_flatten_eod (e e' : list bool) (w w' : frame) :
  prefix_of e e' -> prefix_of w w' -> length e = length w ->
  prefix_of (flatten_eod e w) (flatten_eod e' w').
Proof. apply prefix_of_zipw. Qed.

Lemma prefix_of_pnl_gross_of (wl wl' : frame) (r r' : nframe) :
  prefix_of wl wl' -> prefix_of r r' -> length wl = length r ->
  prefix_of (pnl_gross_of wl r) (pnl_gross_of wl' r').
Proof. intros. unfold pnl_gross_of. now apply prefix_of_map, prefix_of_zipw. Qed.

(** From the membership on, the stages of the rows up to a bar are initial
    segments of the stages of any longer table. *)
Lemma assemble_prefix (cfg : config) (P X : list wrow) (score score' : nframe)
      (mf mf' : mframe) :
  prefix_of mf mf' -> length mf = length P ->
  let a := assemble cfg P score mf in
  let b := assemble cfg (P ++ X) score' mf' in
  prefix_of (st_memb a) (st_memb b)
  /\ prefix_of (st_w_target a) (st_w_target b)
  /\ prefix_of (st_w_exec a) (st_w_exec b)
  /\ prefix_of (st_rets_oc a) (st_rets_oc b)
  /\ prefix_of (st_out a) (st_out b).
Proof.
  intros Hmf Lmf a b. unfold a, b, assemble.
  cbn [st_memb st_w_target st_w_exec st_rets_oc st_out].
  repeat split;
    repeat first
      [ exact Hmf
      | apply prefix_of_app
      | apply prefix_of_session_mask
      | apply prefix_of_cadence_mask
      | apply prefix_of_eod_mask
      | apply prefix_of_target_weights
      | apply prefix_of_execute
      | apply prefix_of_flatten_eod
      | apply prefix_of_w_lag_of
      | apply prefix_of_pnl_gross_of
      | apply prefix_of_costs
      | apply prefix_of_abs_diff_sum
      | apply prefix_of_concat_out
      | apply prefix_of_loc_mask
      | apply prefix_of_zipw
      | apply prefix_of_map ];
    repeat (progress rewrite ?Nat.min_id, ?length_map, ?zipw_length, ?loc_mask_kept,
            ?fillna_length, ?score_of_length, ?sticky_body_length, ?cadence_mask_length,
            ?session_mask_length, ?eod_mask_length, ?execute_length, ?w_lag_of_length,
            ?costs_length, ?abs_diff_sum_length, ?target_weights_rows, ?flatten_eod_rows,
            ?pnl_gross_of_rows);
    rewrite ?Lmf; lia.
Qed.

Lemma backtest_rows_stages (ln : Q -> Q) (cfg : config) (rows : list wrow) (st : stages) :
  backtest_rows ln cfg rows = Ok st -> st = stages_of ln cfg rows.
Proof.
  unfold backtest_rows, stages_of. intros Hrun.
  destruct (sticky_membership _ _ _ _) as [memb_full|e] eqn:Em; cbn [bind] in Hrun;
    [|discriminate].
  apply sticky_membership_ok in Em. destruct Em as (_ & _ & ->).
  now injection Hrun as <-.
Qed.

(** Every stage of the rows up to a bar is an initial segment of the same
    stage of any longer table, provided the signal looks back (K >= 0). *)
Lemma stages_prefix (ln : Q -> Q) (cfg : config) (P X : list wrow) :
  (0 <= K cfg)%Z ->
  let a := stages_of ln cfg P in
  let b := stages_of ln cfg (P ++ X) in
  prefix_of (st_score a) (st_score b)
  /\ prefix_of (st_memb_full a) (st_memb_full b)
  /\ prefix_of (st_memb a) (st_memb b)
  /\ prefix_of (st_w_target a) (st_w_target b)
  /\ prefix_of (st_w_exec a) (st_w_exec b)
  /\ prefix_of (st_rets_oc a) (st_rets_oc b)
  /\ prefix_of (st_out a) (st_out b).
Proof.
  intros HK a b.
  assert (Hs : prefix_of (score_of ln (signal cfg) (K cfg) (map px P))
                         (score_of ln (signal cfg) (K cfg) (map px (P ++ X)))).
  { apply prefix_of_score_of; [exact HK|]. apply prefix_of_map, prefix_of_app. }
  assert (Hmf : prefix_of
                  (sticky_body (score_of ln (signal cfg) (K cfg) (map px P))
                     (q_in cfg) (q_out cfg) (cadence_mask cfg (map ts P)))
                  (sticky_body (score_of ln (signal cfg) (K cfg) (map px (P ++ X)))
                     (q_in cfg) (q_out cfg) (cadence_mask cfg (map ts (P ++ X))))).
  { apply prefix_of_sticky_body; [exact Hs| |].
    2: now rewrite cadence_mask_length, score_of_length, !length_map.
    apply prefix_of_cadence_mask, prefix_of_map, prefix_of_app. }
  split; [exact Hs|]. split; [exact Hmf|].
  apply assemble_prefix; [exact Hmf|].
  now rewrite sticky_body_length, score_of_length, length_map.
Qed.

Lemma concat_out_index :
  forall (i : list Z) (g c n t : list Q),
    length g = length i -> length c = length i -> length n = length i ->
    length t = length i ->
    map o_ts (concat_out i g c n t) = i.
Proof.
  induction i as [|i0 i IH]; intros [|g0 g] [|c0 c] [|n0 n] [|t0 t] Lg Lc Ln Lt;
    cbn in *; try lia; auto.
  rewrite IH; auto.
Qed.

(** Row counts of the stages: the full index for score and membership, the
    session bars for everything after the session mask. *)
Lemma stages_rows (ln : Q -> Q) (cfg : config) (rows : list wrow) :
  let a := stages_of ln cfg rows in
  let k := length (session_rows cfg rows) in
  length (st_score a) = length rows
  /\ length (st_memb_full a) = length rows
  /\ length (st_memb a) = k
  /\ length (st_w_target a) = k
  /\ length (st_w_exec a) = k
  /\ length (st_out a) = k
  /\ map o_ts (st_out a) = map ts (session_rows cfg rows).
Proof.
  intros a k. unfold a, k, stages_of, assemble, session_rows.
  cbn [st_score st_memb_full st_memb st_w_target st_w_exec st_out].
  repeat split.
  7: rewrite concat_out_index; [apply loc_mask_map| | | |].
  6: rewrite concat_out_length.
  all: repeat (progress rewrite ?Nat.min_id, ?length_map, ?zipw_length, ?loc_mask_kept,
              ?fillna_length, ?score_of_length, ?sticky_body_length,
              ?cadence_mask_length, ?session_mask_length, ?eod_mask_length,
              ?execute_length, ?w_lag_of_length, ?costs_length, ?abs_diff_sum_length,
              ?target_weights_rows, ?flatten_eod_rows, ?pnl_gross_of_rows);
    lia.
Qed.

(** Two runs whose wide tables agree on the rows up to a bar agree, on
    those rows, on every stage. *)
Lemma runs_agree_on_prefix :
  forall (ln : Q -> Q) (cfg : config) (P X1 X2 : list wrow) (s1 s2 : stages),
    (0 <= K cfg)%Z ->
    backtest_rows ln cfg (P ++ X1) = Ok s1 ->
    backtest_rows ln cfg (P ++ X2) = Ok s2 ->
    let n := length P in
    let k := length (session_rows cfg P) in
    firstn n (st_score s1) = firstn n (st_score s2)
    /\ firstn n (st_memb_full s1) = firstn n (st_memb_full s2)
    /\ firstn k (st_memb s1) = firstn k (st_memb s2)
    /\ firstn k (st_w_target s1) = firstn k (st_w_target s2)
    /\ firstn k (st_w_exec s1) = firstn k (st_w_exec s2)
    /\ firstn k (st_out s1) = firstn k (st_out s2)
    /\ map o_ts (firstn k (st_out s1)) = map ts (session_rows cfg P).
Proof.
  intros ln cfg P X1 X2 s1 s2 HK H1 H2 n k.
  apply backtest_rows_stages in H1, H2. subst s1 s2.
  destruct (stages_prefix ln cfg P X1 HK) as (A1 & B1 & C1 & D1 & E1 & _ & G1).
  destruct (stages_prefix ln cfg P X2 HK) as (A2 & B2 & C2 & D2 & E2 & _ & G2).
  destruct (stages_rows ln cfg P) as (La & Lb & Lc & Ld & Le & Lg & Hidx).
  apply prefix_of_firstn in A1, A2, B1, B2, C1, C2, D1, D2, E1, E2, G1, G2.
  rewrite La in A1, A2. rewrite Lb in B1, B2. rewrite Lc in C1, C2.
  rewrite Ld in D1, D2. rewrite Le in E1, E2. rewrite Lg in G1, G2.
  fold n in A1, A2, B1, B2. fold k in C1, C2, D1, D2, E1, E2, G1, G2.
  repeat split; congruence.
Qed.

Lemma gross_return_accounting_witness :
  let cfg := mkConfig 1 1 10 0 0 Ratelimit 100 0 0 1 Momentum 1 (3 # 10) (55 # 100) in
  let rows := [mkWrow 34200 [Some 10; Some 20] [Some 10; Some 20];
               mkWrow 34260 [Some 11; Some 19] [Some 10; Some 20];
               mkWrow 34320 [Some 12; None] [Some 11; None]] in
  exists st o b,
    backtest_rows (fun x => x) cfg rows = Ok st
    /\ nth_error (st_out st) 2 = Some o
    /\ nth_error (session_rows cfg rows) 2 = Some b
    /\ o_ts o = ts b
    /\ raw_ret o == gross_return (nth 1 (st_w_exec st) []) (px b) (op b)
    /\ net_ret o = raw_ret o - tc o.
Proof.
  intros cfg rows.
  destruct (backtest_rows (fun x => x) cfg rows) as [st|] eqn:Hrun;
    [|vm_compute in Hrun; discriminate].
  destruct (nth_error (st_out st) 2) as [o|] eqn:Ho.
  - destruct (nth_error (session_rows cfg rows) 2) as [b|] eqn:Hb;
      [|vm_compute in Hb; discriminate].
    exists st, o, b. split; [reflexivity|]. split; [exact Ho|]. split; [reflexivity|].
    exact (gross_return_accounting (fun x => x) cfg rows st Hrun 2 o b Ho Hb).
  - exfalso. apply backtest_rows_stages in Hrun. subst st.
    vm_compute in Ho. discriminate.
Defined.

(** ** Outcomes of a run *)

Lemma insert_uniq_nonempty {A : Type} (cmp : A -> A -> comparison) (x : A) (l : list A) :
  insert_uniq cmp x l <> [].
Proof.
  destruct l as [|y l]; cbn; [discriminate|].
  destruct (cmp x y); discriminate.
Qed.

Lemma sort_uniq_nonempty {A : Type} (cmp : A -> A -> comparison) (l : list A) :
  l <> [] -> sort_uniq cmp l <> [].
Proof.
  destruct l as [|x l]; [congruence|]. intros _. cbn. apply insert_uniq_nonempty.
Qed.

Lemma zip_rows_length :
  forall (idx : list Z) (p o : nframe),
    length p = length idx -> length o = length idx ->
    length (zip_rows idx p o) = length idx.
Proof.
  induction idx as [|t idx IH]; intros [|a p] [|b o] Hp Ho; cbn in *; try lia.
  rewrite IH; lia.
Qed.

Lemma to_wide_ok (df : list bar) (col : bar -> Q) :
  has_dup df = false ->
  exists w, to_wide df col = Ok w
            /\ index w = sort_uniq Z.compare (map datetime df)
            /\ length (values w) = length (index w).
Proof.
  intros H. unfold to_wide. rewrite H. eexists. split; [reflexivity|].
  cbn. split; [reflexivity|]. apply length_map.
Qed.

Lemma to_wide_dup (df : list bar) (col : bar -> Q) :
  has_dup df = true ->
  to_wide df col = Err (ValueError "Index contains duplicate entries, cannot reshape").
Proof. intros H. unfold to_wide. now rewrite H. Qed.

(** C9 (as amended). The outcome of a backtest is decided by three things
    only. A repeated (datetime, symbol) pair fails the reshaping with a
    ValueError, whatever the configuration. Otherwise, for a K that fits the
    64-bit integer diff(K) takes (outside that range diff raises an
    OverflowError, before sticky_membership is reached), q_out < q_in fails
    with the assertion of sticky_membership, which is reached after the
    reshaping and the scoring. Otherwise the run returns a result as soon
    as the table has a bar. The sign of K and the per-name cap are never
    checked. *)
Theorem configuration_validation :
  forall (ln : Q -> Q) (df : list bar) (cfg : config),
    (has_dup df = true ->
     vector_backtest ln df cfg
     = Err (ValueError "Index contains duplicate entries, cannot reshape"))
    /\ (has_dup df = false -> (- 2 ^ 63 <= K cfg < 2 ^ 63)%Z -> q_out cfg < q_in cfg ->
        vector_backtest ln df cfg = Err (AssertionError "q_out must be >= q_in"))
    /\ (has_dup df = false -> (- 2 ^ 63 <= K cfg < 2 ^ 63)%Z -> q_in cfg <= q_out cfg ->
        df <> [] ->
        exists out, vector_backtest ln df cfg = Ok out).
Proof.
  intros ln df cfg. repeat split.
  - intros Hd. unfold vector_backtest. now rewrite to_wide_dup.
  - intros Hd _ Hq. unfold vector_backtest.
    destruct (to_wide_ok df close Hd) as (wc & -> & _).
    destruct (to_wide_ok df open Hd) as (wo & -> & _). cbn [bind].
    unfold backtest_rows, sticky_membership.
    rewrite (Qle_bool_gt _ _ Hq). reflexivity.
  - intros Hd _ Hq Hne. unfold vector_backtest.
    destruct (to_wide_ok df close Hd) as (wc & Ec & Ic & Lc).
    destruct (to_wide_ok df open Hd) as (wo & Eo & Io & Lo).
    rewrite Ec, Eo. cbn [bind].
    destruct (backtest_rows_total ln cfg
                (zip_rows (index wc) (values wc) (values wo)) Hq) as [st ->].
    + intros E. apply (f_equal (@length _)) in E.
      rewrite zip_rows_length in E by congruence.
      apply (sort_uniq_nonempty Z.compare (map datetime df)).
      * destruct df; [congruence|discriminate].
      * rewrite <- Ic. now apply length_zero_iff_nil.
    + cbn [bind]. eexists. reflexivity.
Qed.

Lemma configuration_validation_witness :
  let df := [mkBar 34200 "A" 10 10; mkBar 34260 "A" 10 11] in
  let good := mkConfig 1 1 10 0 0 Ratelimit 100 0 0 1 Momentum 1 (3 # 10) (55 # 100) in
  let bad := mkConfig 1 1 10 0 0 Ratelimit 100 0 0 1 Momentum 1 (55 # 100) (3 # 10) in
  vector_backtest (fun x => x) (df ++ df) good
  = Err (ValueError "Index contains duplicate entries, cannot reshape")
  /\ vector_backtest (fun x => x) df bad = Err (AssertionError "q_out must be >= q_in")
  /\ (exists out, vector_backtest (fun x => x) df good = Ok out).
Proof.
  intros df good bad.
  split; [|split].
  - apply (proj1 (configuration_validation (fun x => x) (df ++ df) good)). reflexivity.
  - apply (proj1 (proj2 (configuration_validation (fun x => x) df bad)));
      [reflexivity|split; [apply Z.leb_le|apply Z.ltb_lt]; reflexivity|reflexivity].
  - apply (proj2 (proj2 (configuration_validation (fun x => x) df good))).
    + reflexivity.
    + split; [apply Z.leb_le|apply Z.ltb_lt]; reflexivity.
    + vm_compute. discriminate.
    + discriminate.
Defined.

(** C9, as stated, fails: a run with K = 0, a run with K = -1 and a run whose
    per-name cap (5) exceeds gross (1) all return a result, for every log;
    and a run with q_out < q_in on a table with a repeated bar fails in the
    reshaping, not in a validation that precedes it. *)
Lemma unvalidated_configurations_run :
  let df := [mkBar 34200 "A" 10 10; mkBar 34260 "A" 10 11; mkBar 34320 "A" 11 12] in
  let k_zero := mkConfig 1 1 10 0 0 Ratelimit 100 0 0 1 Momentum 0 (3 # 10) (55 # 100) in
  let k_neg := mkConfig 1 1 10 0 0 Ratelimit 100 0 0 1 Momentum (-1) (3 # 10) (55 # 100) in
  let cap := mkConfig 1 5 10 0 0 Ratelimit 100 0 0 1 Momentum 1 (3 # 10) (55 # 100) in
  let q_bad := mkConfig 1 1 10 0 0 Ratelimit 100 0 0 1 Momentum 1 (55 # 100) (3 # 10) in
  ((K k_zero <= 0)%Z /\ forall ln, is_ok (vector_backtest ln df k_zero) = true)
  /\ ((K k_neg <= 0)%Z /\ forall ln, is_ok (vector_backtest ln df k_neg) = true)
  /\ (gross cap < max_w cap /\ forall ln, is_ok (vector_backtest ln df cap) = true)
  /\ (q_out q_bad < q_in q_bad
      /\ forall ln, vector_backtest ln (df ++ df) q_bad
                    = Err (ValueError "Index contains duplicate entries, cannot reshape")).
Proof.
  cbv zeta. repeat split; try (intros ln; vm_compute; reflexivity);
    vm_compute; (reflexivity || discriminate).
Qed.

(** ** Sorted labels *)

Section SortUniqOrder.
Context {A : Type} (cmp : A -> A -> comparison).
Hypothesis cmp_eq : forall x y, cmp x y = Eq -> x = y.
Hypothesis cmp_gt : forall x y, cmp x y = Gt -> cmp y x = Lt.
Hypothesis cmp_trans : forall x y z, cmp x y = Lt -> cmp y z = Lt -> cmp x z = Lt.

Lemma insert_uniq_elem (x y : A) (l : list A) :
  In y (insert_uniq cmp x l) <-> y = x \/ In y l.
Proof.
  induction l as [|z l IH]; cbn [insert_uniq].
  - cbn [In]. intuition.
  - destruct (cmp x z) eqn:E.
    + apply cmp_eq in E. subst z. cbn [In]. intuition.
    + cbn [In]. intuition.
    + cbn [In]. rewrite IH. intuition.
Qed.

Lemma sort_uniq_elem (y : A) (l : list A) : In y (sort_uniq cmp l) <-> In y l.
Proof.
  induction l as [|x l IH]; cbn [sort_uniq fold_right]; [reflexivity|].
  fold (sort_uniq cmp l). rewrite insert_uniq_elem, IH. cbn [In]. intuition.
Qed.

Lemma insert_uniq_ordered (x : A) (l : list A) :
  StronglySorted (fun a b => cmp a b = Lt) l ->
  StronglySorted (fun a b => cmp a b = Lt) (insert_uniq cmp x l).
Proof.
  induction 1 as [|z l Hs IH Hz]; cbn [insert_uniq].
  - repeat constructor.
  - destruct (cmp x z) eqn:E.
    + now constructor.
    + constructor; [now constructor|].
      constructor; [exact E|].
      eapply Forall_impl; [|exact Hz]. cbn. intros a Ha. now apply (cmp_trans x z a).
    + constructor; [exact IH|].
      apply Forall_forall. intros a Ha. apply insert_uniq_elem in Ha as [->|Ha].
      * now apply cmp_gt.
      * rewrite Forall_forall in Hz. now apply Hz.
Qed.

Lemma sort_uniq_ordered (l : list A) :
  StronglySorted (fun a b => cmp a b = Lt) (sort_uniq cmp l).
Proof.
  induction l as [|x l IH]; cbn [sort_uniq fold_right]; [constructor|].
  now apply insert_uniq_ordered.
Qed.
End SortUniqOrder.

Lemma string_compare_gt (x y : string) : String.compare x y = Gt -> String.compare y x = Lt.
Proof. intros H. rewrite String.compare_antisym, H. reflexivity. Qed.

Lemma string_compare_trans (x y z : string) :
  String.compare x y = Lt -> String.compare y z = Lt -> String.compare x z = Lt.
Proof.
  intros H1 H2.
  apply OrderedTypeEx.String_as_OT.cmp_lt.
  apply OrderedTypeEx.String_as_OT.lt_trans with y;
    now apply OrderedTypeEx.String_as_OT.cmp_lt.
Qed.

Lemma string_compare_irrefl (x : string) : String.compare x x <> Lt.
Proof.
  intros H. pose proof (String.compare_antisym x x) as E. rewrite H in E. discriminate.
Qed.

Section SortedUnique.
Context {A : Type} (lt : A -> A -> Prop).
Hypothesis lt_irrefl : forall x, ~ lt x x.
Hypothesis lt_trans : forall x y z, lt x y -> lt y z -> lt x z.

Lemma sorted_same_elements (l1 : list A) :
  StronglySorted lt l1 ->
  forall l2 : list A,
    StronglySorted lt l2 -> (forall x, In x l1 <-> In x l2) -> l1 = l2.
Proof.
  induction 1 as [|a l1 Hs1 IH Ha]; intros l2 Hs2 Hin.
  - destruct l2 as [|b l2]; [reflexivity|].
    exfalso. apply (Hin b). now left.
  - destruct l2 as [|b l2]; [exfalso; apply (Hin a); now left|].
    inversion Hs2 as [|? ? Hs2' Hb]; subst.
    rewrite Forall_forall in Ha, Hb.
    assert (Hab : a = b).
    { destruct (proj1 (Hin a) (or_introl eq_refl)) as [E|Hal2]; [now symmetry|].
      destruct (proj2 (Hin b) (or_introl eq_refl)) as [E|Hbl1]; [exact E|].
      exfalso. apply (lt_irrefl a). apply lt_trans with b; auto. }
    subst b. f_equal. apply IH; [exact Hs2'|].
    intros x. split; intros Hx.
    + destruct (proj1 (Hin x) (or_intror Hx)) as [E|H]; [|exact H].
      subst x. exfalso. apply (lt_irrefl a). now apply Ha.
    + destruct (proj2 (Hin x) (or_intror Hx)) as [E|H]; [|exact H].
      subst x. exfalso. apply (lt_irrefl a). now apply Hb.
Qed.
End SortedUnique.

(** ** The wide tables of a long-form table *)

Lemma insert_uniq_in (x y : Z) (l : list Z) :
  In y (insert_uniq Z.compare x l) -> y = x \/ In y l.
Proof.
  induction l as [|z l IH]; cbn [insert_uniq]; intros H.
  - destruct H as [<-|[]]. now left.
  - destruct (Z.compare_spec x z).
    + now right.
    + destruct H as [<-|H]; [now left|now right].
    + destruct H as [<-|H]; [right; now left|].
      destruct (IH H) as [->|Hin]; [now left|right; now right].
Qed.

Lemma insert_uniq_sorted (x : Z) (l : list Z) :
  StronglySorted Z.lt l -> StronglySorted Z.lt (insert_uniq Z.compare x l).
Proof.
  induction 1 as [|z l Hs IH Hall]; cbn [insert_uniq].
  - repeat constructor.
  - destruct (Z.compare_spec x z) as [->|Hlt|Hgt].
    + now constructor.
    + constructor; [now constructor|].
      constructor; [exact Hlt|].
      eapply Forall_impl; [|exact Hall]. cbn. lia.
    + constructor; [exact IH|].
      apply Forall_forall. intros y Hy. apply insert_uniq_in in Hy.
      destruct Hy as [->|Hy]; [lia|]. rewrite Forall_forall in Hall. now apply Hall.
Qed.

Lemma sort_uniq_sorted (l : list Z) : StronglySorted Z.lt (sort_uniq Z.compare l).
Proof.
  induction l as [|x l IH]; cbn; [constructor|]. now apply insert_uniq_sorted.
Qed.

Lemma filter_above_nil (T : Z) (l : list Z) :
  Forall (fun y => (T < y)%Z) l -> filter (fun y => (y <=? T)%Z) l = [].
Proof.
  induction 1 as [|y l Hy _ IH]; cbn; [reflexivity|].
  destruct (Z.leb_spec y T); [lia|exact IH].
Qed.

Lemma filter_insert_uniq (T x : Z) (l : list Z) :
  StronglySorted Z.lt l ->
  filter (fun y => (y <=? T)%Z) (insert_uniq Z.compare x l)
  = if (x <=? T)%Z then insert_uniq Z.compare x (filter (fun y => (y <=? T)%Z) l)
    else filter (fun y => (y <=? T)%Z) l.
Proof.
  induction 1 as [|z l Hs IH Hall]; cbn [insert_uniq filter].
  - destruct (x <=? T)%Z; reflexivity.
  - destruct (Z.compare_spec x z) as [->|Hlt|Hgt]; cbn [filter].
    + destruct (Z.leb_spec z T); [|reflexivity].
      cbn [insert_uniq]. now rewrite Z.compare_refl.
    + destruct (Z.leb_spec x T), (Z.leb_spec z T); try lia; cbn [insert_uniq].
      * destruct (Z.compare_spec x z); try lia. reflexivity.
      * rewrite filter_above_nil; [reflexivity|].
        eapply Forall_impl; [|exact Hall]. cbn. lia.
      * reflexivity.
    + rewrite IH.
      destruct (Z.leb_spec x T), (Z.leb_spec z T); try lia; cbn [insert_uniq];
        try reflexivity.
      destruct (Z.compare_spec x z); try lia. reflexivity.
Qed.

Lemma filter_sort_uniq (T : Z) (l : list Z) :
  filter (fun y => (y <=? T)%Z) (sort_uniq Z.compare l)
  = sort_uniq Z.compare (filter (fun y => (y <=? T)%Z) l).
Proof.
  induction l as [|x l IH]; [reflexivity|].
  change (sort_uniq Z.compare (x :: l))
    with (insert_uniq Z.compare x (sort_uniq Z.compare l)).
  rewrite filter_insert_uniq by apply sort_uniq_sorted.
  cbn [filter]. destruct (x <=? T)%Z; rewrite IH; reflexivity.
Qed.

(** A sorted index splits at any instant into the part up to it and the part
    after it. *)
Lemma sorted_split (T : Z) (l : list Z) :
  StronglySorted Z.lt l ->
  l = filter (fun y => (y <=? T)%Z) l ++ filter (fun y => negb (y <=? T)%Z) l.
Proof.
  induction 1 as [|z l Hs IH Hall]; [reflexivity|]. cbn [filter].
  destruct (Z.leb_spec z T); cbn [negb app].
  - now rewrite <- IH.
  - rewrite filter_above_nil by (eapply Forall_impl; [|exact Hall]; cbn; lia).
    cbn [app]. f_equal.
    rewrite IH at 1.
    rewrite filter_above_nil by (eapply Forall_impl; [|exact Hall]; cbn; lia).
    reflexivity.
Qed.

Lemma find_upto (T t : Z) (s : string) (df : list bar) :
  (t <= T)%Z -> find (same_key t s) (upto T df) = find (same_key t s) df.
Proof.
  intros Ht. unfold upto. induction df as [|b df IH]; [reflexivity|].
  cbn [filter find]. destruct (Z.leb_spec (datetime b) T).
  - cbn [find]. now rewrite IH.
  - rewrite IH. unfold same_key.
    destruct (Z.eqb_spec (datetime b) t); [lia|reflexivity].
Qed.

Lemma wide_row_upto (T t : Z) (cols : list string) (df : list bar) :
  (t <= T)%Z -> wide_row (upto T df) cols t = wide_row df cols t.
Proof.
  intros Ht. unfold wide_row. f_equal; apply map_ext; intros s;
    now rewrite find_upto.
Qed.

Lemma zip_rows_wide (df : list bar) (cols : list string) (idx : list Z) :
  zip_rows idx
    (map (fun t => map (fun s => option_map close (find (same_key t s) df)) cols) idx)
    (map (fun t => map (fun s => option_map open (find (same_key t s) df)) cols) idx)
  = map (wide_row df cols) idx.
Proof. induction idx as [|t idx IH]; cbn; [reflexivity|]. now rewrite IH. Qed.

Lemma vector_backtest_rows (ln : Q -> Q) (df : list bar) (cfg : config) :
  has_dup df = false ->
  vector_backtest ln df cfg
  = bind (backtest_rows ln cfg
            (map (wide_row df (sort_uniq String.compare (map symbol df)))
                 (sort_uniq Z.compare (map datetime df))))
         (fun st => Ok (st_out st)).
Proof.
  intros H. unfold vector_backtest, to_wide. rewrite H. cbn [bind index values].
  now rewrite zip_rows_wide.
Qed.

Lemma loc_mask_app {A : Type} :
  forall (m m' : list bool) (l l' : list A),
    length m = length l ->
    loc_mask (m ++ m') (l ++ l') = loc_mask m l ++ loc_mask m' l'.
Proof.
  induction m as [|b m IH]; intros m' [|x l] l' H; cbn in *; try lia; auto.
  destruct b; cbn; rewrite IH by lia; reflexivity.
Qed.

Lemma session_rows_app (cfg : config) (P X : list wrow) :
  session_rows cfg (P ++ X) = session_rows cfg P ++ session_rows cfg X.
Proof.
  unfold session_rows, session_mask. rewrite !map_app.
  apply loc_mask_app. now rewrite !length_map.
Qed.

Lemma filter_all {A : Type} (p : A -> bool) (l : list A) :
  Forall (fun x => p x = true) l -> filter p l = l.
Proof. induction 1 as [|x l Hx _ IH]; cbn; [reflexivity|]. now rewrite Hx, IH. Qed.

Lemma filter_none {A : Type} (p : A -> bool) (l : list A) :
  Forall (fun x => p x = false) l -> filter p l = [].
Proof. induction 1 as [|x l Hx _ IH]; cbn; [reflexivity|]. now rewrite Hx. Qed.

Lemma filter_map_comm {A B : Type} (f : A -> B) (p : B -> bool) (l : list A) :
  filter p (map f l) = map f (filter (fun x => p (f x)) l).
Proof.
  induction l as [|x l IH]; cbn; [reflexivity|].
  destruct (p (f x)); cbn; now rewrite IH.
Qed.

(** The output rows up to the instant [T] are the output of the rows up to
    [T] alone. *)
Lemma out_upto (ln : Q -> Q) (cfg : config) (P X : list wrow) (T : Z) :
  (0 <= K cfg)%Z ->
  Forall (fun r => (ts r <= T)%Z) P ->
  Forall (fun r => (T < ts r)%Z) X ->
  filter (fun o => (o_ts o <=? T)%Z) (st_out (stages_of ln cfg (P ++ X)))
  = st_out (stages_of ln cfg P).
Proof.
  intros HK HP HX.
  destruct (stages_prefix ln cfg P X HK) as (_ & _ & _ & _ & _ & _ & [Y HY]).
  destruct (stages_rows ln cfg P) as (_ & _ & _ & _ & _ & _ & HiP).
  destruct (stages_rows ln cfg (P ++ X)) as (_ & _ & _ & _ & _ & _ & HiPX).
  rewrite HY, map_app, HiP, session_rows_app, map_app in HiPX.
  apply app_inv_head in HiPX.
  rewrite HY, filter_app.
  rewrite filter_all, filter_none; [apply app_nil_r| |].
  - apply Forall_map with (f := o_ts) (P := fun t => (t <=? T)%Z = false).
    rewrite HiPX. apply Forall_map. apply loc_mask_Forall.
    eapply Forall_impl; [|exact HX]. cbn. intros r Hr. apply Z.leb_gt. exact Hr.
  - apply Forall_map with (f := o_ts) (P := fun t => (t <=? T)%Z = true).
    rewrite HiP. apply Forall_map. apply loc_mask_Forall.
    eapply Forall_impl; [|exact HP]. cbn. intros r Hr. apply Z.leb_le. exact Hr.
Qed.

(** The wide rows of a table are those of its bars up to [T], followed by
    rows stamped after [T]. *)
Lemma wide_rows_split (T : Z) (df : list bar) (cols : list string) :
  exists X,
    map (wide_row df cols) (sort_uniq Z.compare (map datetime df))
    = map (wide_row (upto T df) cols) (sort_uniq Z.compare (map datetime (upto T df)))
        ++ X
    /\ Forall (fun r => (ts r <= T)%Z)
         (map (wide_row (upto T df) cols)
              (sort_uniq Z.compare (map datetime (upto T df))))
    /\ Forall (fun r => (T < ts r)%Z) X.
Proof.
  set (I := sort_uniq Z.compare (map datetime df)).
  assert (Hlow : filter (fun y => (y <=? T)%Z) I
                 = sort_uniq Z.compare (map datetime (upto T df))).
  { unfold I, upto. rewrite filter_sort_uniq, filter_map_comm. reflexivity. }
  exists (map (wide_row df cols) (filter (fun y => negb (y <=? T)%Z) I)).
  rewrite <- Hlow. split; [|split].
  - rewrite (sorted_split T I) at 1 by apply sort_uniq_sorted.
    rewrite map_app. f_equal. apply map_ext_in. intros t Ht.
    apply filter_In in Ht. destruct Ht as [_ Ht]. apply Z.leb_le in Ht.
    symmetry. now apply wide_row_upto.
  - apply Forall_map, Forall_forall. intros t Ht.
    apply filter_In in Ht. destruct Ht as [_ Ht]. apply Z.leb_le in Ht. exact Ht.
  - apply Forall_map, Forall_forall. intros t Ht.
    apply filter_In in Ht. destruct Ht as [_ Ht].
    apply negb_true_iff, Z.leb_gt in Ht. exact Ht.
Qed.

Lemma vector_backtest_ok (ln : Q -> Q) (df : list bar) (cfg : config) (out : list out_row) :
  vector_backtest ln df cfg = Ok out ->
  out = st_out (stages_of ln cfg
                  (map (wide_row df (sort_uniq String.compare (map symbol df)))
                       (sort_uniq Z.compare (map datetime df)))).
Proof.
  intros H. destruct (has_dup df) eqn:Hd.
  - unfold vector_backtest in H. rewrite to_wide_dup in H by exact Hd. discriminate.
  - rewrite vector_backtest_rows in H by exact Hd.
    destruct (backtest_rows _ _ _) as [st|e] eqn:Hrun; cbn [bind] in H; [|discriminate].
    apply backtest_rows_stages in Hrun. subst st. now injection H as <-.
Qed.

(** ** Columns without bars *)

Lemma widened_map {A B : Type} (P : A -> Prop) (P' : B -> Prop) (f : A -> B)
      (pat : list bool) (r r' : list A) :
  (forall z, P z -> P' (f z)) ->
  widened P pat r r' -> widened P' pat (map f r) (map f r').
Proof. intros H. induction 1; cbn [map]; constructor; auto. Qed.

Lemma widened_zipw {A B C : Type} (P : A -> Prop) (P' : B -> Prop) (R : C -> Prop)
      (f : A -> B -> C) :
  (forall x y, P x -> P' y -> R (f x y)) ->
  forall (pat : list bool) (a a' : list A) (b b' : list B),
    widened P pat a a' -> widened P' pat b b' ->
    widened R pat (zipw f a b) (zipw f a' b').
Proof.
  intros H pat a a' b b' Ha. revert b b'.
  induction Ha; intros b b' Hb; inversion Hb; subst; cbn [zipw]; constructor; auto.
Qed.

Lemma widened_repeat {A B : Type} (P : A -> Prop) (P' : B -> Prop) (d : B)
      (pat : list bool) (r r' : list A) :
  P' d -> widened P pat r r' -> widened P' pat (repeat d (length r)) (repeat d (length r')).
Proof. intros H. induction 1; cbn [length repeat]; constructor; auto. Qed.

Lemma Forall2_map_both {A B A' B' : Type} (R : A -> B -> Prop) (R' : A' -> B' -> Prop)
      (f : A -> A') (g : B -> B') (l : list A) (l' : list B) :
  (forall x y, R x y -> R' (f x) (g y)) ->
  Forall2 R l l' -> Forall2 R' (map f l) (map g l').
Proof. intros H. induction 1; cbn [map]; constructor; auto. Qed.

Lemma Forall2_zipw_mask {M A B A' B' : Type} (R : A -> B -> Prop) (R' : A' -> B' -> Prop)
      (f : M -> A -> A') (g : M -> B -> B') :
  (forall b x y, R x y -> R' (f b x) (g b y)) ->
  forall (mk : list M) (l : list A) (l' : list B),
    Forall2 R l l' -> Forall2 R' (zipw f mk l) (zipw g mk l').
Proof.
  intros H mk l l' HF. revert mk.
  induction HF; intros [|b mk]; cbn [zipw]; constructor; auto.
Qed.

Lemma Forall2_zipw_both {A B C A' B' C' : Type} (R : A -> A' -> Prop) (S : B -> B' -> Prop)
      (T : C -> C' -> Prop) (f : A -> B -> C) (g : A' -> B' -> C') :
  (forall x x' y y', R x x' -> S y y' -> T (f x y) (g x' y')) ->
  forall (a : list A) (a' : list A') (b : list B) (b' : list B'),
    Forall2 R a a' -> Forall2 S b b' -> Forall2 T (zipw f a b) (zipw g a' b').
Proof.
  intros H a a' b b' Ha. revert b b'.
  induction Ha; intros b b' Hb; destruct Hb; cbn [zipw]; constructor; auto.
Qed.

Lemma Forall2_loc_mask {A B : Type} (R : A -> B -> Prop) :
  forall (mk : list bool) (l : list A) (l' : list B),
    Forall2 R l l' -> Forall2 R (loc_mask mk l) (loc_mask mk l').
Proof.
  intros mk l l' HF. revert mk.
  induction HF; intros [|b mk]; cbn [loc_mask]; try constructor.
  destruct b; [constructor|]; auto.
Qed.

Lemma Forall2_removelast {A B : Type} (R : A -> B -> Prop) (l : list A) (l' : list B) :
  Forall2 R l l' -> Forall2 R (removelast l) (removelast l').
Proof.
  induction 1 as [|x y l l' Hxy HF IH]; [constructor|].
  destruct HF as [|x2 y2 l l' H2 HF]; [constructor|].
  change (removelast (x :: x2 :: l)) with (x :: removelast (x2 :: l)).
  change (removelast (y :: y2 :: l')) with (y :: removelast (y2 :: l')).
  constructor; assumption.
Qed.

Lemma Forall2_nth_error {A B : Type} (R : A -> B -> Prop) (l : list A) (l' : list B) :
  Forall2 R l l' ->
  forall j, match nth_error l j, nth_error l' j with
            | Some a, Some b => R a b
            | None, None => True
            | _, _ => False
            end.
Proof.
  induction 1 as [|x y l l' Hxy HF IH]; intros [|j]; cbn [nth_error];
    [exact I|exact I|exact Hxy|apply IH].
Qed.

Lemma widened_diff_k (pat : list bool) (k : Z) (m m' : nframe) :
  Forall2 (widened is_nan pat) m m' ->
  Forall2 (widened is_nan pat) (diff_k k m) (diff_k k m').
Proof.
  intros HF. unfold diff_k.
  assert (G : forall (l l' : nframe), Forall2 (widened is_nan pat) l l' ->
              forall i,
                Forall2 (widened is_nan pat)
                  (map (fun tr => diff_k_row k m (fst tr) (snd tr))
                       (combine (seq i (length l)) l))
                  (map (fun tr => diff_k_row k m' (fst tr) (snd tr))
                       (combine (seq i (length l')) l'))).
  { induction 1 as [|r r' l l' Hr Hl IH]; intros i; cbn [length seq combine map];
      constructor; [|apply IH].
    cbn [fst snd]. unfold diff_k_row.
    destruct (Z.of_nat i - k <? 0)%Z.
    - unfold nan_row. eapply widened_map; [|exact Hr]. intros; reflexivity.
    - pose proof (Forall2_nth_error _ _ _ HF (Z.to_nat (Z.of_nat i - k))) as Hn.
      destruct (nth_error m _) as [old|], (nth_error m' _) as [old'|]; try contradiction.
      + eapply widened_zipw; [|exact Hr|exact Hn].
        intros x y -> _. reflexivity.
      + unfold nan_row. eapply widened_map; [|exact Hr]. intros; reflexivity. }
  apply G, HF.
Qed.

Lemma widened_score_of (ln : Q -> Q) (sig : signal_mode) (k : Z) (pat : list bool)
      (p p' : nframe) :
  Forall2 (widened is_nan pat) p p' ->
  Forall2 (widened is_nan pat) (score_of ln sig k p) (score_of ln sig k p').
Proof.
  intros HF. unfold score_of.
  assert (H : Forall2 (widened is_nan pat)
                (diff_k k (map (map (option_map ln)) p))
                (diff_k k (map (map (option_map ln)) p'))).
  { apply widened_diff_k. eapply Forall2_map_both; [|exact HF].
    intros r r' Hr. eapply widened_map; [|exact Hr]. intros z ->. reflexivity. }
  destruct sig; [|exact H].
  eapply Forall2_map_both; [|exact H].
  intros r r' Hr. eapply widened_map; [|exact Hr]. intros z ->. reflexivity.
Qed.

Lemma widened_count_if (p : Q -> bool) (pat : list bool) (r r' : nrow) :
  widened is_nan pat r r' -> count_if p r' = count_if p r.
Proof.
  unfold count_if.
  induction 1 as [|x pat r r' H IH|z pat r r' Hz H IH]; cbn [filter]; [reflexivity| |].
  - destruct x as [v|]; [destruct (p v)|]; cbn [length]; congruence.
  - rewrite Hz. exact IH.
Qed.

Lemma widened_count_valid (pat : list bool) (r r' : nrow) :
  widened is_nan pat r r' -> count_valid r' = count_valid r.
Proof.
  unfold count_valid.
  induction 1 as [|x pat r r' H IH|z pat r r' Hz H IH]; cbn [filter]; [reflexivity| |].
  - destruct x as [v|]; cbn [is_some length]; congruence.
  - rewrite Hz. exact IH.
Qed.

Lemma widened_rank_cells (n : nat) (pat : list bool) (rest rest' : nrow) :
  widened is_nan pat rest rest' ->
  forall before before' : nrow,
    (forall p, count_if p before' = count_if p before) ->
    widened is_nan pat (rank_cells n before rest) (rank_cells n before' rest').
Proof.
  induction 1 as [|x pat r r' H IH|z pat r r' Hz H IH]; intros before before' Hb.
  - constructor.
  - destruct x as [v|]; cbn [rank_cells].
    + unfold rank_first. rewrite Hb, (widened_count_if _ _ _ _ H).
      constructor. apply IH. intros p. unfold count_if in *. cbn [filter].
      destruct (p v); cbn [length]; now rewrite Hb.
    + constructor. apply IH. intros p. unfold count_if in *. cbn [filter]. apply Hb.
  - rewrite Hz. cbn [rank_cells]. constructor; [reflexivity|].
    apply IH. intros p. unfold count_if in *. cbn [filter]. apply Hb.
Qed.

Lemma widened_rank_pct (pat : list bool) (r r' : nrow) :
  widened is_nan pat r r' -> widened is_nan pat (rank_pct r) (rank_pct r').
Proof.
  intros H. unfold rank_pct. rewrite (widened_count_valid _ _ _ H).
  now apply widened_rank_cells.
Qed.

Lemma widened_sticky_loop (q_in q_out : Q) (pat : list bool) (ranks ranks' : nframe) :
  Forall2 (widened is_nan pat) ranks ranks' ->
  forall (mask : list bool) (prev prev' : mrow),
    widened (fun z => z = 0%Z) pat prev prev' ->
    Forall2 (widened (fun z => z = 0%Z) pat)
      (sticky_loop q_in q_out prev ranks mask) (sticky_loop q_in q_out prev' ranks' mask).
Proof.
  induction 1 as [|r r' l l' Hr Hl IH]; intros mask prev prev' Hp; cbn [sticky_loop];
    [constructor|].
  destruct (match mask with b :: _ => b | [] => false end).
  - assert (Hc : widened (fun z => z = 0%Z) pat
                   (zipw (sticky_cell q_in q_out) prev r)
                   (zipw (sticky_cell q_in q_out) prev' r')).
    { eapply widened_zipw; [|exact Hp|exact Hr]. intros x y -> ->. reflexivity. }
    constructor; [exact Hc|]. now apply IH.
  - constructor; [|now apply IH].
    eapply widened_map; [|exact Hr]. intros; reflexivity.
Qed.

Lemma widened_ffill_from {A : Type} (P : option A -> Prop) (pat : list bool)
      (m m' : list (list (option A))) :
  Forall2 (widened P pat) m m' ->
  forall last last' : list (option A),
    widened P pat last last' ->
    Forall2 (widened P pat) (ffill_from last m) (ffill_from last' m').
Proof.
  induction 1 as [|r r' l l' Hr Hl IH]; intros last last' Hlast; cbn [ffill_from];
    [constructor|].
  assert (Hc : widened P pat (ffill_row last r) (ffill_row last' r')).
  { unfold ffill_row. eapply widened_zipw; [|exact Hlast|exact Hr].
    intros x y Hx Hy. destruct y; assumption. }
  constructor; [exact Hc|]. now apply IH.
Qed.

Lemma widened_ffill {A : Type} (P : option A -> Prop) (pat : list bool)
      (m m' : list (list (option A))) :
  P None -> Forall2 (widened P pat) m m' -> Forall2 (widened P pat) (ffill m) (ffill m').
Proof.
  intros HP HF. unfold ffill.
  destruct HF as [|r r' l l' Hr Hl]; [constructor|].
  apply widened_ffill_from; [now constructor|].
  cbn [ncols]. eapply widened_repeat; [exact HP|exact Hr].
Qed.

Lemma widened_sticky_body (q_in q_out : Q) (pat : list bool) (score score' : nframe)
      (mask : list bool) :
  Forall2 (widened is_nan pat) score score' ->
  Forall2 (widened (fun z => z = 0%Z) pat)
    (sticky_body score q_in q_out mask) (sticky_body score' q_in q_out mask).
Proof.
  intros HF. unfold sticky_body, fillna.
  eapply Forall2_map_both with (R := widened is_nan pat).
  { intros r r' Hr. eapply widened_map; [|exact Hr]. intros z ->. reflexivity. }
  apply widened_ffill; [reflexivity|].
  unfold replace_zero_nan.
  eapply Forall2_map_both with (R := widened (fun z => z = 0%Z) pat).
  { intros r r' Hr. eapply widened_map; [|exact Hr]. intros z ->. reflexivity. }
  destruct HF as [|r r' l l' Hr Hl]; [constructor|].
  apply widened_sticky_loop.
  - eapply Forall2_map_both with (R := widened is_nan pat); [|now constructor].
    intros x x'. apply widened_rank_pct.
  - cbn [ncols]. eapply widened_repeat; [reflexivity|exact Hr].
Qed.

Lemma widened_abs_sum_Z (pat : list bool) (r r' : mrow) :
  widened (fun z => z = 0%Z) pat r r' -> abs_sum_Z r' = abs_sum_Z r.
Proof.
  induction 1 as [|x pat r r' H IH|z pat r r' Hz H IH]; cbn [abs_sum_Z fold_right];
    [reflexivity| |].
  - fold (abs_sum_Z r) (abs_sum_Z r'). now rewrite IH.
  - fold (abs_sum_Z r'). rewrite Hz, IH. reflexivity.
Qed.

Lemma widened_scale_row (gross : Q) (pat : list bool) (r r' : mrow) :
  widened (fun z => z = 0%Z) pat r r' ->
  widened nan_or_zero pat (scale_row gross r) (scale_row gross r').
Proof.
  intros H. unfold scale_row. rewrite (widened_abs_sum_Z _ _ _ H).
  eapply widened_map; [|exact H]. intros z ->.
  destruct (abs_sum_Z r =? 0)%Z; cbn [nan_or_zero]; [exact I|].
  unfold Qdiv. change (inject_Z 0) with 0. ring.
Qed.

Lemma widened_target_weights (gross mw : Q) (pat : list bool) (memb memb' : mframe)
      (mask : list bool) :
  Forall2 (widened (fun z => z = 0%Z) pat) memb memb' ->
  Forall2 (widened (fun x => x == 0) pat)
    (target_weights gross mw memb mask) (target_weights gross mw memb' mask).
Proof.
  intros HF. unfold target_weights, fillna.
  eapply Forall2_map_both with (R := widened (fun x => x == 0) pat).
  { intros r r' Hr. eapply widened_map; [|exact Hr]. intros z. apply clip_sym_zero. }
  eapply Forall2_map_both with (R := widened nan_or_zero pat).
  { intros r r' Hr. eapply widened_map; [|exact Hr].
    intros [z|] Hz; [exact Hz|reflexivity]. }
  apply widened_ffill; [exact I|]. unfold where_rows.
  apply Forall2_zipw_mask with (R := widened nan_or_zero pat).
  { intros b r r' Hr. destruct b; [exact Hr|].
    eapply widened_map; [|exact Hr]. intros; exact I. }
  eapply Forall2_map_both; [|exact HF]. intros r r'. apply widened_scale_row.
Qed.

Lemma widened_zeros {A : Type} (P : A -> Prop) (pat : list bool) (m m' : list (list A)) :
  Forall2 (widened P pat) m m' -> m <> [] ->
  widened (fun x => x == 0) pat (zeros (ncols m)) (zeros (ncols m')).
Proof.
  intros [|r r' l l' Hr Hl] Hne; [congruence|]. cbn [ncols]. unfold zeros.
  eapply widened_repeat; [reflexivity|exact Hr].
Qed.

Lemma widened_rate_limit_step (step mw : Q) (pat : list bool) (prev prev' t t' : row) :
  widened (fun x => x == 0) pat prev prev' ->
  widened (fun x => x == 0) pat t t' ->
  widened (fun x => x == 0) pat
    (rate_limit_step step mw prev t) (rate_limit_step step mw prev' t').
Proof.
  intros Hp Ht. unfold rate_limit_step.
  eapply widened_map; [intros z; apply clip_sym_zero|].
  eapply widened_zipw with (P := fun x => x == 0) (P' := fun x => x == 0);
    [intros x y Hx Hy; rewrite Hx, Hy; reflexivity|exact Hp|].
  eapply widened_map; [intros z; apply clip_sym_zero|].
  eapply widened_zipw with (P := fun x => x == 0) (P' := fun x => x == 0);
    [intros x y Hx Hy; rewrite Hx, Hy; reflexivity|exact Ht|exact Hp].
Qed.

Lemma widened_rate_limit_loop (step mw : Q) (pat : list bool) (w w' : frame) :
  Forall2 (widened (fun x => x == 0) pat) w w' ->
  forall prev prev' : row,
    widened (fun x => x == 0) pat prev prev' ->
    Forall2 (widened (fun x => x == 0) pat)
      (rate_limit_loop step mw prev w []) (rate_limit_loop step mw prev' w' []).
Proof.
  induction 1 as [|r r' l l' Hr Hl IH]; intros prev prev' Hp; [constructor|].
  rewrite !rate_limit_loop_cons.
  pose proof (widened_rate_limit_step step mw pat _ _ _ _ Hp Hr) as Hs.
  constructor; [exact Hs|]. now apply IH.
Qed.

Lemma widened_band_step (band : Q) (pat : list bool) (prev prev' t t' : row) :
  widened (fun x => x == 0) pat prev prev' ->
  widened (fun x => x == 0) pat t t' ->
  widened (fun x => x == 0) pat (band_step band prev t) (band_step band prev' t').
Proof.
  intros Hp Ht. unfold band_step.
  eapply widened_zipw; [|exact Hp|exact Ht].
  intros x y Hx Hy. cbn beta. destruct (Qle_bool _ _); assumption.
Qed.

Lemma widened_band_loop (band : Q) (pat : list bool) (w w' : frame) :
  Forall2 (widened (fun x => x == 0) pat) w w' ->
  forall prev prev' : row,
    widened (fun x => x == 0) pat prev prev' ->
    Forall2 (widened (fun x => x == 0) pat)
      (band_loop band prev w []) (band_loop band prev' w' []).
Proof.
  induction 1 as [|r r' l l' Hr Hl IH]; intros prev prev' Hp; [constructor|].
  rewrite !band_loop_cons.
  pose proof (widened_band_step band pat _ _ _ _ Hp Hr) as Hs.
  constructor; [exact Hs|]. now apply IH.
Qed.

Lemma widened_rate_limit_time (step_bps mw : Q) (pat : list bool) (w w' : frame) :
  Forall2 (widened (fun x => x == 0) pat) w w' ->
  Forall2 (widened (fun x => x == 0) pat)
    (rate_limit_time w step_bps mw) (rate_limit_time w' step_bps mw).
Proof.
  intros HF. unfold rate_limit_time.
  destruct HF as [|r r' l l' Hr Hl]; [constructor|].
  apply widened_rate_limit_loop; [now constructor|].
  eapply widened_zeros; [constructor; eassumption|discriminate].
Qed.

Lemma widened_apply_no_trade_band (band_bps : Q) (pat : list bool) (w w' : frame) :
  Forall2 (widened (fun x => x == 0) pat) w w' ->
  Forall2 (widened (fun x => x == 0) pat)
    (apply_no_trade_band w band_bps) (apply_no_trade_band w' band_bps).
Proof.
  intros HF. unfold apply_no_trade_band.
  destruct HF as [|r r' l l' Hr Hl]; [constructor|].
  apply widened_band_loop; [now constructor|].
  eapply widened_zeros; [constructor; eassumption|discriminate].
Qed.

Lemma round_half_even_zero (x : Q) : x == 0 -> round_half_even x = 0%Z.
Proof.
  intros Hx. unfold round_half_even. cbv zeta.
  assert (Hf : Qfloor x = 0%Z) by (rewrite (Qfloor_comp x 0 Hx); reflexivity).
  rewrite Hf.
  assert (Hc : (x - inject_Z 0 ?= 1 # 2) = Lt).
  { rewrite Hx. reflexivity. }
  now rewrite Hc.
Qed.

Lemma widened_execute (cfg : config) (pat : list bool) (w w' : frame) :
  Forall2 (widened (fun x => x == 0) pat) w w' ->
  Forall2 (widened (fun x => x == 0) pat) (execute cfg w) (execute cfg w').
Proof.
  intros HF. unfold execute. destruct (mode cfg).
  - apply widened_rate_limit_time.
    destruct (Qlt_bool 0 (band_bps cfg)); [now apply widened_apply_no_trade_band|exact HF].
  - now apply widened_apply_no_trade_band.
  - eapply Forall2_map_both; [|exact HF]. intros r r' Hr.
    eapply widened_map; [|exact Hr]. intros z Hz. cbn beta.
    rewrite round_half_even_zero; [change (inject_Z 0) with 0; ring|].
    rewrite Hz. unfold Qdiv. ring.
  - exact HF.
Qed.

Lemma widened_flatten_eod (e : list bool) (pat : list bool) (w w' : frame) :
  Forall2 (widened (fun x => x == 0) pat) w w' ->
  Forall2 (widened (fun x => x == 0) pat) (flatten_eod e w) (flatten_eod e w').
Proof.
  unfold flatten_eod. apply Forall2_zipw_mask. intros b r r' Hr.
  destruct b; [|exact Hr]. eapply widened_map; [|exact Hr]. intros; reflexivity.
Qed.

Lemma widened_w_lag_of (pat : list bool) (w w' : frame) :
  Forall2 (widened (fun x => x == 0) pat) w w' ->
  Forall2 (widened (fun x => x == 0) pat) (w_lag_of w) (w_lag_of w').
Proof.
  intros HF. destruct HF as [|r r' l l' Hr Hl]; [constructor|].
  rewrite !w_lag_of_cons. constructor.
  - unfold zeros. eapply widened_repeat; [reflexivity|exact Hr].
  - apply Forall2_removelast. now constructor.
Qed.

Lemma widened_rets_oc (pat : list bool) (p p' o o' : nframe) :
  Forall2 (widened is_nan pat) p p' -> Forall2 (widened is_nan pat) o o' ->
  Forall2 (widened is_nan pat) (zipw (zipw ret_oc) p o) (zipw (zipw ret_oc) p' o').
Proof.
  apply Forall2_zipw_both. intros x x' y y' Hx Hy.
  eapply widened_zipw; [|exact Hx|exact Hy]. intros a b -> _. reflexivity.
Qed.

Lemma widened_sum_skipna_nan (pat : list bool) (r r' : nrow) :
  widened is_nan pat r r' -> sum_skipna r' = sum_skipna r.
Proof.
  induction 1 as [|x pat r r' H IH|z pat r r' Hz H IH]; cbn [sum_skipna fold_right];
    [reflexivity| |].
  - fold (sum_skipna r) (sum_skipna r'). now rewrite IH.
  - fold (sum_skipna r'). rewrite Hz. exact IH.
Qed.

Lemma widened_sum_skipna_zero (pat : list bool) (r r' : nrow) :
  widened nan_or_zero pat r r' -> sum_skipna r == sum_skipna r'.
Proof.
  induction 1 as [|x pat r r' H IH|z pat r r' Hz H IH]; cbn [sum_skipna fold_right].
  - reflexivity.
  - fold (sum_skipna r) (sum_skipna r'). destruct x; [now rewrite IH|exact IH].
  - fold (sum_skipna r'). destruct z as [z|]; [|exact IH].
    cbn [nan_or_zero] in Hz. rewrite IH, Hz. ring.
Qed.

Lemma widened_pnl_gross_of (pat : list bool) (wl wl' : frame) (rets rets' : nframe) :
  Forall2 (widened (fun x => x == 0) pat) wl wl' ->
  Forall2 (widened is_nan pat) rets rets' ->
  pnl_gross_of wl' rets' = pnl_gross_of wl rets.
Proof.
  intros Hw Hr. unfold pnl_gross_of.
  assert (HF : Forall2 (widened is_nan pat)
                 (zipw (zipw (fun w r => option_map (Qmult w) r)) wl rets)
                 (zipw (zipw (fun w r => option_map (Qmult w) r)) wl' rets')).
  { revert Hw Hr. apply Forall2_zipw_both. intros x x' y y' Hx Hy.
    eapply widened_zipw; [|exact Hx|exact Hy]. intros a b _ ->. reflexivity. }
  induction HF as [|a a' l l' Ha Hl IH]; cbn [map]; [reflexivity|].
  now rewrite IH, (widened_sum_skipna_nan _ _ _ Ha).
Qed.

Lemma widened_diff_from (pat : list bool) (m m' : frame) :
  Forall2 (widened (fun x => x == 0) pat) m m' ->
  forall prev prev' : row,
    widened (fun x => x == 0) pat prev prev' ->
    Forall2 (widened nan_or_zero pat) (diff_from prev m) (diff_from prev' m').
Proof.
  induction 1 as [|r r' l l' Hr Hl IH]; intros prev prev' Hp; cbn [diff_from];
    constructor; [|now apply IH].
  eapply widened_map with (P := fun x => x == 0); [intros z Hz; exact Hz|].
  eapply widened_zipw; [|exact Hr|exact Hp].
  intros x y Hx Hy. cbn beta. rewrite Hx, Hy. reflexivity.
Qed.

Lemma widened_abs_diff_sum (pat : list bool) (w w' : frame) :
  Forall2 (widened (fun x => x == 0) pat) w w' ->
  Forall2 Qeq (abs_diff_sum w) (abs_diff_sum w').
Proof.
  intros HF. unfold abs_diff_sum, df_abs.
  eapply Forall2_map_both with (R := widened nan_or_zero pat).
  { intros r r'. apply widened_sum_skipna_zero. }
  eapply Forall2_map_both with (R := widened nan_or_zero pat).
  { intros r r' Hr. eapply widened_map; [|exact Hr].
    intros [z|] Hz; cbn [option_map nan_or_zero] in *; [|exact I].
    rewrite Hz. reflexivity. }
  destruct HF as [|r r' l l' Hr Hl]; cbn [df_diff]; constructor.
  - eapply widened_map; [|exact Hr]. intros; exact I.
  - now apply widened_diff_from.
Qed.

Lemma widened_costs (cost : Q) (pat : list bool) (w w' : frame) :
  Forall2 (widened (fun x => x == 0) pat) w w' ->
  Forall2 Qeq (costs_from_turnover w cost) (costs_from_turnover w' cost).
Proof.
  intros HF. unfold costs_from_turnover.
  eapply Forall2_map_both; [|exact (widened_abs_diff_sum pat w w' HF)].
  intros x y E. cbn beta. now rewrite E.
Qed.

Lemma concat_out_same (idx : list Z) :
  forall g c c' n n' t t' : list Q,
    Forall2 Qeq c c' -> Forall2 Qeq n n' -> Forall2 Qeq t t' ->
    Forall2 same_out (concat_out idx g c n t) (concat_out idx g c' n' t').
Proof.
  induction idx as [|i idx IH]; intros g c c' n n' t t' Hc Hn Ht;
    [constructor|].
  destruct g as [|g0 g]; [constructor|].
  destruct Hc as [|c0 c0' c c' Ec Hc]; [constructor|].
  destruct Hn as [|n0 n0' n n' En Hn]; [constructor|].
  destruct Ht as [|t0 t0' t t' Et Ht]; [constructor|].
  cbn [concat_out]. constructor; [|now apply IH].
  unfold same_out; cbn. repeat split; auto; reflexivity.
Qed.

(** Columns that hold no bar change nothing: every stage of the wider
    table is the same stage of the narrower one with more columns, NaN in
    the score, flat in the membership and zero in the weights, and the
    output rows carry the same numbers. *)
Lemma widened_stages (ln : Q -> Q) (cfg : config) (pat : list bool) (rows rows' : list wrow) :
  Forall2 (widened_rows pat) rows rows' ->
  let a := stages_of ln cfg rows in
  let b := stages_of ln cfg rows' in
  Forall2 (widened is_nan pat) (st_score a) (st_score b)
  /\ Forall2 (widened (fun z => z = 0%Z) pat) (st_memb_full a) (st_memb_full b)
  /\ Forall2 (widened (fun z => z = 0%Z) pat) (st_memb a) (st_memb b)
  /\ Forall2 (widened (fun x => x == 0) pat) (st_w_target a) (st_w_target b)
  /\ Forall2 (widened (fun x => x == 0) pat) (st_w_exec a) (st_w_exec b)
  /\ Forall2 same_out (st_out a) (st_out b).
Proof.
  intros HF a b. subst a b.
  assert (Hts : map ts rows' = map ts rows).
  { induction HF as [|r r' l l' (E & _) Hl IH]; cbn [map]; congruence. }
  assert (Hpx : Forall2 (widened is_nan pat) (map px rows) (map px rows')).
  { eapply Forall2_map_both; [|exact HF]. now intros r r' (_ & H & _). }
  assert (Hop : Forall2 (widened is_nan pat) (map op rows) (map op rows')).
  { eapply Forall2_map_both; [|exact HF]. now intros r r' (_ & _ & H). }
  unfold stages_of, assemble.
  cbn [st_score st_memb_full st_memb st_w_target st_w_exec st_out]. rewrite Hts.
  set (mask := session_mask cfg (map ts rows)).
  set (um := cadence_mask cfg (map ts rows)).
  pose proof (widened_score_of ln (signal cfg) (K cfg) pat _ _ Hpx) as Hsc.
  pose proof (widened_sticky_body (q_in cfg) (q_out cfg) pat _ _ um Hsc) as Hmf.
  pose proof (Forall2_loc_mask _ mask _ _ Hmf) as Hm.
  pose proof (widened_target_weights (gross cfg) (max_w cfg) pat _ _
                (loc_mask mask um) Hm) as Hwt.
  pose proof (widened_execute cfg pat _ _ Hwt) as Hwp.
  pose proof (widened_flatten_eod (loc_mask mask (eod_mask (map ts rows))) pat _ _ Hwp)
    as Hwe.
  pose proof (Forall2_loc_mask _ mask _ _ (widened_rets_oc pat _ _ _ _ Hpx Hop)) as Hr.
  repeat (split; [assumption|]).
  rewrite (widened_pnl_gross_of pat _ _ _ _ (widened_w_lag_of pat _ _ Hwe) Hr).
  apply concat_out_same.
  - now apply (widened_costs (cost_bps cfg) pat).
  - apply Forall2_zipw_both with (R := Qeq) (S := Qeq);
      [intros x x' y y' Ex Ey; now rewrite Ex, Ey|apply Forall2_Qeq_refl|].
    now apply (widened_costs (cost_bps cfg) pat).
  - now apply (widened_abs_diff_sum pat).
Qed.

Lemma widened_runs :
  forall (ln : Q -> Q) (cfg : config) (pat : list bool) (rows rows' : list wrow)
         (s s' : stages),
    Forall2 (widened_rows pat) rows rows' ->
    backtest_rows ln cfg rows = Ok s ->
    backtest_rows ln cfg rows' = Ok s' ->
    Forall2 (widened is_nan pat) (st_score s) (st_score s')
    /\ Forall2 (widened (fun z => z = 0%Z) pat) (st_memb_full s) (st_memb_full s')
    /\ Forall2 (widened (fun z => z = 0%Z) pat) (st_memb s) (st_memb s')
    /\ Forall2 (widened (fun x => x == 0) pat) (st_w_target s) (st_w_target s')
    /\ Forall2 (widened (fun x => x == 0) pat) (st_w_exec s) (st_w_exec s')
    /\ Forall2 same_out (st_out s) (st_out s').
Proof.
  intros ln cfg pat rows rows' s s' HF H H'.
  apply backtest_rows_stages in H, H'. subst s s'.
  now apply widened_stages.
Qed.

(** ** Symbols without a bar up to an instant *)

Lemma find_no_symbol (U : list bar) (t : Z) (s : string) :
  ~ In s (map symbol U) -> find (same_key t s) U = None.
Proof.
  intros H. destruct (find (same_key t s) U) as [b|] eqn:E; [|reflexivity].
  apply find_some in E. destruct E as [Hin Hk]. exfalso. apply H.
  unfold same_key in Hk. apply andb_true_iff in Hk. destruct Hk as [_ Hs].
  apply String.eqb_eq in Hs. subst s. now apply in_map.
Qed.

Lemma widened_labels {B : Type} (f : string -> option B) (l0 li : list string) :
  (forall s, has_label l0 s = false -> f s = None) ->
  widened is_nan (map (has_label l0) li) (map f (filter (has_label l0) li)) (map f li).
Proof.
  intros H. induction li as [|s li IH]; cbn [map filter]; [constructor|].
  destruct (has_label l0 s) eqn:E; cbn [map]; constructor; auto.
  apply H, E.
Qed.

Lemma sorted_filter {A : Type} (R : A -> A -> Prop) (p : A -> bool) (l : list A) :
  StronglySorted R l -> StronglySorted R (filter p l).
Proof.
  induction 1 as [|a l Hs IH Ha]; cbn [filter]; [constructor|].
  destruct (p a); [|exact IH]. constructor; [exact IH|].
  apply Forall_forall. intros y Hy. apply filter_In in Hy. destruct Hy as [Hy _].
  rewrite Forall_forall in Ha. now apply Ha.
Qed.

Lemma has_label_iff (l : list string) (s : string) : has_label l s = true <-> In s l.
Proof.
  unfold has_label. rewrite existsb_exists. split.
  - intros (y & Hy & E). apply String.eqb_eq in E. now subst y.
  - intros H. exists s. split; [exact H|apply String.eqb_refl].
Qed.

Lemma sorted_sublabels (l l' : list string) :
  incl l l' ->
  filter (has_label (sort_uniq String.compare l)) (sort_uniq String.compare l')
  = sort_uniq String.compare l.
Proof.
  intros Hincl. symmetry.
  apply (sorted_same_elements (fun a b => String.compare a b = Lt)
           string_compare_irrefl string_compare_trans).
  - apply (sort_uniq_ordered String.compare String.compare_eq_iff
             string_compare_gt string_compare_trans).
  - apply sorted_filter.
    apply (sort_uniq_ordered String.compare String.compare_eq_iff
             string_compare_gt string_compare_trans).
  - intros x. rewrite filter_In, has_label_iff.
    rewrite !(sort_uniq_elem String.compare String.compare_eq_iff).
    split; [intros Hx; split; [now apply Hincl|exact Hx]|now intros [_ Hx]].
Qed.

Lemma wide_rows_widened (U df : list bar) (idx : list Z) :
  incl (map symbol U) (map symbol df) ->
  let l0 := sort_uniq String.compare (map symbol U) in
  let li := sort_uniq String.compare (map symbol df) in
  Forall2 (widened_rows (map (has_label l0) li))
    (map (wide_row U l0) idx) (map (wide_row U li) idx).
Proof.
  intros Hincl l0 li.
  assert (E : filter (has_label l0) li = l0) by now apply sorted_sublabels.
  assert (Hnone : forall (col : bar -> Q) t s,
             has_label l0 s = false -> option_map col (find (same_key t s) U) = None).
  { intros col t s Hs. rewrite find_no_symbol; [reflexivity|].
    intros Hin. apply (sort_uniq_elem String.compare String.compare_eq_iff) in Hin.
    apply has_label_iff in Hin. fold l0 in Hin. congruence. }
  induction idx as [|t idx IH]; cbn [map]; constructor; [|exact IH].
  unfold widened_rows, wide_row. cbn [ts px op].
  split; [reflexivity|]. split.
  - pose proof (widened_labels
                  (fun s => option_map close (find (same_key t s) U)) l0 li
                  (Hnone close t)) as W.
    rewrite E in W. exact W.
  - pose proof (widened_labels
                  (fun s => option_map open (find (same_key t s) U)) l0 li
                  (Hnone open t)) as W.
    rewrite E in W. exact W.
Qed.

Lemma same_out_sym (a b : out_row) : same_out a b -> same_out b a.
Proof. unfold same_out. intros (H1 & H2 & H3 & H4 & H5). repeat split; now symmetry. Qed.

Lemma same_out_trans (a b c : out_row) : same_out a b -> same_out b c -> same_out a c.
Proof.
  unfold same_out. intros (H1 & H2 & H3 & H4 & H5) (G1 & G2 & G3 & G4 & G5).
  repeat split; etransitivity; eassumption.
Qed.

Lemma Forall2_sym {A : Type} (R : A -> A -> Prop) (l l' : list A) :
  (forall x y, R x y -> R y x) -> Forall2 R l l' -> Forall2 R l' l.
Proof. intros H. induction 1; constructor; auto. Qed.

Lemma Forall2_trans {A : Type} (R : A -> A -> Prop) (l1 l2 l3 : list A) :
  (forall x y z, R x y -> R y z -> R x z) ->
  Forall2 R l1 l2 -> Forall2 R l2 l3 -> Forall2 R l1 l3.
Proof.
  intros H H12. revert l3. induction H12; intros l3 H23; inversion H23; subst;
    constructor; eauto.
Qed.

Lemma upto_symbols (T : Z) (df : list bar) :
  incl (map symbol (upto T df)) (map symbol df).
Proof.
  intros s Hs. apply in_map_iff in Hs. destruct Hs as (b & <- & Hb).
  apply filter_In in Hb. destruct Hb as [Hb _]. now apply in_map.
Qed.

(** The output rows up to [T] are those of the bars up to [T] alone, over
    the symbols these bars have. *)
Lemma out_of_bars_upto (ln : Q -> Q) (cfg : config) (df : list bar) (T : Z)
      (out : list out_row) :
  (0 <= K cfg)%Z ->
  vector_backtest ln df cfg = Ok out ->
  let U := upto T df in
  Forall2 same_out
    (st_out (stages_of ln cfg
               (map (wide_row U (sort_uniq String.compare (map symbol U)))
                    (sort_uniq Z.compare (map datetime U)))))
    (filter (fun o => (o_ts o <=? T)%Z) out).
Proof.
  intros HK H U. apply vector_backtest_ok in H. subst out.
  destruct (wide_rows_split T df (sort_uniq String.compare (map symbol df)))
    as (X & -> & HP & HX).
  rewrite out_upto by assumption.
  apply (widened_stages ln cfg
           (map (has_label (sort_uniq String.compare (map symbol U)))
                (sort_uniq String.compare (map symbol df)))).
  apply wide_rows_widened, upto_symbols.
Qed.

Lemma runs_agree_up_to :
  forall (ln : Q -> Q) (cfg : config) (df1 df2 : list bar) (T : Z)
         (out1 out2 : list out_row),
    (0 <= K cfg)%Z ->
    upto T df1 = upto T df2 ->
    vector_backtest ln df1 cfg = Ok out1 ->
    vector_backtest ln df2 cfg = Ok out2 ->
    Forall2 same_out (filter (fun o => (o_ts o <=? T)%Z) out1)
                     (filter (fun o => (o_ts o <=? T)%Z) out2).
Proof.
  intros ln cfg df1 df2 T out1 out2 HK Hup H1 H2.
  pose proof (out_of_bars_upto ln cfg df1 T out1 HK H1) as G1.
  pose proof (out_of_bars_upto ln cfg df2 T out2 HK H2) as G2.
  cbv zeta in G1, G2. rewrite Hup in G1.
  eapply Forall2_trans; [exact same_out_trans| |exact G2].
  apply Forall2_sym; [exact same_out_sym|exact G1].
Qed.

(** C4 (as amended). Causality (no look-ahead) for a signal that looks
    back, K >= 0, as a statement about two runs.
    On the wide tables: runs whose rows agree up to a bar, and differ
    arbitrarily after it, give the same score and membership on those rows
    and the same session membership, target weights, executed weights and
    output rows (raw_ret, tc, net_ret, turnover) on the session bars among
    them.
    Columns that hold no bar, which is what a symbol whose first bar comes
    later is up to that bar, change nothing: every stage of the wider table
    is the same stage of the narrower one with more columns, NaN in the
    score, flat in the membership and zero in the weights, and the output
    rows carry the same numbers.
    On the long-form input: two tables with the same bars up to an instant T
    (bars after T added, removed or changed, for old and for new symbols)
    give output rows up to T with the same timestamps and the same
    numbers. *)
Theorem no_look_ahead :
  (forall (ln : Q -> Q) (cfg : config) (P X1 X2 : list wrow) (s1 s2 : stages),
      (0 <= K cfg)%Z ->
      backtest_rows ln cfg (P ++ X1) = Ok s1 ->
      backtest_rows ln cfg (P ++ X2) = Ok s2 ->
      let n := length P in
      let k := length (session_rows cfg P) in
      firstn n (st_score s1) = firstn n (st_score s2)
      /\ firstn n (st_memb_full s1) = firstn n (st_memb_full s2)
      /\ firstn k (st_memb s1) = firstn k (st_memb s2)
      /\ firstn k (st_w_target s1) = firstn k (st_w_target s2)
      /\ firstn k (st_w_exec s1) = firstn k (st_w_exec s2)
      /\ firstn k (st_out s1) = firstn k (st_out s2)
      /\ map o_ts (firstn k (st_out s1)) = map ts (session_rows cfg P))
  /\ (forall (ln : Q -> Q) (cfg : config) (pat : list bool) (rows rows' : list wrow)
             (s s' : stages),
      Forall2 (widened_rows pat) rows rows' ->
      backtest_rows ln cfg rows = Ok s ->
      backtest_rows ln cfg rows' = Ok s' ->
      Forall2 (widened is_nan pat) (st_score s) (st_score s')
      /\ Forall2 (widened (fun z => z = 0%Z) pat) (st_memb_full s) (st_memb_full s')
      /\ Forall2 (widened (fun z => z = 0%Z) pat) (st_memb s) (st_memb s')
      /\ Forall2 (widened (fun x => x == 0) pat) (st_w_target s) (st_w_target s')
      /\ Forall2 (widened (fun x => x == 0) pat) (st_w_exec s) (st_w_exec s')
      /\ Forall2 same_out (st_out s) (st_out s'))
  /\ (forall (ln : Q -> Q) (cfg : config) (df1 df2 : list bar) (T : Z)
             (out1 out2 : list out_row),
      (0 <= K cfg)%Z ->
      upto T df1 = upto T df2 ->
      vector_backtest ln df1 cfg = Ok out1 ->
      vector_backtest ln df2 cfg = Ok out2 ->
      Forall2 same_out (filter (fun o => (o_ts o <=? T)%Z) out1)
                       (filter (fun o => (o_ts o <=? T)%Z) out2)).
Proof.
  split; [exact runs_agree_on_prefix|].
  split; [exact widened_runs|exact runs_agree_up_to].
Qed.

Lemma no_look_ahead_witness :
  let cfg := mkConfig 1 1 10 0 0 Ratelimit 100 0 0 1 Momentum 1 (3 # 10) (55 # 100) in
  let P := [mkWrow 34200 [Some 10; Some 20] [Some 10; Some 20];
            mkWrow 34260 [Some 11; Some 19] [Some 10; Some 20]] in
  let X1 := [mkWrow 34320 [Some 12; Some 18] [Some 11; Some 19]] in
  let X2 := [mkWrow 34320 [Some 9; None] [Some 11; None];
             mkWrow 34380 [Some 8; Some 30] [Some 9; Some 25]] in
  let P' := [mkWrow 34200 [Some 10; None; Some 20] [Some 10; None; Some 20];
             mkWrow 34260 [Some 11; None; Some 19] [Some 10; None; Some 20]] in
  let df1 := [mkBar 34200 "A" 10 10; mkBar 34260 "A" 10 11; mkBar 34320 "A" 11 12;
              mkBar 34200 "C" 20 20; mkBar 34260 "C" 20 19] in
  let df2 := [mkBar 34200 "A" 10 10; mkBar 34260 "A" 10 11; mkBar 34320 "A" 11 9;
              mkBar 34200 "C" 20 20; mkBar 34260 "C" 20 19; mkBar 34320 "C" 19 30;
              mkBar 34320 "B" 5 6] in
  (exists s1 s2,
      backtest_rows (fun x => x) cfg (P ++ X1) = Ok s1
      /\ backtest_rows (fun x => x) cfg (P ++ X2) = Ok s2
      /\ firstn 2 (st_score s1) = firstn 2 (st_score s2)
      /\ firstn 2 (st_memb_full s1) = firstn 2 (st_memb_full s2)
      /\ firstn 2 (st_memb s1) = firstn 2 (st_memb s2)
      /\ firstn 2 (st_w_target s1) = firstn 2 (st_w_target s2)
      /\ firstn 2 (st_w_exec s1) = firstn 2 (st_w_exec s2)
      /\ firstn 2 (st_out s1) = firstn 2 (st_out s2)
      /\ map o_ts (firstn 2 (st_out s1)) = map ts (session_rows cfg P))
  /\ (exists s s',
         backtest_rows (fun x => x) cfg P = Ok s
         /\ backtest_rows (fun x => x) cfg P' = Ok s'
         /\ Forall2 (widened is_nan [true; false; true]) (st_score s) (st_score s')
         /\ Forall2 (widened (fun z => z = 0%Z) [true; false; true])
              (st_memb_full s) (st_memb_full s')
         /\ Forall2 (widened (fun z => z = 0%Z) [true; false; true]) (st_memb s) (st_memb s')
         /\ Forall2 (widened (fun x => x == 0) [true; false; true])
              (st_w_target s) (st_w_target s')
         /\ Forall2 (widened (fun x => x == 0) [true; false; true])
              (st_w_exec s) (st_w_exec s')
         /\ Forall2 same_out (st_out s) (st_out s'))
  /\ (exists out1 out2,
         vector_backtest (fun x => x) df1 cfg = Ok out1
         /\ vector_backtest (fun x => x) df2 cfg = Ok out2
         /\ Forall2 same_out (filter (fun o => (o_ts o <=? 34260)%Z) out1)
                             (filter (fun o => (o_ts o <=? 34260)%Z) out2)).
Proof.
  intros cfg P X1 X2 P' df1 df2. split; [|split].
  - destruct (backtest_rows (fun x => x) cfg (P ++ X1)) as [s1|] eqn:H1;
      [|vm_compute in H1; discriminate].
    destruct (backtest_rows (fun x => x) cfg (P ++ X2)) as [s2|] eqn:H2;
      [|vm_compute in H2; discriminate].
    exists s1, s2. split; [reflexivity|]. split; [reflexivity|].
    apply (proj1 no_look_ahead (fun x => x) cfg P X1 X2 s1 s2);
      [vm_compute; discriminate| |]; assumption.
  - destruct (backtest_rows (fun x => x) cfg P) as [s|] eqn:H1;
      [|vm_compute in H1; discriminate].
    destruct (backtest_rows (fun x => x) cfg P') as [s'|] eqn:H2;
      [|vm_compute in H2; discriminate].
    exists s, s'. split; [reflexivity|]. split; [reflexivity|].
    apply (proj1 (proj2 no_look_ahead) (fun x => x) cfg [true; false; true] P P' s s');
      [|assumption|assumption].
    repeat constructor.
  - destruct (vector_backtest (fun x => x) df1 cfg) as [out1|] eqn:H1;
      [|vm_compute in H1; discriminate].
    destruct (vector_backtest (fun x => x) df2 cfg) as [out2|] eqn:H2;
      [|vm_compute in H2; discriminate].
    exists out1, out2. split; [reflexivity|]. split; [reflexivity|].
    apply (proj2 (proj2 no_look_ahead) (fun x => x) cfg df1 df2 34260%Z out1 out2);
      try assumption; try reflexivity.
    vm_compute; discriminate.
Defined.

(** C4, as stated, fails when the signal looks ahead: with K = -1 the score
    of a bar reads the bar after it. Two tables with the same bars up to
    09:31, one of them with a bar of B at 09:32, give different rows at
    09:31 (turnover 1/100 against 1/50, tc 1/100000 against 1/50000), for
    every log. *)
Lemma negative_K_looks_ahead :
  let cfg := mkConfig 1 1 10 0 0 Ratelimit 100 0 0 1 Momentum (-1) (3 # 10) (55 # 100) in
  let df1 := [mkBar 34200 "A" 10 10; mkBar 34260 "A" 10 11; mkBar 34260 "B" 20 19] in
  let df2 := df1 ++ [mkBar 34320 "B" 19 18] in
  upto 34260 df1 = upto 34260 df2
  /\ forall ln : Q -> Q,
       exists out1 out2,
         vector_backtest ln df1 cfg = Ok out1
         /\ vector_backtest ln df2 cfg = Ok out2
         /\ ~ Forall2 same_out (filter (fun o => (o_ts o <=? 34260)%Z) out1)
                               (filter (fun o => (o_ts o <=? 34260)%Z) out2).
Proof.
  cbv zeta. split; [reflexivity|]. intros ln.
  eexists. eexists. split; [vm_compute; reflexivity|].
  split; [vm_compute; reflexivity|].
  cbn [filter o_ts Z.leb Z.compare Pos.compare Pos.compare_cont].
  intros HF. inversion HF as [|a b l l' _ HF']. subst.
  inversion HF' as [|a' b' l2 l2' (_ & _ & _ & _ & Ht) _]. subst.
  vm_compute in Ht. discriminate.
Qed.

(** ** Turnover and cost of every output bar *)

Lemma sum_skipna_abs_some (l : row) :
  sum_skipna (map (option_map Qabs) (map Some l)) = qsum (map Qabs l).
Proof.
  induction l as [|x l IH]; [reflexivity|].
  cbn [map option_map sum_skipna qsum fold_right].
  fold (sum_skipna (map (option_map Qabs) (map Some l))).
  fold (qsum (map Qabs l)). now rewrite IH.
Qed.

(** What the code computes at every output bar: the turnover is 0 at the
    first bar and the summed absolute change of the executed weights at every
    later bar; the cost is the turnover times cost_bps / 10000. *)
Lemma turnover_accounting (ln : Q -> Q) (cfg : config) (rows : list wrow) (st : stages)
      (t : nat) (o : out_row) :
  backtest_rows ln cfg rows = Ok st ->
  nth_error (st_out st) t = Some o ->
  turnover o = match t with
               | O => 0
               | S t' => weight_change (nth t (st_w_exec st) []) (nth t' (st_w_exec st) [])
               end
  /\ tc o = turnover o * cost_bps cfg / 10000.
Proof.
  intros Hrun Ho. apply backtest_rows_stages in Hrun. subst st.
  unfold stages_of, assemble in *. cbn [st_out st_w_exec] in *.
  set (w := flatten_eod _ _) in *.
  apply concat_out_nth in Ho. destruct Ho as (_ & _ & Hc & _ & Ht).
  unfold costs_from_turnover in Hc. fold (abs_diff_sum w) in Hc.
  apply nth_error_map_inv in Hc. destruct Hc as (x & Hx & Hv).
  rewrite Ht in Hx. injection Hx as <-. split; [|exact Hv].
  destruct (nth_error_nth_len _ _ _ 0 Ht) as [Hlen <-].
  rewrite abs_diff_sum_length in Hlen.
  destruct t as [|t'].
  - destruct w as [|r w']; [cbn in Hlen; lia|]. apply abs_diff_sum_first.
  - rewrite abs_diff_sum_succ by exact Hlen. apply sum_skipna_abs_some.
Qed.

(** ** Remarks on the orientation and on the sizing step *)

(** The sibling [quantile_long_short] longs the lowest ranks: on the same
    ascending scores its longs and shorts are the other way round from those
    of [sticky_membership] ([membership_ascending]). *)
Lemma quantile_long_short_ascending (a b c d : Q) :
  a < b -> b < c -> c < d ->
  quantile_long_short [[Some a; Some b; Some c; Some d]] (3 # 10) = [[1; 0; -1; -1]]%Z.
Proof. intros Hab Hbc Hcd. run_membership. Qed.

(** Lines 269-272 taken alone would carry the previous target row into an
    all-flat membership row; [sticky_membership] never hands them one
    ([sticky_body_zeros_first]). *)
Lemma target_weights_after_flat :
  Forall2 (Forall2 Qeq)
    (target_weights 1 1 [[1; -1]; [0; 0]]%Z [true; true])
    [[1 # 2; - (1 # 2)]; [1 # 2; - (1 # 2)]].
Proof. repeat constructor. Qed.

(** * Further properties of the code *)


(** ** The no-trade band, cell by cell *)

Lemma band_step_length (band : Q) (prev target : row) :
  length target = length prev -> length (band_step band prev target) = length prev.
Proof. intros H. unfold band_step. rewrite zipw_length. lia. Qed.

Lemma band_loop_widths (band : Q) (n : nat) :
  forall (todo : frame) (prev : row),
    length prev = n -> Forall (fun r => length r = n) todo ->
    Forall (fun r => length r = n) (band_loop band prev todo []).
Proof.
  induction todo as [|r todo IH]; intros prev Hp Hw; [constructor|].
  rewrite band_loop_cons.
  inversion Hw as [|? ? Hr Hrest]; clear Hw.
  assert (Hl : length (band_step band prev r) = n)
    by (rewrite band_step_length; congruence).
  constructor; [exact Hl|]. now apply IH.
Qed.

Lemma band_step_nth (band : Q) (prev target : row) (s : nat) :
  (s < length prev)%nat -> (s < length target)%nat ->
  nth s (band_step band prev target) 0
  = if Qle_bool band (Qabs (nth s target 0 - nth s prev 0))
    then nth s target 0 else nth s prev 0.
Proof.
  intros Hp Ht. unfold band_step.
  now rewrite (nth_zipw _ 0 0 0) by assumption.
Qed.

(** The executed weight of one symbol at one bar, from the executed weight
    of the bar before (zero before the first bar). *)
Lemma band_cell (w : frame) (band_bps : Q) (t s : nat) :
  rect w -> (t < length w)%nat -> (s < ncols w)%nat ->
  let out := apply_no_trade_band w band_bps in
  let prev := match t with O => 0 | S t' => cell out t' s end in
  cell out t s
  = if Qle_bool (band_bps / 10000) (Qabs (cell w t s - prev)) then cell w t s else prev.
Proof.
  intros Hrect Ht Hs out prev. subst out prev.
  unfold cell, apply_no_trade_band.
  rewrite band_loop_nth by assumption.
  assert (Hrow : length (nth t w []) = ncols w)
    by (apply (Forall_nth_len (fun r => length r = ncols w)); assumption).
  destruct t as [|t'].
  - rewrite band_step_nth by (rewrite ?zeros_length, ?Hrow; assumption).
    now rewrite nth_zeros.
  - assert (Hprev : length (nth t' (band_loop (band_bps / 10000) (zeros (ncols w)) w []) [])
                    = ncols w).
    { apply (Forall_nth_len (fun r => length r = ncols w)).
      - apply band_loop_widths; [apply zeros_length|exact Hrect].
      - rewrite band_loop_length. lia. }
    now rewrite band_step_nth by (rewrite ?Hprev, ?Hrow; assumption).
Qed.

(** X1. No-trade band, bar by bar, away from the threshold: the executed
    weight of a name becomes the target when the target is more than
    band = band_bps / 1e4 away from the weight executed at the bar before
    (zero before the first bar), and stays at that weight when the target is
    less than the band away; in every case it is the target, or it is the
    earlier weight and the target is at most the band away from it. *)
Theorem apply_no_trade_band_recurrence :
  forall (w_smooth : frame) (band_bps : Q) (t s : nat),
    rect w_smooth -> (t < length w_smooth)%nat -> (s < ncols w_smooth)%nat ->
    let out := apply_no_trade_band w_smooth band_bps in
    let band := band_bps / 10000 in
    let prev := match t with O => 0 | S t' => cell out t' s end in
    (band < Qabs (cell w_smooth t s - prev) -> cell out t s = cell w_smooth t s)
    /\ (Qabs (cell w_smooth t s - prev) < band -> cell out t s = prev)
    /\ (cell out t s = cell w_smooth t s
        \/ (cell out t s = prev /\ Qabs (cell w_smooth t s - prev) <= band)).
Proof.
  intros w b t s Hrect Ht Hs out band prev.
  pose proof (band_cell w b t s Hrect Ht Hs) as H. cbv zeta in H.
  fold out in H. fold prev in H. fold band in H.
  destruct (Qle_bool band (Qabs (cell w t s - prev))) eqn:E.
  - apply Qle_bool_iff in E. repeat split; auto. intros Hlt. lra.
  - apply Qle_bool_false in E. repeat split; auto.
    + intros Hlt. lra.
    + right. split; [exact H|lra].
Qed.

Lemma apply_no_trade_band_recurrence_witness :
  let w := [[1 # 100; 0]; [1 # 50; 1 # 10000]] in
  let out := apply_no_trade_band w 50 in
  cell out 1 0 = cell w 1 0 /\ cell out 1 1 = cell out 0 1.
Proof.
  intros w out.
  assert (Hrect : rect w) by (repeat constructor).
  split.
  - apply (apply_no_trade_band_recurrence w 50 1 0 Hrect); [simpl; lia|simpl; lia|].
    vm_compute. reflexivity.
  - apply (apply_no_trade_band_recurrence w 50 1 1 Hrect); [simpl; lia|simpl; lia|].
    vm_compute. reflexivity.
Defined.

Lemma band_step_open (band : Q) :
  band <= 0 ->
  forall (prev target : row), length prev = length target ->
    band_step band prev target = target.
Proof.
  intros Hb. induction prev as [|p prev IH]; intros [|r target] Hl;
    try discriminate; [reflexivity|].
  unfold band_step. cbn [zipw]. fold (band_step band prev target).
  rewrite IH by (simpl in Hl; lia).
  rewrite Qle_bool_true; [reflexivity|].
  pose proof (Qabs_nonneg (r - p)). lra.
Qed.

Lemma band_loop_open (band : Q) (n : nat) :
  band <= 0 ->
  forall (todo : frame) (prev : row),
    length prev = n -> Forall (fun r => length r = n) todo ->
    band_loop band prev todo [] = todo.
Proof.
  intros Hb. induction todo as [|r todo IH]; intros prev Hp Hw; [reflexivity|].
  rewrite band_loop_cons.
  inversion Hw as [|? ? Hr Hrest]; clear Hw.
  rewrite band_step_open by (assumption || congruence).
  f_equal. now apply IH.
Qed.

(** X2. A band of zero or less trades at every bar: [apply_no_trade_band]
    returns the target frame as it is. *)
Theorem apply_no_trade_band_zero_band :
  forall (w_smooth : frame) (band_bps : Q),
    rect w_smooth -> band_bps <= 0 ->
    apply_no_trade_band w_smooth band_bps = w_smooth.
Proof.
  intros w b Hrect Hb. unfold apply_no_trade_band.
  apply (band_loop_open _ (ncols w)); [|apply zeros_length|exact Hrect].
  apply Qle_shift_div_r; lra.
Qed.

Lemma apply_no_trade_band_zero_band_witness :
  apply_no_trade_band [[1 # 100; 0]; [1 # 50; 1 # 10000]] 0
  = [[1 # 100; 0]; [1 # 50; 1 # 10000]].
Proof.
  apply apply_no_trade_band_zero_band; [repeat constructor|lra].
Defined.

(** X3. The band policy invents no weight: every executed weight is zero or
    the target of the same name at that bar or at an earlier one. *)
Theorem apply_no_trade_band_selects :
  forall (w_smooth : frame) (band_bps : Q) (t s : nat),
    rect w_smooth -> (t < length w_smooth)%nat -> (s < ncols w_smooth)%nat ->
    let out := apply_no_trade_band w_smooth band_bps in
    cell out t s = 0
    \/ exists t', (t' <= t)%nat /\ cell out t s = cell w_smooth t' s.
Proof.
  intros w b t s Hrect Ht Hs out. subst out.
  induction t as [|t IH].
  - pose proof (band_cell w b 0 s Hrect Ht Hs) as H. cbv zeta in H. rewrite H.
    destruct (Qle_bool _ _); [right; exists 0%nat; split; [lia|reflexivity]|now left].
  - pose proof (band_cell w b (S t) s Hrect Ht Hs) as H. cbv zeta in H. rewrite H.
    destruct (Qle_bool _ _).
    + right. exists (S t). split; [lia|reflexivity].
    + destruct IH as [IH|[t' [Hle IH]]]; [lia|now left|].
      right. exists t'. split; [lia|exact IH].
Qed.

Lemma apply_no_trade_band_selects_witness :
  let w := [[1 # 100; 0]; [1 # 50; 1 # 10000]] in
  let out := apply_no_trade_band w 50 in
  cell out 1 1 = 0 \/ exists t', (t' <= 1)%nat /\ cell out 1 1 = cell w t' 1.
Proof.
  intros w out.
  apply (apply_no_trade_band_selects w 50 1 1); [repeat constructor|simpl; lia|simpl; lia].
Defined.

(** ** The rate limiter, cell by cell *)

Lemma sym_min_abs (s : Q) : Qmin (- s) s == - Qabs s.
Proof.
  destruct (Q.min_spec (- s) s) as [[? E]|[? E]]; rewrite E;
    apply Qabs_case; intros; lra.
Qed.

Lemma sym_max_abs (s : Q) : Qmax (- s) s == Qabs s.
Proof.
  destruct (Q.max_spec (- s) s) as [[? E]|[? E]]; rewrite E;
    apply Qabs_case; intros; lra.
Qed.

Lemma rate_limit_cell_proper (step mw p p' r r' : Q) :
  p == p' -> r == r' -> rate_limit_cell step mw p r == rate_limit_cell step mw p' r'.
Proof.
  intros Hp Hr. unfold rate_limit_cell.
  apply clip_proper.
  assert (H : clip (- step) step (r - p) == clip (- step) step (r' - p'))
    by (apply clip_proper; lra).
  lra.
Qed.

Lemma rate_limit_cell_capped (step mw p r : Q) :
  Qabs (rate_limit_cell step mw p r) <= Qabs mw.
Proof.
  unfold rate_limit_cell.
  pose proof (clip_between (- mw) mw (p + clip (- step) step (r - p))) as H.
  pose proof (sym_min_abs mw). pose proof (sym_max_abs mw).
  apply Qabs_bound. lra.
Qed.

(** A cell within the cap moves toward a target within the cap, by the step
    or as far as the target, whichever is nearer. *)
Lemma rate_limit_cell_approach (step mw p r : Q) :
  Qabs p <= Qabs mw -> Qabs r <= Qabs mw ->
  Qabs (r - rate_limit_cell step mw p r) == Qmax 0 (Qabs (r - p) - Qabs step)
  /\ Qmin p r <= rate_limit_cell step mw p r <= Qmax p r.
Proof.
  intros Hp Hr. unfold rate_limit_cell.
  pose proof (Qabs_lower p) as Bp. pose proof (Qabs_lower r) as Br.
  pose proof (sym_min_abs mw) as Mm. pose proof (sym_max_abs mw) as MM.
  pose proof (sym_min_abs step) as Sm. pose proof (sym_max_abs step) as SM.
  pose proof (Qabs_nonneg step) as S0.
  assert (Hd : Qmin p r <= p + clip (- step) step (r - p) <= Qmax p r
               /\ Qabs (r - (p + clip (- step) step (r - p)))
                  == Qmax 0 (Qabs (r - p) - Qabs step)).
  { destruct (clip_cases (- step) step (r - p)) as [[H E]|[[H E]|[H E]]]; rewrite E;
      destruct (Q.min_spec p r) as [[? E1]|[? E1]]; rewrite E1;
      destruct (Q.max_spec p r) as [[? E2]|[? E2]]; rewrite E2;
      destruct (Q.max_spec 0 (Qabs (r - p) - Qabs step)) as [[? E3]|[? E3]]; rewrite E3;
      revert H0 H1 H2; try revert H;
      apply (Qabs_case (r - p)); intros;
      (split; [lra|]); apply Qabs_case; intros; lra. }
  destruct Hd as [Hb Hdist].
  rewrite clip_inside.
  - split; [exact Hdist|exact Hb].
  - destruct (Q.min_spec p r) as [[? E1]|[? E1]]; rewrite E1 in Hb;
      destruct (Q.max_spec p r) as [[? E2]|[? E2]]; rewrite E2 in Hb; lra.
Qed.

Lemma rate_limit_time_cell (w : frame) (step_bps mw : Q) (t s : nat) :
  rect w -> (t < length w)%nat -> (s < ncols w)%nat ->
  let out := rate_limit_time w step_bps mw in
  let prev := match t with O => 0 | S t' => cell out t' s end in
  cell out t s = rate_limit_cell (step_bps / 10000) mw prev (cell w t s).
Proof.
  intros Hrect Ht Hs out prev. subst out prev.
  unfold cell, rate_limit_time, rate_limit_cell.
  rewrite rate_limit_loop_nth by assumption.
  assert (Hrow : length (nth t w []) = ncols w)
    by (apply (Forall_nth_len (fun r => length r = ncols w)); assumption).
  destruct t as [|t'].
  - rewrite rate_limit_step_nth by (rewrite ?zeros_length, ?Hrow; assumption).
    now rewrite nth_zeros.
  - assert (Hprev : length (nth t' (rate_limit_loop (step_bps / 10000) mw
                                      (zeros (ncols w)) w []) []) = ncols w).
    { apply (Forall_nth_len (fun r => length r = ncols w)).
      - apply rate_limit_loop_widths; [apply zeros_length|exact Hrect].
      - rewrite rate_limit_loop_length. lia. }
    now rewrite rate_limit_step_nth by (rewrite ?Hprev, ?Hrow; assumption).
Qed.

(** The weight the limiter starts a bar from is within the cap. *)
Lemma rate_limit_time_prev_capped (w : frame) (step_bps mw : Q) (t s : nat) :
  rect w -> (t < length w)%nat -> (s < ncols w)%nat ->
  let out := rate_limit_time w step_bps mw in
  Qabs (match t with O => 0 | S t' => cell out t' s end) <= Qabs mw.
Proof.
  intros Hrect Ht Hs out. destruct t as [|t'].
  - change (Qabs 0) with 0. apply Qabs_nonneg.
  - subst out. rewrite rate_limit_time_cell by (assumption || lia).
    apply rate_limit_cell_capped.
Qed.

(** X4. Rate limiter, one bar: when the target of a name is within the cap,
    the executed weight lies between the weight executed at the bar before
    (zero before the first bar) and the target, and what is left of the
    distance to the target is the distance before less the step, floored at
    zero. *)
Theorem rate_limit_time_approach :
  forall (w_target : frame) (step_bps max_w : Q) (t s : nat),
    rect w_target -> (t < length w_target)%nat -> (s < ncols w_target)%nat ->
    Qabs (cell w_target t s) <= Qabs max_w ->
    let out := rate_limit_time w_target step_bps max_w in
    let step := step_bps / 10000 in
    let prev := match t with O => 0 | S t' => cell out t' s end in
    Qabs (cell w_target t s - cell out t s)
    == Qmax 0 (Qabs (cell w_target t s - prev) - Qabs step)
    /\ Qmin prev (cell w_target t s) <= cell out t s <= Qmax prev (cell w_target t s).
Proof.
  intros w b mw t s Hrect Ht Hs Hcap out step prev.
  pose proof (rate_limit_time_cell w b mw t s Hrect Ht Hs) as E.
  pose proof (rate_limit_time_prev_capped w b mw t s Hrect Ht Hs) as P.
  cbv zeta in E, P. fold out in E, P. fold prev in E, P. fold step in E.
  rewrite E. now apply rate_limit_cell_approach.
Qed.

Lemma rate_limit_time_approach_witness :
  let w := [[1 # 100; -1 # 100]; [1 # 100; 0]] in
  let out := rate_limit_time w 60 (1 # 50) in
  Qabs (cell w 1 0 - cell out 1 0)
  == Qmax 0 (Qabs (cell w 1 0 - cell out 0 0) - Qabs (60 / 10000))
  /\ Qmin (cell out 0 0) (cell w 1 0) <= cell out 1 0 <= Qmax (cell out 0 0) (cell w 1 0).
Proof.
  intros w out.
  apply (rate_limit_time_approach w 60 (1 # 50) 1 0);
    [repeat constructor|simpl; lia|simpl; lia|vm_compute; discriminate].
Defined.

Lemma rate_limit_step_wide (step mw : Q) :
  2 * Qabs mw <= Qabs step ->
  forall (prev target : row),
    length prev = length target ->
    Forall (fun x => Qabs x <= Qabs mw) prev ->
    Forall (fun x => Qabs x <= Qabs mw) target ->
    Forall2 Qeq (rate_limit_step step mw prev target) target.
Proof.
  intros Hs. induction prev as [|p prev IH]; intros [|r target] Hl Hp Hr;
    try discriminate; [constructor|].
  inversion Hp as [|? ? Hp0 Hp']; inversion Hr as [|? ? Hr0 Hr']; subst.
  unfold rate_limit_step. cbn [zipw map].
  fold (rate_limit_step step mw prev target).
  constructor; [|apply IH; auto].
  destruct (rate_limit_cell_approach step mw p r Hp0 Hr0) as [Hd _].
  unfold rate_limit_cell in Hd.
  set (e := clip (- mw) mw (p + clip (- step) step (r - p))) in *.
  assert (Hpr : Qabs (r - p) <= 2 * Qabs mw).
  { apply Qabs_bound. pose proof (Qabs_lower p). pose proof (Qabs_lower r). lra. }
  assert (Hz : Qabs (r - e) == 0).
  { rewrite Hd. destruct (Q.max_spec 0 (Qabs (r - p) - Qabs step)) as [[? E]|[? E]];
      rewrite E; lra. }
  revert Hz. apply Qabs_case; intros; lra.
Qed.

Lemma rate_limit_step_all_capped (step mw : Q) (prev target : row) :
  Forall (fun x => Qabs x <= Qabs mw) (rate_limit_step step mw prev target).
Proof.
  unfold rate_limit_step. apply Forall_map, Forall_forall. intros x _.
  pose proof (clip_between (- mw) mw x).
  pose proof (sym_min_abs mw). pose proof (sym_max_abs mw).
  apply Qabs_bound. lra.
Qed.

Lemma rate_limit_loop_wide (step mw : Q) (n : nat) :
  2 * Qabs mw <= Qabs step ->
  forall (todo : frame) (prev : row),
    length prev = n -> Forall (fun r => length r = n) todo ->
    Forall (fun x => Qabs x <= Qabs mw) prev ->
    Forall (Forall (fun x => Qabs x <= Qabs mw)) todo ->
    Forall2 (Forall2 Qeq) (rate_limit_loop step mw prev todo []) todo.
Proof.
  intros Hs. induction todo as [|r todo IH]; intros prev Hl Hw Hp Hc; [constructor|].
  rewrite rate_limit_loop_cons.
  inversion Hw as [|? ? Hr Hrest]; clear Hw.
  inversion Hc as [|? ? Hc0 Hc']; clear Hc. subst.
  constructor.
  - apply rate_limit_step_wide; auto.
  - apply IH; auto.
    + rewrite rate_limit_step_length; congruence.
    + apply rate_limit_step_all_capped.
Qed.

(** X5. A step of at least twice the cap never binds: when every target is
    within the cap, [rate_limit_time] returns the targets. *)
Theorem rate_limit_time_wide_step :
  forall (w_target : frame) (step_bps max_w : Q),
    rect w_target ->
    Forall (Forall (fun x => Qabs x <= Qabs max_w)) w_target ->
    2 * Qabs max_w <= Qabs (step_bps / 10000) ->
    Forall2 (Forall2 Qeq) (rate_limit_time w_target step_bps max_w) w_target.
Proof.
  intros w b mw Hrect Hc Hs. unfold rate_limit_time.
  apply (rate_limit_loop_wide _ _ (ncols w)); auto.
  - apply zeros_length.
  - unfold zeros. apply Forall_forall. intros x Hx. apply repeat_spec in Hx. subst.
    change (Qabs 0) with 0. apply Qabs_nonneg.
Qed.

Lemma rate_limit_time_wide_step_witness :
  Forall2 (Forall2 Qeq)
    (rate_limit_time [[1 # 100; -1 # 100]; [-1 # 100; 0]] 400 (1 # 50))
    [[1 # 100; -1 # 100]; [-1 # 100; 0]].
Proof.
  apply rate_limit_time_wide_step.
  - repeat constructor.
  - repeat constructor; vm_compute; discriminate.
  - vm_compute; discriminate.
Defined.

Lemma Qmax_zero_step (d k s : Q) :
  0 <= s -> 0 <= k ->
  Qmax 0 (Qmax 0 (d - k * s) - s) == Qmax 0 (d - (k + 1) * s).
Proof.
  intros Hs Hk.
  destruct (Q.max_spec 0 (d - k * s)) as [[? E]|[? E]]; rewrite E;
    destruct (Q.max_spec 0 (d - (k + 1) * s)) as [[? E1]|[? E1]]; rewrite E1;
    match goal with
    | |- Qmax 0 ?x == _ => destruct (Q.max_spec 0 x) as [[? E2]|[? E2]]; rewrite E2
    end; lra.
Qed.

(** X6. A target within the cap that is held for n + 1 bars is approached
    by one step per bar: after these bars the distance left is the distance at
    the start less n + 1 steps, floored at zero. *)
Theorem rate_limit_time_reaches_held_target :
  forall (w_target : frame) (step_bps max_w c : Q) (t0 n s : nat),
    rect w_target -> (t0 + n < length w_target)%nat -> (s < ncols w_target)%nat ->
    Qabs c <= Qabs max_w ->
    (forall i, (i <= n)%nat -> cell w_target (t0 + i) s == c) ->
    let out := rate_limit_time w_target step_bps max_w in
    let step := step_bps / 10000 in
    let prev := match t0 with O => 0 | S t' => cell out t' s end in
    Qabs (c - cell out (t0 + n) s)
    == Qmax 0 (Qabs (c - prev) - inject_Z (Z.of_nat (S n)) * Qabs step).
Proof.
  intros w b mw c t0 n s Hrect Ht Hs Hc Hheld out step prev.
  assert (Hone : forall t, (t < length w)%nat -> cell w t s == c ->
            Qabs (c - cell out t s)
            == Qmax 0 (Qabs (c - match t with O => 0 | S t' => cell out t' s end)
                       - Qabs step)).
  { intros t Hlt Heq.
    pose proof (rate_limit_time_cell w b mw t s Hrect Hlt Hs) as E.
    pose proof (rate_limit_time_prev_capped w b mw t s Hrect Hlt Hs) as P.
    cbv zeta in E, P. fold out in E, P. fold step in E.
    set (p := match t with O => 0 | S t' => cell out t' s end) in *.
    rewrite E.
    assert (Hr : rate_limit_cell step mw p (cell w t s) == rate_limit_cell step mw p c)
      by (apply rate_limit_cell_proper; [reflexivity|exact Heq]).
    destruct (rate_limit_cell_approach step mw p c P Hc) as [Hd _].
    rewrite Hr. exact Hd. }
  induction n as [|n IH].
  - rewrite Nat.add_0_r. rewrite (Hone t0) by (try lia; rewrite <- (Nat.add_0_r t0); apply Hheld; lia).
    fold prev. change (inject_Z (Z.of_nat 1)) with 1.
    assert (E : Qabs (c - prev) - 1 * Qabs step == Qabs (c - prev) - Qabs step) by lra.
    now rewrite E.
  - replace (t0 + S n)%nat with (S (t0 + n)) by lia.
    rewrite (Hone (S (t0 + n))) by (try lia; replace (S (t0 + n)) with (t0 + S n)%nat by lia; apply Hheld; lia).
    rewrite IH by (try lia; intros i Hi; apply Hheld; lia).
    rewrite Qmax_zero_step.
    + assert (E : inject_Z (Z.of_nat (S n)) + 1 == inject_Z (Z.of_nat (S (S n)))).
      { rewrite (Nat2Z.inj_succ (S n)). unfold Z.succ. rewrite inject_Z_plus.
        change (inject_Z 1) with 1. lra. }
      now rewrite E.
    + apply Qabs_nonneg.
    + change 0 with (inject_Z 0). rewrite <- Zle_Qle. lia.
Qed.

Lemma rate_limit_time_reaches_held_target_witness :
  let w := [[1 # 100]; [1 # 100]; [1 # 100]] in
  Qabs ((1 # 100) - cell (rate_limit_time w 40 (1 # 50)) 2 0)
  == Qmax 0 (Qabs ((1 # 100) - 0) - inject_Z (Z.of_nat 3) * Qabs (40 / 10000)).
Proof.
  intros w.
  apply (rate_limit_time_reaches_held_target w 40 (1 # 50) (1 # 100) 0 2 0).
  - repeat constructor.
  - simpl; lia.
  - simpl; lia.
  - vm_compute; discriminate.
  - intros [|[|[|i]]] Hi; try lia; reflexivity.
Defined.

(** ** Grid snapping *)

Lemma round_half_even_error (x : Q) : Qabs (inject_Z (round_half_even x) - x) <= 1 # 2.
Proof.
  unfold round_half_even.
  pose proof (Qfloor_le x) as Hlo. pose proof (Qlt_floor x) as Hhi.
  rewrite inject_Z_plus in Hhi. change (inject_Z 1) with 1 in Hhi.
  destruct (Qcompare (x - inject_Z (Qfloor x)) (1 # 2)) eqn:E.
  - apply Qeq_alt in E.
    destruct (Z.even (Qfloor x)); [|rewrite inject_Z_plus; change (inject_Z 1) with 1];
      apply Qabs_bound; lra.
  - apply Qlt_alt in E. apply Qabs_bound; lra.
  - apply Qgt_alt in E. rewrite inject_Z_plus. change (inject_Z 1) with 1.
    apply Qabs_bound; lra.
Qed.

Lemma Forall2_map_self {A : Type} (P : A -> A -> Prop) (f : A -> A) (l : list A) :
  (forall x, P (f x) x) -> Forall2 P (map f l) l.
Proof. intros H. induction l as [|x l IH]; cbn [map]; constructor; auto. Qed.

Lemma grid_cell (g x : Q) :
  0 < g ->
  Qabs (inject_Z (round_half_even (x / g)) * g - x) <= g / 2.
Proof.
  intros Hg.
  pose proof (round_half_even_error (x / g)) as H.
  set (k := inject_Z (round_half_even (x / g))) in *.
  assert (E : k * g - x == (k - x / g) * g) by (field; lra).
  rewrite E, Qabs_Qmult.
  rewrite (Qabs_pos g) by lra.
  generalize dependent (Qabs (k - x / g)). intros a Ha.
  assert (E' : g / 2 == (1 # 2) * g) by (field; lra).
  rewrite E'. apply Qmult_le_compat_r; lra.
Qed.

(** X7. Grid mode: every executed weight is an integer multiple of
    g = max(1e-8, grid_bps / 1e4) and lies within g / 2 of its target. *)
Theorem grid_snaps_within_half_step :
  forall (cfg : config) (w_target : frame),
    mode cfg = Grid ->
    let g := Qmax (1 # 100000000) (grid_bps cfg / 10000) in
    Forall2 (Forall2 (fun e x => Qabs (e - x) <= g / 2
                                 /\ exists k : Z, e == inject_Z k * g))
            (execute cfg w_target) w_target.
Proof.
  intros cfg w Hm g. unfold execute. rewrite Hm.
  set (g' := if Qlt_bool (1 # 100000000) (grid_bps cfg / 10000)
             then grid_bps cfg / 10000 else 1 # 100000000).
  assert (Hg : g' == g).
  { subst g g'. unfold Qlt_bool.
    destruct (Qle_bool (grid_bps cfg / 10000) (1 # 100000000)) eqn:E; cbn [negb].
    - apply Qle_bool_iff in E. symmetry. now apply Q.max_l.
    - apply Qle_bool_false in E. symmetry. apply Q.max_r. lra. }
  assert (Hpos : 0 < g').
  { rewrite Hg. subst g.
    pose proof (Q.le_max_l (1 # 100000000) (grid_bps cfg / 10000)). lra. }
  clearbody g g'.
  apply Forall2_map_self. intros r. apply Forall2_map_self. intros x. cbv beta. split.
  - apply Qle_trans with (g' / 2); [now apply grid_cell|].
    assert (E1 : g' / 2 == (1 # 2) * g') by field.
    assert (E2 : g / 2 == (1 # 2) * g) by field.
    lra.
  - exists (round_half_even (x / g')). apply Qmult_comp; [reflexivity|exact Hg].
Qed.

Lemma grid_snaps_within_half_step_witness :
  let cfg := mkConfig 1 1 10 0 0 Grid 100 0 25 1 Momentum 1 (3 # 10) (55 # 100) in
  Forall2 (Forall2 (fun e x => Qabs (e - x) <= Qmax (1 # 100000000) (25 / 10000) / 2
                               /\ exists k : Z,
                                   e == inject_Z k * Qmax (1 # 100000000) (25 / 10000)))
          (execute cfg [[4 # 1000; - (1 # 1000)]]) [[4 # 1000; - (1 # 1000)]].
Proof.
  intros cfg. apply (grid_snaps_within_half_step cfg). reflexivity.
Defined.

(** ** Sticky membership, cell by cell *)

Lemma sticky_membership_body (score : nframe) (q_in q_out : Q) (um : option (list bool))
      (m : mframe) :
  sticky_membership score q_in q_out um = Ok m ->
  q_in <= q_out /\ score <> [] /\ m = sticky_body score q_in q_out (mask_of um score).
Proof.
  unfold sticky_membership.
  destruct (Qle_bool q_in q_out) eqn:E; cbn [negb]; [|discriminate].
  apply Qle_bool_iff in E.
  destruct score as [|r score]; [discriminate|].
  intros [= <-]. repeat split; auto. discriminate.
Qed.

Lemma ffill_row_nth {A : Type} (last r : list (option A)) (s : nat) :
  (s < length last)%nat -> (s < length r)%nat ->
  nth s (ffill_row last r) None
  = match nth s r None with Some v => Some v | None => nth s last None end.
Proof.
  intros Hl Hr. unfold ffill_row.
  rewrite (nth_zipw _ None None None) by assumption.
  now destruct (nth s r None).
Qed.

Lemma ffill_from_cell {A : Type} (n : nat) :
  forall (m : list (list (option A))) (last : list (option A)) (t s : nat),
    length last = n -> Forall (fun r => length r = n) m ->
    (t < length m)%nat -> (s < n)%nat ->
    nth s (nth t (ffill_from last m) []) None
    = match nth s (nth t m []) None with
      | Some v => Some v
      | None => nth s (match t with
                       | O => last
                       | S t' => nth t' (ffill_from last m) []
                       end) None
      end.
Proof.
  induction m as [|r m IH]; intros last t s Hl Hw Ht Hs; [simpl in Ht; lia|].
  inversion Hw as [|? ? Hr Hrest]; clear Hw.
  cbn [ffill_from]. destruct t as [|t'].
  - cbn [nth]. apply ffill_row_nth; lia.
  - cbn [nth]. rewrite IH; try assumption.
    + destruct t'; reflexivity.
    + rewrite ffill_row_length; congruence.
    + simpl in Ht. lia.
Qed.

Lemma sticky_raw_length (score : nframe) (q_in q_out : Q) (mask : list bool) :
  length (sticky_raw score q_in q_out mask) = length score.
Proof. unfold sticky_raw. now rewrite sticky_loop_length, length_map. Qed.

Lemma sticky_raw_widths (score : nframe) (q_in q_out : Q) (mask : list bool) :
  rect score ->
  Forall (fun r => length r = ncols score) (sticky_raw score q_in q_out mask).
Proof.
  intros H. unfold sticky_raw. apply sticky_loop_widths.
  - apply repeat_length.
  - apply Forall_map. eapply Forall_impl; [|exact H].
    cbn. intros r Hr. now rewrite rank_pct_length.
Qed.

Lemma sticky_body_raw (score : nframe) (q_in q_out : Q) (mask : list bool) :
  sticky_body score q_in q_out mask
  = fillna 0%Z (ffill (replace_zero_nan (sticky_raw score q_in q_out mask))).
Proof. reflexivity. Qed.

(** A cell of the returned membership is the cell the loop wrote when that
    is not zero, and otherwise the returned cell of the bar before. *)
Lemma sticky_body_cell (score : nframe) (q_in q_out : Q) (mask : list bool) (t s : nat) :
  rect score -> (t < length score)%nat -> (s < ncols score)%nat ->
  let out := sticky_body score q_in q_out mask in
  let raw := mcell (sticky_raw score q_in q_out mask) t s in
  mcell out t s
  = if (raw =? 0)%Z
    then match t with O => 0%Z | S t' => mcell out t' s end
    else raw.
Proof.
  intros Hrect Ht Hs out raw. subst out raw.
  set (n := ncols score) in *.
  pose proof (sticky_raw_widths score q_in q_out mask Hrect) as HW.
  pose proof (sticky_raw_length score q_in q_out mask) as HL.
  fold n in HW.
  set (R := sticky_raw score q_in q_out mask) in *.
  assert (HRW : Forall (fun r => length r = n) (replace_zero_nan R)).
  { unfold replace_zero_nan. apply Forall_map. eapply Forall_impl; [|exact HW].
    cbn. intros r Hr. now rewrite length_map. }
  assert (HRL : length (replace_zero_nan R) = length score)
    by (unfold replace_zero_nan; now rewrite length_map).
  assert (Hn : ncols (replace_zero_nan R) = n).
  { destruct (replace_zero_nan R) as [|r0 rest] eqn:E.
    - simpl in HRL. lia.
    - inversion HRW; assumption. }
  assert (HF : forall t0, (t0 < length score)%nat ->
             mcell (sticky_body score q_in q_out mask) t0 s
             = fill0 (nth s (nth t0 (ffill (replace_zero_nan R)) []) None)).
  { intros t0 Ht0. rewrite sticky_body_raw. fold R. unfold mcell, fillna.
    assert (Hlen : (t0 < length (ffill (replace_zero_nan R)))%nat)
      by (unfold ffill; rewrite ffill_from_length; lia).
    rewrite (nth_map_in _ [] []) by exact Hlen.
    assert (Hrow : length (nth t0 (ffill (replace_zero_nan R)) []) = n).
    { apply (Forall_nth_len (fun r => length r = n)); [|exact Hlen].
      now apply ffill_widths. }
    rewrite (nth_map_in _ None 0%Z) by lia.
    reflexivity. }
  rewrite HF by exact Ht.
  unfold ffill at 1. rewrite Hn.
  rewrite (ffill_from_cell n) by (rewrite ?repeat_length; auto; lia).
  assert (Hcell : nth s (nth t (replace_zero_nan R) []) None
                  = if (mcell R t s =? 0)%Z then None else Some (mcell R t s)).
  { unfold replace_zero_nan, mcell.
    rewrite (nth_map_in _ [] []) by lia.
    assert (Hrow : length (nth t R []) = n)
      by (apply (Forall_nth_len (fun r => length r = n)); [exact HW|lia]).
    now rewrite (nth_map_in _ 0%Z None) by lia. }
  rewrite Hcell.
  destruct (mcell R t s =? 0)%Z; [|reflexivity].
  destruct t as [|t'].
  - now rewrite nth_repeat.
  - rewrite HF by lia. unfold ffill. now rewrite Hn.
Qed.

Lemma sticky_cell_range (q_in q_out : Q) (prev : Z) (r : option Q) :
  let c := sticky_cell q_in q_out prev r in (c = 1 \/ c = 0 \/ c = -1)%Z.
Proof.
  unfold sticky_cell. cbv zeta.
  repeat match goal with
         | |- context [if ?b then _ else _] => destruct b
         end; auto.
Qed.

Lemma sticky_cell_nan (q_in q_out : Q) (prev : Z) : sticky_cell q_in q_out prev None = 0%Z.
Proof. unfold sticky_cell. now rewrite !andb_false_r. Qed.

(** Row [t] of the loop's matrix: the decisions of an update bar, zeros at
    any other bar. *)
Lemma sticky_loop_row (q_in q_out : Q) :
  forall (ranks : nframe) (prev : mrow) (mask : list bool) (t : nat),
    (t < length ranks)%nat ->
    exists p,
      nth t (sticky_loop q_in q_out prev ranks mask) []
      = if nth t mask false
        then zipw (sticky_cell q_in q_out) p (nth t ranks [])
        else map (fun _ => 0%Z) (nth t ranks []).
Proof.
  induction ranks as [|r ranks IH]; intros prev mask t Ht; [simpl in Ht; lia|].
  cbn [sticky_loop]. destruct t as [|t'].
  - exists prev. destruct mask as [|[|] mask]; reflexivity.
  - simpl in Ht.
    destruct mask as [|b mask].
    + cbn [nth tl]. destruct (IH prev [] t') as [p Hp]; [lia|].
      exists p. rewrite Hp. now destruct t'.
    + cbn [tl]. destruct b; cbn [nth]; apply IH; lia.
Qed.

Lemma sticky_raw_cell_range (score : nframe) (q_in q_out : Q) (mask : list bool) (t s : nat) :
  let c := mcell (sticky_raw score q_in q_out mask) t s in (c = 1 \/ c = 0 \/ c = -1)%Z.
Proof.
  cbv zeta. unfold mcell, sticky_raw.
  destruct (Nat.lt_ge_cases t (length (map rank_pct score))) as [Ht|Ht].
  - destruct (sticky_loop_row q_in q_out (map rank_pct score)
                (repeat 0%Z (ncols score)) mask t Ht) as [p Hp].
    rewrite Hp. destruct (nth t mask false).
    + destruct (Nat.lt_ge_cases s (length (zipw (sticky_cell q_in q_out) p
                                              (nth t (map rank_pct score) []))))
        as [Hs|Hs].
      * rewrite zipw_length in Hs.
        rewrite (nth_zipw _ 0%Z None 0%Z) by lia. apply sticky_cell_range.
      * rewrite nth_overflow by exact Hs. auto.
    + destruct (Nat.lt_ge_cases s (length (nth t (map rank_pct score) []))) as [Hs|Hs].
      * rewrite (nth_map_in _ None 0%Z) by exact Hs. auto.
      * rewrite nth_overflow by (rewrite length_map; exact Hs). auto.
  - rewrite (nth_overflow _ []) by (rewrite sticky_loop_length; exact Ht).
    destruct s; auto.
Qed.

Lemma sticky_body_cell_range (score : nframe) (q_in q_out : Q) (mask : list bool) :
  rect score ->
  forall t s : nat,
    let c := mcell (sticky_body score q_in q_out mask) t s in (c = 1 \/ c = 0 \/ c = -1)%Z.
Proof.
  intros Hrect t s. cbv zeta.
  destruct (Nat.lt_ge_cases t (length score)) as [Ht|Ht].
  2:{ unfold mcell. rewrite (nth_overflow _ []) by (rewrite sticky_body_length; exact Ht).
      destruct s; auto. }
  destruct (Nat.lt_ge_cases s (ncols score)) as [Hs|Hs].
  2:{ unfold mcell. rewrite nth_overflow; auto.
      rewrite (Forall_nth_len (fun r => length r = ncols score)); auto.
      - now apply sticky_body_widths.
      - now rewrite sticky_body_length. }
  induction t as [|t IH].
  - rewrite sticky_body_cell by assumption.
    pose proof (sticky_raw_cell_range score q_in q_out mask 0 s) as H. cbv zeta in H.
    destruct (_ =? 0)%Z; auto.
  - rewrite sticky_body_cell by assumption.
    pose proof (sticky_raw_cell_range score q_in q_out mask (S t) s) as H. cbv zeta in H.
    destruct (_ =? 0)%Z; auto. apply IH. lia.
Qed.

(** X8. Whenever [sticky_membership] returns, the frame it returns has the
    shape of [score] and every cell of it is 1, 0 or -1. *)
Theorem sticky_membership_shape_and_values :
  forall (score : nframe) (q_in q_out : Q) (update_mask : option (list bool)) (m : mframe),
    sticky_membership score q_in q_out update_mask = Ok m ->
    rect score ->
    length m = length score
    /\ Forall (fun r => length r = ncols score) m
    /\ forall t s : nat, (mcell m t s = 1 \/ mcell m t s = 0 \/ mcell m t s = -1)%Z.
Proof.
  intros score q_in q_out um m H Hrect.
  apply sticky_membership_body in H as (_ & _ & ->).
  split; [apply sticky_body_length|].
  split; [now apply sticky_body_widths|].
  intros t s. now apply sticky_body_cell_range.
Qed.

Lemma sticky_membership_shape_and_values_witness :
  exists m,
    sticky_membership [[Some 1; Some 2; None]; [Some 2; Some 1; Some 3]]
                      (3 # 10) (55 # 100) None = Ok m
    /\ length m = 2%nat
    /\ Forall (fun r => length r = 3%nat) m
    /\ forall t s : nat, (mcell m t s = 1 \/ mcell m t s = 0 \/ mcell m t s = -1)%Z.
Proof.
  destruct (sticky_membership [[Some 1; Some 2; None]; [Some 2; Some 1; Some 3]]
              (3 # 10) (55 # 100) None) as [m|e] eqn:H; [|vm_compute in H; discriminate].
  exists m. split; [reflexivity|].
  apply (sticky_membership_shape_and_values _ _ _ _ _ H). repeat constructor.
Defined.

(** X9. Last line of [sticky_membership], cell by cell: the returned cell
    is what the loop wrote when that is not zero; when the loop left a zero
    (the bar is no update bar, or the decision was flat) the returned cell
    repeats the returned cell of the bar before, zero at the first bar. *)
Theorem sticky_membership_carries_last_decision :
  forall (score : nframe) (q_in q_out : Q) (update_mask : option (list bool)) (m : mframe)
         (t s : nat),
    sticky_membership score q_in q_out update_mask = Ok m ->
    rect score -> (t < length score)%nat -> (s < ncols score)%nat ->
    let raw := mcell (sticky_raw score q_in q_out (mask_of update_mask score)) t s in
    let prev := match t with O => 0%Z | S t' => mcell m t' s end in
    (raw <> 0%Z -> mcell m t s = raw)
    /\ (raw = 0%Z -> mcell m t s = prev).
Proof.
  intros score q_in q_out um m t s H Hrect Ht Hs raw prev.
  apply sticky_membership_body in H as (_ & _ & ->).
  pose proof (sticky_body_cell score q_in q_out (mask_of um score) t s Hrect Ht Hs) as E.
  cbv zeta in E. fold raw in E. fold prev in E. rewrite E.
  destruct (raw =? 0)%Z eqn:Z0.
  - apply Z.eqb_eq in Z0. split; [intros Hn; contradiction|reflexivity].
  - apply Z.eqb_neq in Z0. split; [reflexivity|intros Hz; contradiction].
Qed.

Lemma sticky_membership_carries_last_decision_witness :
  let score := [[Some 1; Some 2; Some 3; Some 4];
                [Some 1; Some 3; Some 2; Some 4]] in
  exists m,
    sticky_membership score (1 # 4) (35 # 100) None = Ok m
    /\ mcell m 1 2 = mcell m 0 2.
Proof.
  intros score.
  destruct (sticky_membership score (1 # 4) (35 # 100) None) as [m|e] eqn:H;
    [|vm_compute in H; discriminate].
  exists m. split; [reflexivity|].
  apply (sticky_membership_carries_last_decision score (1 # 4) (35 # 100) None m 1 2 H).
  - repeat constructor.
  - simpl; lia.
  - simpl; lia.
  - vm_compute. reflexivity.
Defined.

(** X10. At a bar that [update_mask] excludes, the returned membership row
    repeats the row of the bar before; it is all zero at the first bar. *)
Theorem sticky_membership_holds_between_updates :
  forall (score : nframe) (q_in q_out : Q) (um : list bool) (m : mframe) (t : nat),
    sticky_membership score q_in q_out (Some um) = Ok m ->
    rect score -> (t < length score)%nat ->
    nth t um false = false ->
    nth t m [] = match t with
                 | O => repeat 0%Z (ncols score)
                 | S t' => nth t' m []
                 end.
Proof.
  intros score q_in q_out um m t H Hrect Ht Hum.
  apply sticky_membership_body in H as (_ & _ & ->). cbn [mask_of].
  pose proof (sticky_body_widths score q_in q_out um (ncols score) Hrect) as HW.
  pose proof (sticky_body_length score q_in q_out um) as HL.
  assert (Hrow : forall t0, (t0 < length score)%nat ->
             length (nth t0 (sticky_body score q_in q_out um) []) = ncols score).
  { intros t0 Ht0. apply (Forall_nth_len (fun r => length r = ncols score)); [exact HW|lia]. }
  apply (nth_ext _ _ 0%Z 0%Z).
  - rewrite Hrow by exact Ht. destruct t as [|t']; [now rewrite repeat_length|].
    rewrite Hrow; [reflexivity|lia].
  - intros s Hs. rewrite Hrow in Hs by exact Ht.
    pose proof (sticky_body_cell score q_in q_out um t s Hrect Ht Hs) as E.
    cbv zeta in E. unfold mcell at 1 in E. rewrite E.
    assert (Hz : mcell (sticky_raw score q_in q_out um) t s = 0%Z).
    { unfold mcell, sticky_raw.
      destruct (sticky_loop_row q_in q_out (map rank_pct score)
                  (repeat 0%Z (ncols score)) um t) as [p Hp];
        [rewrite length_map; exact Ht|].
      rewrite Hp, Hum.
      destruct (Nat.lt_ge_cases s (length (nth t (map rank_pct score) []))) as [Hl|Hl].
      - now rewrite (nth_map_in _ None 0%Z) by exact Hl.
      - apply nth_overflow. now rewrite length_map. }
    rewrite Hz. cbn [Z.eqb].
    destruct t as [|t']; [now rewrite nth_repeat|reflexivity].
Qed.

Lemma sticky_membership_holds_between_updates_witness :
  let score := [[Some 1; Some 2; Some 3; Some 4];
                [Some 4; Some 3; Some 2; Some 1]] in
  exists m,
    sticky_membership score (1 # 4) (35 # 100) (Some [true; false]) = Ok m
    /\ nth 1 m [] = nth 0 m [].
Proof.
  intros score.
  destruct (sticky_membership score (1 # 4) (35 # 100) (Some [true; false])) as [m|e] eqn:H;
    [|vm_compute in H; discriminate].
  exists m. split; [reflexivity|].
  apply (sticky_membership_holds_between_updates score (1 # 4) (35 # 100) _ m 1 H).
  - repeat constructor.
  - simpl; lia.
  - reflexivity.
Defined.

(** X11. Once the returned membership of a name is not zero, it is not zero
    at any later bar. *)
Theorem sticky_membership_never_returns_to_flat :
  forall (score : nframe) (q_in q_out : Q) (update_mask : option (list bool)) (m : mframe)
         (t t' s : nat),
    sticky_membership score q_in q_out update_mask = Ok m ->
    rect score -> (t <= t')%nat -> (t' < length score)%nat ->
    mcell m t s <> 0%Z ->
    mcell m t' s <> 0%Z.
Proof.
  intros score q_in q_out um m t t' s H Hrect Hle Ht' Hnz.
  apply sticky_membership_body in H as (_ & _ & ->).
  assert (Hs : (s < ncols score)%nat).
  { destruct (Nat.lt_ge_cases s (ncols score)) as [Hs|Hs]; [exact Hs|].
    exfalso. apply Hnz. unfold mcell. apply nth_overflow.
    rewrite (Forall_nth_len (fun r => length r = ncols score)); auto.
    - now apply sticky_body_widths.
    - rewrite sticky_body_length. lia. }
  induction Hle as [|t' Hle IH]; [exact Hnz|].
  rewrite sticky_body_cell by assumption.
  destruct (_ =? 0)%Z eqn:Z0.
  - apply IH. lia.
  - now apply Z.eqb_neq in Z0.
Qed.

Lemma sticky_membership_never_returns_to_flat_witness :
  let score := [[Some 1; Some 2; Some 3; Some 4];
                [Some 1; Some 3; Some 2; Some 4];
                [Some 1; Some 3; None; Some 4]] in
  exists m,
    sticky_membership score (1 # 4) (35 # 100) None = Ok m
    /\ mcell m 2 2 <> 0%Z.
Proof.
  intros score.
  destruct (sticky_membership score (1 # 4) (35 # 100) None) as [m|e] eqn:H;
    [|vm_compute in H; discriminate].
  exists m. split; [reflexivity|].
  apply (sticky_membership_never_returns_to_flat score (1 # 4) (35 # 100) None m 0 2 2 H).
  - repeat constructor.
  - lia.
  - simpl; lia.
  - injection H as <-. vm_compute. discriminate.
Defined.

(** ** Reshaping *)

Lemma same_key_iff (t : Z) (s : string) (b : bar) :
  same_key t s b = true <-> datetime b = t /\ symbol b = s.
Proof.
  unfold same_key. rewrite andb_true_iff, Z.eqb_eq, String.eqb_eq. reflexivity.
Qed.

Lemma existsb_same_key (b : bar) (l : list bar) :
  existsb (same_key (datetime b) (symbol b)) l = true <-> In (bar_key b) (map bar_key l).
Proof.
  rewrite existsb_exists, in_map_iff. split.
  - intros [x [Hx Hk]]. apply same_key_iff in Hk as [Hd Hs].
    exists x. split; [|exact Hx]. unfold bar_key. now rewrite Hd, Hs.
  - intros [x [Hk Hx]]. exists x. split; [exact Hx|].
    apply same_key_iff. unfold bar_key in Hk. now injection Hk.
Qed.

Lemma has_dup_false_iff (df : list bar) : has_dup df = false <-> NoDup (map bar_key df).
Proof.
  induction df as [|b df IH]; cbn [has_dup map].
  - split; [constructor|reflexivity].
  - rewrite orb_false_iff. split.
    + intros [He Hd]. constructor; [|now apply IH].
      intros Hin. apply existsb_same_key in Hin. congruence.
    + intros Hnd. inversion Hnd as [|? ? Hnin Hrest]; subst. split; [|now apply IH].
      destruct (existsb _ df) eqn:E; [|reflexivity].
      exfalso. apply Hnin. now apply existsb_same_key.
Qed.

(** X12. [to_wide] raises the ValueError of [pivot] exactly when two rows of
    the long table share their (datetime, symbol) pair, and returns a table
    otherwise. *)
Theorem to_wide_fails_exactly_on_duplicates :
  forall (df : list bar) (col : bar -> Q),
    (NoDup (map bar_key df) -> exists w, to_wide df col = Ok w)
    /\ (~ NoDup (map bar_key df) ->
        to_wide df col = Err (ValueError "Index contains duplicate entries, cannot reshape")).
Proof.
  intros df col. unfold to_wide. split.
  - intros H. apply has_dup_false_iff in H. rewrite H. eexists. reflexivity.
  - intros H. destruct (has_dup df) eqn:E; [reflexivity|].
    exfalso. apply H. now apply has_dup_false_iff.
Qed.

Lemma Z_compare_gt (x y : Z) : Z.compare x y = Gt -> Z.compare y x = Lt.
Proof. intros H. apply Z.compare_gt_iff in H. now apply Z.compare_lt_iff. Qed.

Lemma Z_compare_trans (x y z : Z) :
  Z.compare x y = Lt -> Z.compare y z = Lt -> Z.compare x z = Lt.
Proof. rewrite !Z.compare_lt_iff. lia. Qed.

Lemma to_wide_fields (df : list bar) (col : bar -> Q) (w : wide) :
  to_wide df col = Ok w ->
  has_dup df = false
  /\ index w = sort_uniq Z.compare (map datetime df)
  /\ columns w = sort_uniq String.compare (map symbol df)
  /\ values w
     = map (fun t => map (fun s => option_map col (find (same_key t s) df)) (columns w))
           (index w).
Proof.
  unfold to_wide. destruct (has_dup df); [discriminate|].
  intros [= <-]. cbn. auto.
Qed.

(** X13. The table [to_wide] returns: its index is strictly increasing and
    holds exactly the datetimes of the input, its columns are strictly
    increasing and hold exactly the symbols of the input, and it has one row
    per index entry and one cell per column in every row. *)
Theorem to_wide_sorted_labels_and_shape :
  forall (df : list bar) (col : bar -> Q) (w : wide),
    to_wide df col = Ok w ->
    StronglySorted Z.lt (index w)
    /\ (forall t, In t (index w) <-> exists b, In b df /\ datetime b = t)
    /\ StronglySorted (fun a b => String.compare a b = Lt) (columns w)
    /\ (forall s, In s (columns w) <-> exists b, In b df /\ symbol b = s)
    /\ length (values w) = length (index w)
    /\ Forall (fun r => length r = length (columns w)) (values w).
Proof.
  intros df col w H. apply to_wide_fields in H as (_ & Hi & Hc & Hv).
  split.
  { rewrite Hi.
    pose proof (sort_uniq_ordered Z.compare Z.compare_eq Z_compare_gt Z_compare_trans
                  (map datetime df)) as S.
    eapply StronglySorted_within with (P := fun _ => True); [| |exact S].
    - intros a b _ _ Hab. now apply Z.compare_lt_iff.
    - apply Forall_forall. auto. }
  split.
  { intros t. rewrite Hi, (sort_uniq_elem Z.compare Z.compare_eq), in_map_iff.
    split; intros [b [H1 H2]]; exists b; auto. }
  split.
  { rewrite Hc.
    apply (sort_uniq_ordered String.compare String.compare_eq_iff
             string_compare_gt string_compare_trans). }
  split.
  { intros s. rewrite Hc, (sort_uniq_elem String.compare String.compare_eq_iff), in_map_iff.
    split; intros [b [H1 H2]]; exists b; auto. }
  split.
  { rewrite Hv. apply length_map. }
  rewrite Hv. apply Forall_map, Forall_forall. intros t _. apply length_map.
Qed.

Lemma to_wide_sorted_labels_and_shape_witness :
  let df := [mkBar 34260 "B" 20 19; mkBar 34200 "A" 10 10; mkBar 34260 "A" 10 11] in
  exists w,
    to_wide df close = Ok w
    /\ StronglySorted Z.lt (index w)
    /\ length (values w) = length (index w)
    /\ Forall (fun r => length r = length (columns w)) (values w).
Proof.
  intros df.
  destruct (to_wide df close) as [w|e] eqn:H; [|vm_compute in H; discriminate].
  exists w. split; [reflexivity|].
  destruct (to_wide_sorted_labels_and_shape df close w H) as (H1 & _ & _ & _ & H5 & H6).
  auto.
Defined.

Lemma find_first_key (df : list bar) (b : bar) :
  has_dup df = false -> In b df ->
  find (same_key (datetime b) (symbol b)) df = Some b.
Proof.
  induction df as [|a df IH]; intros Hd Hin; [contradiction|].
  cbn [has_dup] in Hd. apply orb_false_iff in Hd as [He Hd].
  cbn [find]. destruct Hin as [->|Hin].
  - assert (E : same_key (datetime b) (symbol b) b = true) by now apply same_key_iff.
    now rewrite E.
  - destruct (same_key (datetime b) (symbol b) a) eqn:E; [|now apply IH].
    exfalso. apply same_key_iff in E as [E1 E2].
    assert (Hex : existsb (same_key (datetime a) (symbol a)) df = true).
    { apply existsb_exists. exists b. split; [exact Hin|].
      apply same_key_iff. auto. }
    congruence.
Qed.

Lemma wide_value_at (df : list bar) (col : bar -> Q) (w : wide) (i j : nat) (t : Z)
      (s : string) :
  to_wide df col = Ok w ->
  nth_error (index w) i = Some t -> nth_error (columns w) j = Some s ->
  nth j (nth i (values w) []) None = option_map col (find (same_key t s) df).
Proof.
  intros H Hi Hj. apply to_wide_fields in H as (_ & _ & _ & Hv). rewrite Hv.
  apply (nth_error_nth_len _ _ _ 0%Z) in Hi as [Hil Hi].
  apply (nth_error_nth_len _ _ _ ""%string) in Hj as [Hjl Hj].
  rewrite (nth_map_in _ 0%Z []) by exact Hil.
  rewrite (nth_map_in _ ""%string None) by exact Hjl.
  now rewrite Hi, Hj.
Qed.

(** X14. Round trip through [to_wide]: the value of every input row sits in
    the cell of its datetime and symbol; a cell with a value holds the value
    of an input row with that datetime and symbol; a missing cell has no such
    input row. *)
Theorem to_wide_round_trip :
  forall (df : list bar) (col : bar -> Q) (w : wide),
    to_wide df col = Ok w ->
    (forall b, In b df ->
       exists i j,
         nth_error (index w) i = Some (datetime b)
         /\ nth_error (columns w) j = Some (symbol b)
         /\ nth j (nth i (values w) []) None = Some (col b))
    /\ (forall i j t s,
          nth_error (index w) i = Some t -> nth_error (columns w) j = Some s ->
          match nth j (nth i (values w) []) None with
          | Some v => exists b, In b df /\ datetime b = t /\ symbol b = s /\ col b = v
          | None => forall b, In b df -> ~ (datetime b = t /\ symbol b = s)
          end).
Proof.
  intros df col w H.
  pose proof (to_wide_fields df col w H) as (Hd & Hi & Hc & _).
  split.
  - intros b Hb.
    assert (Ht : In (datetime b) (index w)).
    { rewrite Hi. apply (sort_uniq_elem Z.compare Z.compare_eq). now apply in_map. }
    assert (Hs : In (symbol b) (columns w)).
    { rewrite Hc. apply (sort_uniq_elem String.compare String.compare_eq_iff).
      now apply in_map. }
    apply In_nth_error in Ht as [i Ei]. apply In_nth_error in Hs as [j Ej].
    exists i, j. repeat split; try assumption.
    rewrite (wide_value_at df col w i j _ _ H Ei Ej).
    now rewrite find_first_key.
  - intros i j t s Ei Ej.
    rewrite (wide_value_at df col w i j t s H Ei Ej).
    destruct (find (same_key t s) df) as [b|] eqn:F; cbn [option_map].
    + apply find_some in F as [Hin Hk]. apply same_key_iff in Hk as [H1 H2].
      exists b. auto.
    + intros b Hin Hk. apply (find_none _ _ F) in Hin.
      apply same_key_iff in Hk. congruence.
Qed.

Lemma to_wide_round_trip_witness :
  let df := [mkBar 34260 "B" 20 19; mkBar 34200 "A" 10 10; mkBar 34260 "A" 10 11] in
  exists w i j,
    to_wide df close = Ok w
    /\ nth_error (index w) i = Some 34260%Z
    /\ nth_error (columns w) j = Some "B"%string
    /\ nth j (nth i (values w) []) None = Some 19.
Proof.
  intros df.
  destruct (to_wide df close) as [w|e] eqn:H; [|vm_compute in H; discriminate].
  destruct (to_wide_round_trip df close w H) as [Hin _].
  destruct (Hin (mkBar 34260 "B" 20 19)) as (i & j & H1 & H2 & H3); [now left|].
  exists w, i, j. auto.
Defined.

(** ** The output index *)

Lemma loc_mask_filter {A B : Type} (f : B -> bool) (g : A -> B) :
  forall l : list A, loc_mask (map f (map g l)) l = filter (fun x => f (g x)) l.
Proof.
  induction l as [|x l IH]; cbn [map loc_mask filter]; [reflexivity|].
  destruct (f (g x)); now rewrite IH.
Qed.

Lemma session_rows_filter (cfg : config) (rows : list wrow) :
  session_rows cfg rows = filter (fun r => in_session cfg (ts r)) rows.
Proof. unfold session_rows, session_mask. apply loc_mask_filter. Qed.

Lemma map_ts_wide_row (df : list bar) (cols : list string) (idx : list Z) :
  map ts (map (wide_row df cols) idx) = idx.
Proof. rewrite map_map. cbn [wide_row ts]. apply map_id. Qed.

(** X15. The result of [vector_backtest] has one row for every distinct
    datetime of the input that passes the session mask, and no other row, in
    increasing time order. *)
Theorem vector_backtest_index :
  forall (ln : Q -> Q) (df_feat : list bar) (cfg : config) (out : list out_row),
    vector_backtest ln df_feat cfg = Ok out ->
    map o_ts out
    = filter (in_session cfg) (sort_uniq Z.compare (map datetime df_feat)).
Proof.
  intros ln df cfg out H. apply vector_backtest_ok in H. subst out.
  destruct (stages_rows ln cfg
              (map (wide_row df (sort_uniq String.compare (map symbol df)))
                   (sort_uniq Z.compare (map datetime df))))
    as (_ & _ & _ & _ & _ & _ & E).
  rewrite E, session_rows_filter.
  rewrite <- (filter_map_comm ts (in_session cfg)).
  now rewrite map_ts_wide_row.
Qed.

Lemma vector_backtest_index_witness :
  let cfg := mkConfig 1 1 10 1 0 Ratelimit 100 0 0 1 Momentum 1 (3 # 10) (55 # 100) in
  let df := [mkBar 34260 "A" 10 11; mkBar 34200 "A" 10 10; mkBar 34320 "A" 11 12] in
  exists out,
    vector_backtest (fun x => x) df cfg = Ok out
    /\ map o_ts out = [34260; 34320]%Z.
Proof.
  intros cfg df.
  destruct (vector_backtest (fun x => x) df cfg) as [out|e] eqn:H;
    [|vm_compute in H; discriminate].
  exists out. split; [reflexivity|].
  rewrite (vector_backtest_index _ _ _ _ H). reflexivity.
Defined.

(** ** End-of-day flattening *)

Lemma flatten_eod_nth (e : list bool) (w : frame) (t : nat) (b : bool) (r : row) :
  nth_error e t = Some b -> nth_error w t = Some r ->
  nth t (flatten_eod e w) [] = if b then map (fun _ => 0) r else r.
Proof.
  revert w t. induction e as [|e0 e IH]; intros [|w0 w] [|t] He Hw;
    try discriminate; cbn [flatten_eod zipw nth nth_error] in *.
  - now injection He as ->; injection Hw as ->.
  - now apply IH.
Qed.

Lemma session_flag (cfg : config) (f : Z -> bool) (rows : list wrow) (t : nat) (b : wrow) :
  nth_error (session_rows cfg rows) t = Some b ->
  nth_error (loc_mask (session_mask cfg (map ts rows)) (map f (map ts rows))) t
  = Some (f (ts b)).
Proof.
  intros Hb. rewrite map_map, loc_mask_map. fold (session_rows cfg rows).
  now rewrite nth_error_map, Hb.
Qed.

Lemma zero_weights_no_return (w : row) :
  Forall (fun x => x = 0) w ->
  forall r : nrow, sum_skipna (zipw (fun x c => option_map (Qmult x) c) w r) == 0.
Proof.
  induction 1 as [|x w Hx _ IH]; intros [|c r]; cbn [zipw sum_skipna fold_right];
    try reflexivity.
  fold (sum_skipna (zipw (fun x c => option_map (Qmult x) c) w r)).
  specialize (IH r). subst x. destruct c as [v|]; cbn [option_map]; lra.
Qed.

(** X16. A session bar less than 10 minutes before the close has an
    all-zero executed weight row, and the raw return of the output row after
    it is zero. *)
Theorem end_of_day_bars_are_flat :
  forall (ln : Q -> Q) (cfg : config) (rows : list wrow) (st : stages) (t : nat) (b : wrow),
    backtest_rows ln cfg rows = Ok st ->
    nth_error (session_rows cfg rows) t = Some b ->
    minutes_to_close (ts b) < 10 ->
    Forall (fun x => x = 0) (nth t (st_w_exec st) [])
    /\ forall o, nth_error (st_out st) (S t) = Some o -> raw_ret o == 0.
Proof.
  intros ln cfg rows st t b Hrun Hb Hm.
  pose proof Hrun as Hst. apply backtest_rows_stages in Hst.
  pose proof (stages_rows ln cfg rows) as (_ & _ & _ & Hwt & Hwe & _ & _).
  cbv zeta in Hwt, Hwe. rewrite <- Hst in Hwt, Hwe.
  apply backtest_rows_ok in Hrun. cbv zeta in Hrun.
  destruct Hrun as (_ & _ & _ & _ & _ & _ & He).
  assert (Ht : (t < length (session_rows cfg rows))%nat)
    by (apply nth_error_Some; congruence).
  assert (Hflat : Forall (fun x => x = 0) (nth t (st_w_exec st) [])).
  { destruct (nth_error (execute cfg (st_w_target st)) t) as [r|] eqn:Er.
    2:{ apply nth_error_None in Er. rewrite execute_length in Er. lia. }
    rewrite He. unfold eod_mask.
    rewrite (flatten_eod_nth _ _ t _ r (session_flag cfg _ rows t b Hb) Er).
    assert (Hf : Qlt_bool (minutes_to_close (ts b)) 10 = true).
    { unfold Qlt_bool. rewrite Qle_bool_gt; [reflexivity|exact Hm]. }
    rewrite Hf. apply Forall_map, Forall_forall. reflexivity. }
  split; [exact Hflat|].
  intros o Ho. subst st. unfold stages_of, assemble in *.
  cbn [st_out st_w_exec] in *.
  apply concat_out_nth in Ho. destruct Ho as (_ & Hg & _).
  unfold pnl_gross_of in Hg.
  apply nth_error_map_inv in Hg. destruct Hg as (pr & Hpr & ->).
  apply nth_error_zipw in Hpr. destruct Hpr as (wl & rr & Hwl & _ & ->).
  apply w_lag_of_nth in Hwl. subst wl.
  now apply zero_weights_no_return.
Qed.

Lemma end_of_day_bars_are_flat_witness :
  let cfg := mkConfig 1 1 10 0 0 Band 100 0 0 1 Momentum 1 (3 # 10) (55 # 100) in
  let rows := [mkWrow 56940 [Some 10; Some 20] [Some 10; Some 20];
               mkWrow 57000 [Some 11; Some 19] [Some 10; Some 20];
               mkWrow 57060 [Some 12; Some 18] [Some 11; Some 19]] in
  exists st,
    backtest_rows (fun x => x) cfg rows = Ok st
    /\ Forall (fun x => x = 0) (nth 2 (st_w_exec st) []).
Proof.
  intros cfg rows.
  destruct (backtest_rows (fun x => x) cfg rows) as [st|e] eqn:H;
    [|vm_compute in H; discriminate].
  exists st. split; [reflexivity|].
  apply (end_of_day_bars_are_flat _ cfg rows st 2 (mkWrow 57060 [Some 12; Some 18]
                                                        [Some 11; Some 19]) H).
  - reflexivity.
  - vm_compute. reflexivity.
Defined.

Lemma loc_mask_all_false {A : Type} (f g : A -> bool) :
  (forall x, f x = true -> g x = false) ->
  forall l : list A, Forall (fun e => e = false) (loc_mask (map f l) (map g l)).
Proof.
  intros H. induction l as [|x l IH]; cbn [map loc_mask]; [constructor|].
  destruct (f x) eqn:E; [constructor; auto|exact IH].
Qed.

Lemma flatten_eod_none (e : list bool) :
  Forall (fun b => b = false) e ->
  forall w : frame, length w = length e -> flatten_eod e w = w.
Proof.
  induction 1 as [|b e Hb _ IH]; intros [|r w] Hl; try discriminate; [reflexivity|].
  cbn [flatten_eod zipw]. subst b. f_equal. apply IH. simpl in Hl. lia.
Qed.

(** X17. With skip_last_min >= 10 no session bar is within 10 minutes of
    the close, so the end-of-day flattening changes nothing: the executed
    weights are the weights of the execution policy. *)
Theorem end_of_day_flatten_needs_late_bars :
  forall (ln : Q -> Q) (cfg : config) (rows : list wrow) (st : stages),
    backtest_rows ln cfg rows = Ok st ->
    (10 <= skip_last_min cfg)%Z ->
    st_w_exec st = execute cfg (st_w_target st).
Proof.
  intros ln cfg rows st Hrun Hskip.
  pose proof Hrun as Hst. apply backtest_rows_stages in Hst.
  pose proof (stages_rows ln cfg rows) as (_ & _ & _ & Hwt & _).
  cbv zeta in Hwt. rewrite <- Hst in Hwt.
  apply backtest_rows_ok in Hrun. cbv zeta in Hrun.
  destruct Hrun as (_ & _ & _ & _ & _ & _ & He).
  rewrite He. apply flatten_eod_none.
  - unfold session_mask, eod_mask. apply loc_mask_all_false.
    intros x Hx. unfold in_session in Hx. apply andb_true_iff in Hx as [_ Hx].
    apply Qle_bool_iff in Hx.
    unfold Qlt_bool. rewrite Qle_bool_true; [reflexivity|].
    apply Qle_trans with (inject_Z (skip_last_min cfg)); [|exact Hx].
    change 10 with (inject_Z 10). now rewrite <- Zle_Qle.
  - rewrite execute_length, Hwt. unfold session_rows.
    apply loc_mask_length. now rewrite eod_mask_length, length_map.
Qed.

Lemma end_of_day_flatten_needs_late_bars_witness :
  let cfg := mkConfig 1 1 10 0 30 Band 100 0 0 1 Momentum 1 (3 # 10) (55 # 100) in
  let rows := [mkWrow 55740 [Some 10; Some 20] [Some 10; Some 20];
               mkWrow 55800 [Some 11; Some 19] [Some 10; Some 20];
               mkWrow 57000 [Some 12; Some 18] [Some 11; Some 19]] in
  exists st,
    backtest_rows (fun x => x) cfg rows = Ok st
    /\ st_w_exec st = execute cfg (st_w_target st).
Proof.
  intros cfg rows.
  destruct (backtest_rows (fun x => x) cfg rows) as [st|e] eqn:H;
    [|vm_compute in H; discriminate].
  exists st. split; [reflexivity|].
  apply (end_of_day_flatten_needs_late_bars _ cfg rows st H). vm_compute. discriminate.
Defined.

(** ** The per-name cap through the pipeline *)

Lemma clip_abs_cap (m x : Q) : Qabs (clip (- m) m x) <= Qabs m.
Proof.
  pose proof (clip_between (- m) m x).
  pose proof (sym_min_abs m). pose proof (sym_max_abs m).
  apply Qabs_bound. lra.
Qed.

Lemma target_weights_capped (gross mw : Q) (memb : mframe) (mask : list bool) :
  Forall (Forall (fun x => Qabs x <= Qabs mw)) (target_weights gross mw memb mask).
Proof.
  unfold target_weights. apply Forall_map, Forall_forall. intros r _.
  apply Forall_map, Forall_forall. intros x _. apply clip_abs_cap.
Qed.

Lemma rate_limit_loop_abs_capped (step mw : Q) :
  forall (todo : frame) (prev : row),
    Forall (Forall (fun x => Qabs x <= Qabs mw)) (rate_limit_loop step mw prev todo []).
Proof.
  induction todo as [|r todo IH]; intros prev; [constructor|].
  rewrite rate_limit_loop_cons. constructor; [apply rate_limit_step_all_capped|apply IH].
Qed.

Lemma band_step_Forall (P : Q -> Prop) (band : Q) :
  forall (prev target : row), Forall P prev -> Forall P target ->
    Forall P (band_step band prev target).
Proof.
  unfold band_step.
  induction prev as [|p prev IH]; intros [|r target] Hp Hr; cbn [zipw]; try constructor.
  - inversion Hp; inversion Hr; subst. now destruct (Qle_bool _ _).
  - inversion Hp; inversion Hr; subst. now apply IH.
Qed.

Lemma band_loop_Forall (P : Q -> Prop) (band : Q) :
  forall (todo : frame) (prev : row), Forall P prev -> Forall (Forall P) todo ->
    Forall (Forall P) (band_loop band prev todo []).
Proof.
  induction todo as [|r todo IH]; intros prev Hp Ht; [constructor|].
  rewrite band_loop_cons. inversion Ht; subst.
  assert (Forall P (band_step band prev r)) by now apply band_step_Forall.
  constructor; [assumption|now apply IH].
Qed.

Lemma zeros_Forall (P : Q -> Prop) (n : nat) : P 0 -> Forall P (zeros n).
Proof.
  intros H. unfold zeros. apply Forall_forall. intros x Hx.
  apply repeat_spec in Hx. now subst.
Qed.

Lemma apply_no_trade_band_Forall (P : Q -> Prop) (w : frame) (band_bps : Q) :
  P 0 -> Forall (Forall P) w -> Forall (Forall P) (apply_no_trade_band w band_bps).
Proof.
  intros H0 Hw. unfold apply_no_trade_band.
  apply band_loop_Forall; [now apply zeros_Forall|exact Hw].
Qed.

Lemma flatten_eod_Forall (P : Q -> Prop) :
  P 0 -> forall (e : list bool) (w : frame),
    Forall (Forall P) w -> Forall (Forall P) (flatten_eod e w).
Proof.
  intros H0. unfold flatten_eod.
  induction e as [|b e IH]; intros [|r w] Hw; cbn [zipw]; try constructor.
  - inversion Hw; subst. destruct b; [|assumption].
    apply Forall_map, Forall_forall. auto.
  - inversion Hw; subst. now apply IH.
Qed.

(** X18. Per-name cap through the pipeline: every target weight is within
    the cap max_w in absolute value, and so is every executed weight in
    every execution mode but grid. *)
Theorem weights_within_cap :
  forall (ln : Q -> Q) (cfg : config) (rows : list wrow) (st : stages),
    backtest_rows ln cfg rows = Ok st ->
    Forall (Forall (fun x => Qabs x <= Qabs (max_w cfg))) (st_w_target st)
    /\ (mode cfg <> Grid ->
        Forall (Forall (fun x => Qabs x <= Qabs (max_w cfg))) (st_w_exec st)).
Proof.
  intros ln cfg rows st Hrun.
  apply backtest_rows_ok in Hrun. cbv zeta in Hrun.
  destruct Hrun as (_ & _ & _ & _ & _ & Hwt & He).
  assert (H0 : Qabs 0 <= Qabs (max_w cfg)) by (change (Qabs 0) with 0; apply Qabs_nonneg).
  assert (Ht : Forall (Forall (fun x => Qabs x <= Qabs (max_w cfg))) (st_w_target st))
    by (rewrite Hwt; apply target_weights_capped).
  split; [exact Ht|].
  intros Hmode. rewrite He. apply flatten_eod_Forall; [exact H0|].
  unfold execute. destruct (mode cfg); try contradiction.
  - apply rate_limit_loop_abs_capped.
  - now apply apply_no_trade_band_Forall.
  - exact Ht.
Qed.

Lemma weights_within_cap_witness :
  let cfg := mkConfig 1 (1 # 4) 10 0 0 Band 100 0 0 1 Momentum 1 (3 # 10) (55 # 100) in
  let rows := [mkWrow 34200 [Some 10; Some 20] [Some 10; Some 20];
               mkWrow 34260 [Some 11; Some 19] [Some 10; Some 20]] in
  exists st,
    backtest_rows (fun x => x) cfg rows = Ok st
    /\ Forall (Forall (fun x => Qabs x <= Qabs (1 # 4))) (st_w_target st)
    /\ Forall (Forall (fun x => Qabs x <= Qabs (1 # 4))) (st_w_exec st).
Proof.
  intros cfg rows.
  destruct (backtest_rows (fun x => x) cfg rows) as [st|e] eqn:H;
    [|vm_compute in H; discriminate].
  exists st. split; [reflexivity|].
  destruct (weights_within_cap _ cfg rows st H) as [H1 H2].
  split; [exact H1|]. apply H2. discriminate.
Defined.

(** ** The gross budget of the targets *)

Lemma scale_row_abs_sum (gross : Q) (s : Z) (r : mrow) :
  (0 < s)%Z ->
  qsum (map Qabs (map (fun x => inject_Z x / inject_Z s * gross) r))
  == inject_Z (abs_sum_Z r) / inject_Z s * Qabs gross.
Proof.
  intros Hs.
  assert (Hq : 0 < inject_Z s) by (change 0 with (inject_Z 0); now rewrite <- Zlt_Qlt).
  induction r as [|x r IH]; cbn [map qsum fold_right abs_sum_Z].
  - field. lra.
  - fold (qsum (map Qabs (map (fun x => inject_Z x / inject_Z s * gross) r))).
    fold (abs_sum_Z r). rewrite IH.
    rewrite inject_Z_plus, Qabs_Qmult.
    unfold Qdiv at 1. rewrite Qabs_Qmult, Qabs_Qinv.
    rewrite (Qabs_pos (inject_Z s)) by lra.
    assert (Hx : Qabs (inject_Z x) == inject_Z (Z.abs x)).
    { unfold Qabs, inject_Z. reflexivity. }
    rewrite Hx. field. lra.
Qed.

Lemma scale_row_budget (gross : Q) (r : mrow) :
  within_budget (Qabs gross) (scale_row gross r).
Proof.
  unfold scale_row. destruct (abs_sum_Z r =? 0)%Z eqn:E.
  - left. apply Forall_map, Forall_forall. reflexivity.
  - right. apply Z.eqb_neq in E. pose proof (abs_sum_Z_nonneg r) as Hn.
    exists (map (fun x => inject_Z x / inject_Z (abs_sum_Z r) * gross) r).
    split; [now rewrite map_map|].
    rewrite scale_row_abs_sum by lia.
    assert (Hq : 0 < inject_Z (abs_sum_Z r))
      by (change 0 with (inject_Z 0); rewrite <- Zlt_Qlt; lia).
    assert (Hd : inject_Z (abs_sum_Z r) / inject_Z (abs_sum_Z r) == 1) by (field; lra).
    rewrite Hd. lra.
Qed.

Lemma ffill_row_nan {A : Type} :
  forall (last r : list (option A)),
    length last = length r -> all_none r -> ffill_row last r = last.
Proof.
  unfold ffill_row.
  induction last as [|l last IH]; intros [|c r] Hl Hn; try discriminate; [reflexivity|].
  inversion Hn; subst. cbn [zipw]. f_equal. apply IH; [simpl in Hl; lia|assumption].
Qed.

Lemma ffill_row_valid {A : Type} :
  forall (last : list (option A)) (v : list A),
    length last = length v -> ffill_row last (map Some v) = map Some v.
Proof.
  unfold ffill_row.
  induction last as [|l last IH]; intros [|x v] Hl; try discriminate; [reflexivity|].
  cbn [map zipw]. f_equal. apply IH. simpl in Hl. lia.
Qed.

Lemma ffill_row_budget (B : Q) (last r : nrow) :
  length last = length r ->
  within_budget B last -> within_budget B r -> within_budget B (ffill_row last r).
Proof.
  intros Hl HL [Hn|[v [-> Hv]]].
  - now rewrite ffill_row_nan.
  - rewrite ffill_row_valid by (rewrite Hl; apply length_map). right. now exists v.
Qed.

Lemma ffill_from_budget (B : Q) (n : nat) :
  forall (m : nframe) (last : nrow),
    length last = n -> Forall (fun r => length r = n) m ->
    within_budget B last -> Forall (within_budget B) m ->
    Forall (within_budget B) (ffill_from last m).
Proof.
  induction m as [|r m IH]; intros last Hl Hw HL Hm; cbn [ffill_from]; [constructor|].
  inversion Hw as [|? ? Hr Hrest]; clear Hw. inversion Hm; subst.
  assert (within_budget B (ffill_row last r)) by (apply ffill_row_budget; auto; congruence).
  constructor; [assumption|]. apply IH; auto.
  rewrite ffill_row_length; congruence.
Qed.

Lemma where_rows_budget (B : Q) :
  forall (mask : list bool) (m : nframe),
    Forall (within_budget B) m -> Forall (within_budget B) (where_rows mask m).
Proof.
  unfold where_rows.
  induction mask as [|b mask IH]; intros [|r m] H; cbn [zipw]; try constructor.
  - inversion H; subst. destruct b; [assumption|].
    left. apply Forall_map, Forall_forall. reflexivity.
  - inversion H; subst. now apply IH.
Qed.

Lemma clip_abs_le (m x : Q) : Qabs (clip (- m) m x) <= Qabs x.
Proof.
  pose proof (sym_zero_inside m) as Hz.
  destruct (clip_cases (- m) m x) as [[H E]|[[H E]|[H E]]]; rewrite E;
    try lra; apply Qabs_case; intros; apply Qabs_case; intros; lra.
Qed.

Lemma clip_row_abs_le (m : Q) (v : row) :
  qsum (map Qabs (map (clip (- m) m) v)) <= qsum (map Qabs v).
Proof.
  induction v as [|x v IH]; cbn [map qsum fold_right]; [lra|].
  fold (qsum (map Qabs (map (clip (- m) m) v))). fold (qsum (map Qabs v)).
  pose proof (clip_abs_le m x). lra.
Qed.

Lemma qsum_abs_zero {A : Type} (r : list A) : qsum (map Qabs (map (fun _ => 0) r)) == 0.
Proof.
  induction r as [|x r IH]; cbn [map qsum fold_right]; [reflexivity|].
  fold (qsum (map Qabs (map (fun _ : A => 0) r))). rewrite IH. reflexivity.
Qed.

Lemma target_weights_budget (gross mw : Q) (memb : mframe) (mask : list bool) (n : nat) :
  Forall (fun r => length r = n) memb ->
  Forall (fun r => qsum (map Qabs r) <= Qabs gross) (target_weights gross mw memb mask).
Proof.
  intros Hw. unfold target_weights, fillna, ffill.
  set (X := where_rows mask (map (scale_row gross) memb)).
  assert (HX : Forall (fun r => length r = n) X).
  { apply where_rows_widths, Forall_map. eapply Forall_impl; [|exact Hw].
    cbn. intros r Hr. now rewrite scale_row_length. }
  assert (HB : Forall (within_budget (Qabs gross)) X).
  { apply where_rows_budget, Forall_map, Forall_forall. intros r _. apply scale_row_budget. }
  assert (HF : Forall (within_budget (Qabs gross)) (ffill_from (repeat None (ncols X)) X)).
  { destruct X as [|r0 X'] eqn:EX; [constructor|].
    apply (ffill_from_budget _ n); auto.
    - rewrite repeat_length. now inversion HX.
    - left. apply Forall_forall. intros c Hc. now apply repeat_spec in Hc. }
  rewrite map_map. apply Forall_map.
  eapply Forall_impl; [|exact HF]. cbn. intros r [Hn|[v [-> Hv]]].
  - assert (E : map (clip (- mw) mw)
                  (map (fun c : option Q => match c with Some x => x | None => 0 end) r)
                = map (fun _ => 0) r).
    { rewrite map_map. induction Hn as [|c r Hc _ IH]; cbn [map]; [reflexivity|].
      rewrite IH, Hc. now rewrite clip_zero. }
    rewrite E, qsum_abs_zero. apply Qabs_nonneg.
  - assert (E : map (fun c : option Q => match c with Some x => x | None => 0 end)
                  (map Some v) = v)
      by (rewrite map_map; apply map_id).
    rewrite E.
    apply Qle_trans with (qsum (map Qabs v)); [apply clip_row_abs_le|exact Hv].
Qed.

Lemma memb_widths (ln : Q -> Q) (cfg : config) (rows : list wrow) (st : stages) (n : nat) :
  backtest_rows ln cfg rows = Ok st ->
  Forall (fun r => length (px r) = n) rows ->
  Forall (fun r => length r = n) (st_score st)
  /\ Forall (fun r => length r = n) (st_memb_full st)
  /\ Forall (fun r => length r = n) (st_memb st).
Proof.
  intros Hrun Hw. apply backtest_rows_ok in Hrun. cbv zeta in Hrun.
  destruct Hrun as (_ & _ & Hsc & Hmf & Hm & _).
  assert (Hscw : Forall (fun r => length r = n) (st_score st)).
  { rewrite Hsc. apply score_of_widths. apply Forall_map.
    eapply Forall_impl; [|exact Hw]. auto. }
  assert (Hmfw : Forall (fun r => length r = n) (st_memb_full st))
    by (rewrite Hmf; now apply sticky_body_widths).
  repeat split; auto. rewrite Hm. now apply loc_mask_Forall.
Qed.

(** X19. Gross budget: the absolute target weights of every session bar sum
    to at most |gross|. *)
Theorem target_gross_within_budget :
  forall (ln : Q -> Q) (cfg : config) (rows : list wrow) (st : stages) (n : nat),
    backtest_rows ln cfg rows = Ok st ->
    Forall (fun r => length (px r) = n) rows ->
    Forall (fun r => qsum (map Qabs r) <= Qabs (gross cfg)) (st_w_target st).
Proof.
  intros ln cfg rows st n Hrun Hw.
  destruct (memb_widths ln cfg rows st n Hrun Hw) as (_ & _ & Hm).
  apply backtest_rows_ok in Hrun. cbv zeta in Hrun.
  destruct Hrun as (_ & _ & _ & _ & _ & Hwt & _).
  rewrite Hwt. now apply (target_weights_budget _ _ _ _ n).
Qed.

Lemma target_gross_within_budget_witness :
  let cfg := mkConfig 1 (1 # 4) 10 0 0 Band 100 0 0 1 Momentum 1 (3 # 10) (55 # 100) in
  let rows := [mkWrow 34200 [Some 10; Some 20] [Some 10; Some 20];
               mkWrow 34260 [Some 11; Some 19] [Some 10; Some 20]] in
  exists st,
    backtest_rows (fun x => x) cfg rows = Ok st
    /\ Forall (fun r => qsum (map Qabs r) <= Qabs 1) (st_w_target st).
Proof.
  intros cfg rows.
  destruct (backtest_rows (fun x => x) cfg rows) as [st|e] eqn:H;
    [|vm_compute in H; discriminate].
  exists st. split; [reflexivity|].
  apply (target_gross_within_budget _ cfg rows st 2 H). repeat constructor.
Defined.

(** ** Costs *)

Lemma qsum_abs_nonneg (l : row) : 0 <= qsum (map Qabs l).
Proof.
  induction l as [|x l IH]; cbn [map qsum fold_right]; [lra|].
  fold (qsum (map Qabs l)). pose proof (Qabs_nonneg x). lra.
Qed.

(** X20. At every output bar the turnover is not negative; with a
    non-negative cost rate the cost is not negative and the net return is at
    most the raw return; with a zero cost rate the net return is the raw
    return. *)
Theorem costs_never_add_to_returns :
  forall (ln : Q -> Q) (cfg : config) (rows : list wrow) (st : stages) (t : nat)
         (o : out_row),
    backtest_rows ln cfg rows = Ok st ->
    nth_error (st_out st) t = Some o ->
    0 <= turnover o
    /\ (0 <= cost_bps cfg -> 0 <= tc o /\ net_ret o <= raw_ret o)
    /\ (cost_bps cfg == 0 -> tc o == 0 /\ net_ret o == raw_ret o).
Proof.
  intros ln cfg rows st t o Hrun Ho.
  destruct (turnover_accounting ln cfg rows st t o Hrun Ho) as [Ht Hc].
  assert (Hn : net_ret o = raw_ret o - tc o).
  { apply backtest_rows_stages in Hrun. subst st.
    unfold stages_of, assemble in Ho. cbn [st_out] in Ho.
    apply concat_out_nth in Ho. destruct Ho as (_ & Hg & Hc' & Hn & _).
    apply nth_error_zipw in Hn. destruct Hn as (x & y & Hx & Hy & Hv). congruence. }
  assert (H0 : 0 <= turnover o).
  { rewrite Ht. destruct t; [lra|]. unfold weight_change. apply qsum_abs_nonneg. }
  assert (Htc : tc o == turnover o * cost_bps cfg * (1 # 10000)).
  { rewrite Hc. field. }
  split; [exact H0|]. split.
  - intros Hpos. assert (0 <= tc o) by (rewrite Htc; nra).
    split; [assumption|]. rewrite Hn. lra.
  - intros Hz. assert (tc o == 0) by (rewrite Htc, Hz; ring).
    split; [assumption|]. rewrite Hn. lra.
Qed.

Lemma costs_never_add_to_returns_witness :
  let cfg := mkConfig 1 1 10 0 0 Ratelimit 100 0 0 1 Momentum 1 (3 # 10) (55 # 100) in
  let rows := [mkWrow 34200 [Some 10; Some 20] [Some 10; Some 20];
               mkWrow 34260 [Some 11; Some 19] [Some 10; Some 20];
               mkWrow 34320 [Some 12; None] [Some 11; None]] in
  exists st o,
    backtest_rows (fun x => x) cfg rows = Ok st
    /\ nth_error (st_out st) 2 = Some o
    /\ 0 <= turnover o /\ 0 <= tc o /\ net_ret o <= raw_ret o.
Proof.
  intros cfg rows.
  destruct (backtest_rows (fun x => x) cfg rows) as [st|e] eqn:H;
    [|vm_compute in H; discriminate].
  destruct (nth_error (st_out st) 2) as [o|] eqn:Ho;
    [|injection H as <-; vm_compute in Ho; discriminate].
  exists st, o. split; [reflexivity|]. split; [exact Ho|].
  destruct (costs_never_add_to_returns _ cfg rows st 2 o H Ho) as (H1 & H2 & _).
  split; [exact H1|]. apply H2. vm_compute. discriminate.
Defined.

(** X21. The first output row is all zero: no weight is lagged into it, so
    its raw return is zero, and [diff] has no row before it, so its turnover
    and cost are zero, whatever weight is executed at that bar. *)
Theorem first_output_row_is_zero :
  forall (ln : Q -> Q) (cfg : config) (rows : list wrow) (st : stages) (o : out_row),
    backtest_rows ln cfg rows = Ok st ->
    nth_error (st_out st) 0 = Some o ->
    raw_ret o == 0 /\ turnover o = 0 /\ tc o == 0 /\ net_ret o == 0.
Proof.
  intros ln cfg rows st o Hrun Ho.
  destruct (turnover_accounting ln cfg rows st 0 o Hrun Ho) as [Ht Hc].
  apply backtest_rows_stages in Hrun. subst st.
  unfold stages_of, assemble in Ho. cbn [st_out] in Ho.
  apply concat_out_nth in Ho. destruct Ho as (_ & Hg & Hc' & Hn & _).
  apply nth_error_zipw in Hn. destruct Hn as (x & y & Hx & Hy & Hv).
  assert (Hraw : raw_ret o == 0).
  { unfold pnl_gross_of in Hg.
    apply nth_error_map_inv in Hg. destruct Hg as (pr & Hpr & ->).
    apply nth_error_zipw in Hpr. destruct Hpr as (wl & rr & Hwl & _ & ->).
    apply w_lag_of_nth in Hwl. subst wl.
    apply zero_weights_no_return. unfold zeros. apply Forall_forall.
    intros c Hin. now apply repeat_spec in Hin. }
  assert (Htc : tc o == 0) by (rewrite Hc, Ht; field).
  repeat split; auto.
  assert (E : net_ret o = raw_ret o - tc o) by congruence.
  rewrite E. lra.
Qed.

Lemma first_output_row_is_zero_witness :
  let cfg := mkConfig 1 1 10 0 0 OtherMode 100 0 0 1 Momentum 0 (3 # 10) (55 # 100) in
  let rows := [mkWrow 34200 [Some 10; Some 20] [Some 9; Some 21];
               mkWrow 34260 [Some 11; Some 19] [Some 10; Some 20]] in
  exists st o,
    backtest_rows (fun x => x) cfg rows = Ok st
    /\ nth_error (st_out st) 0 = Some o
    /\ raw_ret o == 0 /\ turnover o = 0 /\ tc o == 0 /\ net_ret o == 0.
Proof.
  intros cfg rows.
  destruct (backtest_rows (fun x => x) cfg rows) as [st|e] eqn:H;
    [|vm_compute in H; discriminate].
  destruct (nth_error (st_out st) 0) as [o|] eqn:Ho;
    [|injection H as <-; vm_compute in Ho; discriminate].
  exists st, o. split; [reflexivity|]. split; [exact Ho|].
  apply (first_output_row_is_zero _ cfg rows st o H Ho).
Defined.

(** ** Targets between rebalance bars *)

Lemma ffill_from_nth {A : Type} :
  forall (m : list (list (option A))) (last : list (option A)) (t : nat),
    (t < length m)%nat ->
    nth t (ffill_from last m) []
    = ffill_row (match t with
                 | O => last
                 | S t' => nth t' (ffill_from last m) []
                 end) (nth t m []).
Proof.
  induction m as [|r m IH]; intros last t Ht; [simpl in Ht; lia|].
  cbn [ffill_from]. destruct t as [|t']; [reflexivity|].
  cbn [nth]. rewrite IH by (simpl in Ht; lia). now destruct t'.
Qed.

Lemma where_rows_nth (mask : list bool) (m : nframe) (t : nat) (b : bool) :
  nth_error mask t = Some b -> (t < length m)%nat ->
  nth t (where_rows mask m) [] = if b then nth t m [] else nan_row (nth t m []).
Proof.
  unfold where_rows. revert m t.
  induction mask as [|b0 mask IH]; intros [|r m] [|t] Hb Ht;
    try discriminate; cbn [length] in Ht; try lia; cbn [zipw nth nth_error] in *.
  - now injection Hb as ->.
  - apply IH; [exact Hb|lia].
Qed.

Lemma target_weights_hold (gross mw : Q) (memb : mframe) (mask : list bool) (n t : nat) :
  Forall (fun r => length r = n) memb ->
  length mask = length memb ->
  nth_error mask t = Some false ->
  nth t (target_weights gross mw memb mask) []
  = match t with
    | O => zeros n
    | S t' => nth t' (target_weights gross mw memb mask) []
    end.
Proof.
  intros Hw Hl Hb.
  assert (Ht : (t < length memb)%nat) by (rewrite <- Hl; apply nth_error_Some; congruence).
  unfold target_weights, fillna, ffill.
  set (X := where_rows mask (map (scale_row gross) memb)).
  assert (HX : Forall (fun r => length r = n) X).
  { apply where_rows_widths, Forall_map. eapply Forall_impl; [|exact Hw].
    cbn. intros r Hr. now rewrite scale_row_length. }
  assert (HXl : length X = length memb)
    by (unfold X; rewrite where_rows_length; rewrite length_map; auto).
  assert (Hn : ncols X = n).
  { destruct X as [|r0 X']; [simpl in HXl; lia|]. now inversion HX. }
  rewrite Hn.
  set (F := ffill_from (repeat None n) X).
  assert (HFl : length F = length memb) by (unfold F; now rewrite ffill_from_length).
  assert (HFw : Forall (fun r => length r = n) F)
    by (unfold F; apply ffill_from_widths; [apply repeat_length|exact HX]).
  assert (Hrow : nth t F [] = match t with O => repeat None n | S t' => nth t' F [] end).
  { unfold F at 1. rewrite ffill_from_nth by lia. fold F.
    apply ffill_row_nan.
    - rewrite (Forall_nth_len (fun r => length r = n) X t HX) by lia.
      destruct t as [|t']; [apply repeat_length|].
      apply (Forall_nth_len (fun r => length r = n)); [exact HFw|lia].
    - unfold X. rewrite (where_rows_nth _ _ t false Hb) by (rewrite length_map; lia).
      apply nan_row_all_none. }
  rewrite (nth_map_in _ [] []) by (rewrite length_map; lia).
  rewrite (nth_map_in _ [] []) by lia.
  rewrite Hrow. destruct t as [|t'].
  - unfold zeros. rewrite !map_repeat. now rewrite clip_zero.
  - rewrite (nth_map_in _ [] []) by (rewrite length_map; lia).
    now rewrite (nth_map_in _ [] []) by lia.
Qed.

(** X22. At a session bar that is no rebalance bar, the target weight row
    repeats the row of the session bar before; it is all zero at the first
    session bar. *)
Theorem targets_change_only_on_rebalance_bars :
  forall (ln : Q -> Q) (cfg : config) (rows : list wrow) (st : stages) (n t : nat),
    backtest_rows ln cfg rows = Ok st ->
    Forall (fun r => length (px r) = n) rows ->
    nth_error (loc_mask (session_mask cfg (map ts rows)) (cadence_mask cfg (map ts rows))) t
    = Some false ->
    nth t (st_w_target st) []
    = match t with
      | O => zeros n
      | S t' => nth t' (st_w_target st) []
      end.
Proof.
  intros ln cfg rows st n t Hrun Hw Hb.
  destruct (memb_widths ln cfg rows st n Hrun Hw) as (_ & _ & Hm).
  destruct (session_lengths ln cfg rows st Hrun) as (_ & _ & Hlm & _).
  apply backtest_rows_ok in Hrun. cbv zeta in Hrun.
  destruct Hrun as (_ & _ & _ & _ & _ & Hwt & _).
  rewrite Hwt. now apply target_weights_hold.
Qed.

Lemma targets_change_only_on_rebalance_bars_witness :
  let cfg := mkConfig 1 1 10 0 0 Band 100 0 0 2 Momentum 1 (3 # 10) (55 # 100) in
  let rows := [mkWrow 34200 [Some 10; Some 20] [Some 10; Some 20];
               mkWrow 34260 [Some 11; Some 19] [Some 10; Some 20];
               mkWrow 34320 [Some 10; Some 20] [Some 11; Some 19];
               mkWrow 34380 [Some 9; Some 21] [Some 10; Some 20]] in
  exists st,
    backtest_rows (fun x => x) cfg rows = Ok st
    /\ nth 3 (st_w_target st) [] = nth 2 (st_w_target st) [].
Proof.
  intros cfg rows.
  destruct (backtest_rows (fun x => x) cfg rows) as [st|e] eqn:H;
    [|vm_compute in H; discriminate].
  exists st. split; [reflexivity|].
  apply (targets_change_only_on_rebalance_bars _ cfg rows st 2 3 H).
  - repeat constructor.
  - reflexivity.
Defined.

(** ** Position sizing in [size_positions] *)

Lemma qsum_abs_scale (a : Q) (r : row) :
  qsum (map Qabs (map (fun x => x * a) r)) == qsum (map Qabs r) * Qabs a.
Proof.
  induction r as [|x r IH]; cbn [map qsum fold_right]; [ring|].
  fold (qsum (map Qabs (map (fun x => x * a) r))). fold (qsum (map Qabs r)).
  rewrite IH, Qabs_Qmult. ring.
Qed.

Lemma abs_sum_skipna_nonneg (r : nrow) : 0 <= abs_sum_skipna r.
Proof.
  unfold abs_sum_skipna.
  induction r as [|c r IH]; cbn [map sum_skipna fold_right]; [lra|].
  fold (sum_skipna (map (option_map Qabs) r)).
  destruct c as [x|]; cbn [option_map]; [|exact IH].
  pose proof (Qabs_nonneg x). lra.
Qed.

Lemma clip_nonzero (m x : Q) : ~ m == 0 -> ~ x == 0 -> ~ clip (- m) m x == 0.
Proof.
  intros Hm Hx.
  destruct (clip_cases (- m) m x) as [[H E]|[[H E]|[H E]]]; rewrite E; try exact Hx.
  - destruct (Q.min_spec (- m) m) as [[? E1]|[? E1]]; rewrite E1; lra.
  - destruct (Q.max_spec (- m) m) as [[? E1]|[? E1]]; rewrite E1; lra.
Qed.

(** One cell of [scaled.clip(-max_w, max_w).fillna(0.0)], for a row whose
    absolute sum [s] is not zero. *)
Lemma capped_cells_positive (gross max_w s : Q) (r : nrow) :
  ~ s == 0 -> ~ gross == 0 -> ~ max_w == 0 ->
  0 < abs_sum_skipna r ->
  0 < qsum (map Qabs
              (map (fun c : option Q =>
                      match c with
                      | Some x => clip (- max_w) max_w (x / s * gross)
                      | None => 0
                      end) r)).
Proof.
  intros Hs Hg Hm. unfold abs_sum_skipna.
  induction r as [|c r IH]; cbn [map sum_skipna fold_right qsum]; [lra|].
  fold (sum_skipna (map (option_map Qabs) r)).
  match goal with
  | |- _ -> 0 < _ + ?q => set (rest := q) in *
  end.
  assert (Hrest : 0 <= rest) by apply qsum_abs_nonneg.
  destruct c as [x|]; cbn [option_map].
  - intros Hsum. destruct (Qeq_dec x 0) as [Hx|Hx].
    + assert (Hax : Qabs x == 0) by (rewrite Hx; reflexivity).
      assert (0 < rest) by (apply IH; lra).
      pose proof (Qabs_nonneg (clip (- max_w) max_w (x / s * gross))). lra.
    + assert (Hsc : ~ x / s * gross == 0).
      { intros E. apply Hx.
        assert (E' : x == x / s * gross * (s / gross)) by (field; split; assumption).
        rewrite E', E. ring. }
      pose proof (clip_nonzero max_w _ Hm Hsc) as Hc.
      assert (0 < Qabs (clip (- max_w) max_w (x / s * gross))).
      { revert Hc. apply Qabs_case; intros; lra. }
      lra.
  - intros Hsum. change (Qabs 0) with 0. assert (0 < rest) by (apply IH; lra). lra.
Qed.

(** X23. [size_positions] re-hits the gross: a row of raw signals that is
    not all zero or missing, sized with non-zero gross and cap, has absolute
    weights that sum to |gross|. *)
Theorem size_positions_hits_gross :
  forall (raw : nframe) (gross max_w : Q) (t : nat),
    (t < length raw)%nat ->
    ~ abs_sum_skipna (nth t raw []) == 0 ->
    ~ gross == 0 -> ~ max_w == 0 ->
    qsum (map Qabs (nth t (size_positions raw gross max_w) [])) == Qabs gross.
Proof.
  intros raw gross mw t Ht Hs Hg Hm.
  unfold size_positions, fillna.
  rewrite (nth_map_in _ []) by (rewrite !length_map; exact Ht).
  rewrite (nth_map_in _ []) by (rewrite !length_map; exact Ht).
  rewrite (nth_map_in _ []) by (rewrite !length_map; exact Ht).
  rewrite (nth_map_in _ []) by exact Ht.
  set (r := nth t raw []) in *.
  set (s := abs_sum_skipna r) in *.
  assert (Es : Qeq_bool s 0 = false).
  { destruct (Qeq_bool s 0) eqn:E; [|reflexivity]. apply Qeq_bool_iff in E. contradiction. }
  rewrite Es.
  assert (Hcap : map (fun c : option Q => match c with Some x => x | None => 0 end)
                   (map (option_map (clip (- mw) mw))
                      (map (fun c : option Q =>
                              match c with
                              | Some x => Some (x / s * gross)
                              | None => None
                              end) r))
                 = map (fun c : option Q =>
                          match c with
                          | Some x => clip (- mw) mw (x / s * gross)
                          | None => 0
                          end) r).
  { rewrite !map_map. apply map_ext. intros [x|]; reflexivity. }
  rewrite Hcap.
  set (cr := map _ r).
  assert (Hpos : 0 < qsum (map Qabs cr)).
  { apply capped_cells_positive; auto.
    pose proof (abs_sum_skipna_nonneg r). fold s. fold s in H.
    destruct (Qeq_dec s 0); [contradiction|]. lra. }
  assert (En : Qeq_bool (qsum (map Qabs cr)) 0 = false).
  { destruct (Qeq_bool (qsum (map Qabs cr)) 0) eqn:E; [|reflexivity].
    apply Qeq_bool_iff in E. lra. }
  rewrite En, qsum_abs_scale.
  unfold Qdiv. rewrite Qabs_Qmult, Qabs_Qinv.
  rewrite (Qabs_pos (qsum (map Qabs cr))) by lra.
  field. lra.
Qed.

Lemma size_positions_hits_gross_witness :
  qsum (map Qabs (nth 0 (size_positions [[Some 1; Some (-1); None; Some 2]] 2 (1 # 4)) []))
  == Qabs 2.
Proof.
  apply size_positions_hits_gross;
    [simpl; lia|vm_compute; discriminate|vm_compute; discriminate|vm_compute; discriminate].
Defined.

(** ** Warm-up bars *)

Lemma diff_k_nth (k : Z) (m : nframe) (t : nat) :
  (t < length m)%nat -> nth t (diff_k k m) [] = diff_k_row k m t (nth t m []).
Proof.
  intros Ht. unfold diff_k.
  rewrite (nth_map_in _ (0%nat, []) []) by (rewrite length_combine, length_seq; lia).
  rewrite combine_nth by apply length_seq.
  rewrite seq_nth by exact Ht. reflexivity.
Qed.

Lemma score_of_warm_up (ln : Q -> Q) (sig : signal_mode) (k : Z) (prices : nframe) (t : nat) :
  (t < length prices)%nat -> (Z.of_nat t < k)%Z ->
  all_none (nth t (score_of ln sig k prices) []).
Proof.
  intros Ht Hk. unfold score_of.
  set (X := map (map (option_map ln)) prices).
  assert (HX : (t < length X)%nat) by (unfold X; now rewrite length_map).
  assert (Hrow : all_none (nth t (diff_k k X) [])).
  { rewrite diff_k_nth by exact HX. unfold diff_k_row.
    assert (E : (Z.of_nat t - k <? 0)%Z = true) by (apply Z.ltb_lt; lia).
    rewrite E. apply nan_row_all_none. }
  destruct sig; [|exact Hrow].
  rewrite (nth_map_in _ [] []) by (rewrite diff_k_length; exact HX).
  unfold all_none in *. apply Forall_map.
  eapply Forall_impl; [|exact Hrow]. cbn. now intros c ->.
Qed.

Lemma rank_cells_nan (n : nat) :
  forall (rest before : nrow), all_none rest -> all_none (rank_cells n before rest).
Proof.
  induction rest as [|c rest IH]; intros before H; [constructor|].
  inversion H; subst. cbn [rank_cells]. constructor; [reflexivity|]. now apply IH.
Qed.

Lemma sticky_raw_nan_row (score : nframe) (q_in q_out : Q) (mask : list bool) (t s : nat) :
  (t < length score)%nat ->
  all_none (nth t score []) ->
  mcell (sticky_raw score q_in q_out mask) t s = 0%Z.
Proof.
  intros Ht Hn. unfold mcell, sticky_raw.
  destruct (sticky_loop_row q_in q_out (map rank_pct score)
              (repeat 0%Z (ncols score)) mask t) as [p Hp];
    [now rewrite length_map|].
  rewrite Hp. rewrite (nth_map_in _ [] []) by exact Ht.
  assert (Hr : all_none (rank_pct (nth t score []))) by now apply rank_cells_nan.
  set (r := rank_pct (nth t score [])) in *.
  destruct (nth t mask false).
  - destruct (Nat.lt_ge_cases s (length (zipw (sticky_cell q_in q_out) p r))) as [Hs|Hs].
    + rewrite zipw_length in Hs. rewrite (nth_zipw _ 0%Z None 0%Z) by lia.
      assert (E : nth s r None = None).
      { unfold all_none in Hr. rewrite Forall_forall in Hr. apply Hr, nth_In. lia. }
      rewrite E. apply sticky_cell_nan.
    + now apply nth_overflow.
  - destruct (Nat.lt_ge_cases s (length r)) as [Hs|Hs].
    + now rewrite (nth_map_in _ None 0%Z) by exact Hs.
    + apply nth_overflow. now rewrite length_map.
Qed.

(** While every score so far is NaN, the returned membership is zero. *)
Lemma sticky_body_flat_before (score : nframe) (q_in q_out : Q) (mask : list bool)
      (t s : nat) :
  rect score -> (t < length score)%nat -> (s < ncols score)%nat ->
  (forall u, (u <= t)%nat -> all_none (nth u score [])) ->
  mcell (sticky_body score q_in q_out mask) t s = 0%Z.
Proof.
  intros Hrect Ht Hs. induction t as [|t IH]; intros Hn;
    rewrite sticky_body_cell by assumption;
    rewrite sticky_raw_nan_row by (try assumption; apply Hn; lia); cbn [Z.eqb].
  - reflexivity.
  - apply IH; [lia|]. intros u Hu. apply Hn. lia.
Qed.

(** X24. Warm-up: at each of the first K bars of the table the score row is
    all NaN and the membership row is all zero. *)
Theorem warm_up_bars_are_flat :
  forall (ln : Q -> Q) (cfg : config) (rows : list wrow) (st : stages) (n t : nat),
    backtest_rows ln cfg rows = Ok st ->
    Forall (fun r => length (px r) = n) rows ->
    (t < length rows)%nat -> (Z.of_nat t < K cfg)%Z ->
    all_none (nth t (st_score st) [])
    /\ nth t (st_memb_full st) [] = repeat 0%Z n.
Proof.
  intros ln cfg rows st n t Hrun Hw Ht Hk.
  destruct (memb_widths ln cfg rows st n Hrun Hw) as (Hsw & Hmw & _).
  apply backtest_rows_ok in Hrun. cbv zeta in Hrun.
  destruct Hrun as (_ & Hne & Hsc & Hmf & _).
  assert (Hlen : length (st_score st) = length rows)
    by (rewrite Hsc, score_of_length; apply length_map).
  assert (Hwarm : forall t', (t' <= t)%nat -> all_none (nth t' (st_score st) [])).
  { intros t' Hle. rewrite Hsc. apply score_of_warm_up; [rewrite length_map|]; lia. }
  split; [now apply Hwarm|].
  assert (Hnc : ncols (st_score st) = n).
  { destruct (st_score st) as [|r0 sc]; [simpl in Hlen; lia|]. now inversion Hsw. }
  assert (Hrect : rect (st_score st)) by (unfold rect; now rewrite Hnc).
  assert (Hrow : length (nth t (st_memb_full st) []) = n).
  { apply (Forall_nth_len (fun r => length r = n)); [exact Hmw|].
    rewrite Hmf, sticky_body_length. lia. }
  apply (nth_ext _ _ 0%Z 0%Z).
  - now rewrite repeat_length.
  - intros s Hs. rewrite Hrow in Hs. rewrite nth_repeat, Hmf.
    apply sticky_body_flat_before; auto; lia.
Qed.

Lemma warm_up_bars_are_flat_witness :
  let cfg := mkConfig 1 1 10 0 0 Band 100 0 0 1 Momentum 2 (3 # 10) (55 # 100) in
  let rows := [mkWrow 34200 [Some 10; Some 20] [Some 10; Some 20];
               mkWrow 34260 [Some 11; Some 19] [Some 10; Some 20];
               mkWrow 34320 [Some 12; Some 18] [Some 11; Some 19]] in
  exists st,
    backtest_rows (fun x => x) cfg rows = Ok st
    /\ all_none (nth 1 (st_score st) [])
    /\ nth 1 (st_memb_full st) [] = repeat 0%Z 2.
Proof.
  intros cfg rows.
  destruct (backtest_rows (fun x => x) cfg rows) as [st|e] eqn:H;
    [|vm_compute in H; discriminate].
  exists st. split; [reflexivity|].
  apply (warm_up_bars_are_flat _ cfg rows st 2 1 H).
  - repeat constructor.
  - simpl; lia.
  - simpl; lia.
Defined.

(** ** Turnover under the rate limiter *)

Lemma rate_limit_step_turnover (step mw : Q) :
  forall (prev target : row),
    Forall (fun x => Qmin (- mw) mw <= x <= Qmax (- mw) mw) prev ->
    qsum (map Qabs (zipw Qminus (rate_limit_step step mw prev target) prev))
    <= inject_Z (Z.of_nat (length prev)) * Qabs step.
Proof.
  induction prev as [|p prev IH]; intros target Hp.
  - unfold rate_limit_step. cbn [zipw map qsum fold_right length].
    change (inject_Z (Z.of_nat 0)) with 0. lra.
  - inversion Hp as [|? ? Hp0 Hp']; subst.
    destruct target as [|r target].
    + unfold rate_limit_step. cbn [zipw map qsum fold_right length].
      pose proof (Qabs_nonneg step).
      assert (0 <= inject_Z (Z.of_nat (S (length prev)))).
      { change 0 with (inject_Z 0). rewrite <- Zle_Qle. lia. }
      nra.
    + unfold rate_limit_step. cbn [zipw map qsum fold_right length].
      fold (rate_limit_step step mw prev target).
      fold (qsum (map Qabs (zipw Qminus (rate_limit_step step mw prev target) prev))).
      specialize (IH target Hp').
      pose proof (rate_limit_move_bound step mw p (r - p) Hp0) as Hm.
      rewrite Nat2Z.inj_succ. unfold Z.succ. rewrite inject_Z_plus.
      change (inject_Z 1) with 1. lra.
Qed.

(** X25. Turnover under the rate limiter: from the second bar on, the summed
    absolute change of the weights [rate_limit_time] returns is at most the
    number of names times |step|. *)
Theorem rate_limit_time_turnover_bound :
  forall (w_target : frame) (step_bps max_w : Q) (t : nat),
    rect w_target -> (S t < length w_target)%nat ->
    nth (S t) (abs_diff_sum (rate_limit_time w_target step_bps max_w)) 0
    <= inject_Z (Z.of_nat (ncols w_target)) * Qabs (step_bps / 10000).
Proof.
  intros w b mw t Hrect Ht.
  rewrite abs_diff_sum_succ by (rewrite rate_limit_time_length; exact Ht).
  rewrite sum_skipna_abs_some.
  unfold rate_limit_time.
  set (out := rate_limit_loop (b / 10000) mw (zeros (ncols w)) w []).
  assert (Hrow : nth (S t) out [] = rate_limit_step (b / 10000) mw (nth t out []) (nth (S t) w []))
    by (unfold out; now rewrite rate_limit_loop_nth by exact Ht).
  rewrite Hrow.
  assert (Hprev : length (nth t out []) = ncols w).
  { apply (Forall_nth_len (fun r => length r = ncols w)).
    - apply rate_limit_loop_widths; [apply zeros_length|exact Hrect].
    - unfold out. rewrite rate_limit_loop_length. lia. }
  rewrite <- Hprev. apply rate_limit_step_turnover.
  unfold out. rewrite rate_limit_loop_nth by lia. apply rate_limit_step_between.
Qed.

Lemma rate_limit_time_turnover_bound_witness :
  nth 1 (abs_diff_sum (rate_limit_time [[1; -1]; [-1; 1]] 100 (1 # 2))) 0
  <= inject_Z (Z.of_nat 2) * Qabs (100 / 10000).
Proof.
  apply (rate_limit_time_turnover_bound [[1; -1]; [-1; 1]] 100 (1 # 2) 0).
  - repeat constructor.
  - simpl; lia.
Defined.

(** ** Hysteresis of the membership loop *)

Lemma last_update_cons (b : bool) (mask : list bool) (t : nat) :
  last_update (b :: mask) (S t)
  = match last_update mask t with
    | Some u => Some (S u)
    | None => if b then Some 0%nat else None
    end.
Proof.
  induction t as [|t IH]; [reflexivity|].
  change (last_update (b :: mask) (S (S t)))
    with (if nth t mask false then Some (S t) else last_update (b :: mask) (S t)).
  cbn [last_update]. destruct (nth t mask false); [reflexivity|exact IH].
Qed.

Lemma last_update_nil (t : nat) : last_update [] t = None.
Proof. induction t as [|t IH]; [reflexivity|]. cbn [last_update]. now destruct t. Qed.

(** At an update bar the loop decides from the ranks of the bar and from
    the row it wrote at the update bar before. *)
Lemma sticky_loop_update_row (q_in q_out : Q) :
  forall (ranks : nframe) (prev : mrow) (mask : list bool) (t : nat),
    (t < length ranks)%nat -> nth t mask false = true ->
    nth t (sticky_loop q_in q_out prev ranks mask) []
    = zipw (sticky_cell q_in q_out)
        (match last_update mask t with
         | Some u => nth u (sticky_loop q_in q_out prev ranks mask) []
         | None => prev
         end)
        (nth t ranks []).
Proof.
  induction ranks as [|r ranks IH]; intros prev mask t Ht Hm; [simpl in Ht; lia|].
  destruct mask as [|b mask]; [destruct t; discriminate|].
  cbn [sticky_loop tl]. destruct t as [|t'].
  - cbn [nth] in Hm. subst b. reflexivity.
  - cbn [nth] in Hm. simpl in Ht. rewrite last_update_cons.
    destruct b; cbn [nth]; rewrite IH by (assumption || lia);
      destruct (last_update mask t'); reflexivity.
Qed.

Lemma sticky_cell_long (q_in q_out : Q) (prev : Z) (r : option Q) :
  q_in <= q_out ->
  sticky_cell q_in q_out prev r = 1%Z ->
  exists v, r = Some v /\ 1 - q_out <= v /\ (prev <> 1%Z -> 1 - q_in <= v).
Proof.
  intros Hq. unfold sticky_cell. cbv zeta.
  destruct (_ || _) eqn:S; [discriminate|].
  destruct (_ || _) eqn:L in |- *; [|discriminate]. intros _.
  destruct r as [v|]; [|rewrite !andb_false_r in L; discriminate].
  exists v. split; [reflexivity|].
  apply orb_true_iff in L. destruct L as [L|L];
    apply andb_true_iff in L; destruct L as [L1 L2]; apply Qle_bool_iff in L2.
  - apply Z.eqb_eq in L1. split; [exact L2|]. intros Hp. contradiction.
  - split; [lra|]. intros _. exact L2.
Qed.

Lemma sticky_cell_short (q_in q_out : Q) (prev : Z) (r : option Q) :
  q_in <= q_out ->
  sticky_cell q_in q_out prev r = (-1)%Z ->
  exists v, r = Some v /\ v <= q_out /\ (prev <> (-1)%Z -> v <= q_in).
Proof.
  intros Hq. unfold sticky_cell. cbv zeta.
  destruct (_ || _) eqn:S.
  2:{ match goal with |- context [if ?b then _ else _] => destruct b end; discriminate. }
  intros _.
  destruct r as [v|]; [|rewrite !andb_false_r in S; discriminate].
  exists v. split; [reflexivity|].
  apply orb_true_iff in S. destruct S as [S|S];
    apply andb_true_iff in S; destruct S as [S1 S2]; apply Qle_bool_iff in S2.
  - apply Z.eqb_eq in S1. split; [exact S2|]. intros Hp. contradiction.
  - split; [lra|]. intros _. exact S2.
Qed.

(** X26. Hysteresis of the loop of [sticky_membership]: at an update bar
    the loop decides from the rank of the bar and from what it wrote at the
    update bar before (zero when there is none); a name is written long only
    with a rank of at least 1 - q_out, and of at least 1 - q_in unless it was
    long; it is written short only with a rank of at most q_out, and of at
    most q_in unless it was short; what is written and is not zero is what is
    returned. *)
Theorem sticky_membership_hysteresis :
  forall (score : nframe) (q_in q_out : Q) (update_mask : option (list bool)) (m : mframe)
         (t s : nat),
    sticky_membership score q_in q_out update_mask = Ok m ->
    rect score -> (t < length score)%nat -> (s < ncols score)%nat ->
    let mask := mask_of update_mask score in
    let raw := sticky_raw score q_in q_out mask in
    let prev := match last_update mask t with
                | Some u => mcell raw u s
                | None => 0%Z
                end in
    let r := nth s (rank_pct (nth t score [])) None in
    nth t mask false = true ->
    mcell raw t s = sticky_cell q_in q_out prev r
    /\ (mcell raw t s = 1%Z ->
        exists v, r = Some v /\ 1 - q_out <= v /\ (prev <> 1%Z -> 1 - q_in <= v))
    /\ (mcell raw t s = (-1)%Z ->
        exists v, r = Some v /\ v <= q_out /\ (prev <> (-1)%Z -> v <= q_in))
    /\ (mcell raw t s <> 0%Z -> mcell m t s = mcell raw t s).
Proof.
  intros score q_in q_out um m t s H Hrect Ht Hs mask raw prev r Hm.
  apply sticky_membership_body in H as (Hq & _ & ->). fold mask.
  assert (Hcell : mcell raw t s = sticky_cell q_in q_out prev r).
  { subst raw prev r. unfold mcell, sticky_raw.
    rewrite sticky_loop_update_row by (rewrite ?length_map; assumption).
    fold (sticky_raw score q_in q_out mask).
    assert (Hrk : length (nth t (map rank_pct score) []) = ncols score).
    { rewrite (nth_map_in _ [] []) by exact Ht. rewrite rank_pct_length.
      apply (Forall_nth_len (fun r => length r = ncols score)); assumption. }
    assert (Hpl : length (match last_update mask t with
                          | Some u => nth u (sticky_raw score q_in q_out mask) []
                          | None => repeat 0%Z (ncols score)
                          end) = ncols score).
    { destruct (last_update mask t) as [u|] eqn:Eu; [|apply repeat_length].
      assert (Hu : (u < t)%nat).
      { clear - Eu. induction t as [|t IH]; [discriminate|].
        cbn [last_update] in Eu. destruct (nth t mask false).
        - injection Eu as <-. lia.
        - specialize (IH Eu). lia. }
      apply (Forall_nth_len (fun r => length r = ncols score)).
      - now apply sticky_raw_widths.
      - rewrite sticky_raw_length. lia. }
    rewrite (nth_zipw _ 0%Z None 0%Z) by (rewrite ?Hpl, ?Hrk; assumption).
    rewrite (nth_map_in _ [] []) by exact Ht.
    destruct (last_update mask t); [reflexivity|]. now rewrite nth_repeat. }
  split; [exact Hcell|]. split; [|split].
  - intros H1. rewrite Hcell in H1.
    now apply sticky_cell_long.
  - intros H1. rewrite Hcell in H1. now apply sticky_cell_short.
  - intros Hnz. rewrite sticky_body_cell by assumption. fold raw.
    destruct (mcell raw t s =? 0)%Z eqn:Z0; [|reflexivity].
    apply Z.eqb_eq in Z0. contradiction.
Qed.

Lemma sticky_membership_hysteresis_witness :
  let score := [[Some 1; Some 2; Some 3; Some 4];
                [Some 1; Some 3; Some 2; Some 4]] in
  exists m,
    sticky_membership score (1 # 4) (35 # 100) None = Ok m
    /\ mcell (sticky_raw score (1 # 4) (35 # 100) (mask_of None score)) 1 3
       = sticky_cell (1 # 4) (35 # 100)
           (mcell (sticky_raw score (1 # 4) (35 # 100) (mask_of None score)) 0 3)
           (nth 3 (rank_pct (nth 1 score [])) None).
Proof.
  intros score.
  destruct (sticky_membership score (1 # 4) (35 # 100) None) as [m|e] eqn:H;
    [|vm_compute in H; discriminate].
  exists m. split; [reflexivity|].
  apply (sticky_membership_hysteresis score (1 # 4) (35 # 100) None m 1 3 H).
  - repeat constructor.
  - simpl; lia.
  - simpl; lia.
  - reflexivity.
Defined.

(** ** Walk-forward windows ([scripts/walkforward.py]) *)

Lemma py_index_in_range (days : list Z) (k : Z) :
  (0 <= k < Z.of_nat (length days))%Z ->
  py_index days k = Ok (nth (Z.to_nat k) days 0%Z).
Proof.
  intros H. unfold py_index.
  assert (E1 : (k <? - Z.of_nat (length days))%Z = false) by (apply Z.ltb_ge; lia).
  assert (E2 : (Z.of_nat (length days) <=? k)%Z = false) by (apply Z.leb_gt; lia).
  assert (E3 : (k <? 0)%Z = false) by (apply Z.ltb_ge; lia).
  now rewrite E1, E2, E3.
Qed.

Lemma sorted_nth_lt (l : list Z) :
  StronglySorted Z.lt l ->
  forall i j : nat, (i < j)%nat -> (j < length l)%nat -> (nth i l 0 < nth j l 0)%Z.
Proof.
  induction 1 as [|x l Hs IH Hx]; intros i j Hij Hj; [simpl in Hj; lia|].
  destruct j as [|j]; [lia|]. simpl in Hj. destruct i as [|i]; cbn [nth].
  - rewrite Forall_forall in Hx. apply Hx, nth_In. lia.
  - apply IH; lia.
Qed.

Lemma sorted_nth_le (l : list Z) :
  StronglySorted Z.lt l ->
  forall i j : nat, (i <= j)%nat -> (j < length l)%nat -> (nth i l 0 <= nth j l 0)%Z.
Proof.
  intros Hs i j Hij Hj. destruct (Nat.eq_dec i j) as [->|Hne]; [lia|].
  apply Z.lt_le_incl, sorted_nth_lt; auto. lia.
Qed.

(** The windows yielded from position [i] on: each trains on days that end
    before its test days begin. *)
Lemma windows_loop_ok (days : list Z) (train test step embargo : Z) :
  StronglySorted Z.lt days ->
  (1 <= train)%Z -> (1 <= test)%Z -> (1 <= step)%Z -> (0 <= embargo)%Z ->
  forall (fuel : nat) (i : Z),
    (0 <= i)%Z -> (0 < fuel)%nat -> (Z.of_nat (length days) < Z.of_nat fuel + i)%Z ->
    exists ws,
      windows_loop fuel days train test step embargo i = (ws, Finished)
      /\ Forall (window_ok days train test embargo) ws.
Proof.
  intros Hs Htr Hte Hst Hem.
  induction fuel as [|fuel IH]; intros i Hi Hpos Hf.
  - lia.
  - cbn [windows_loop]. cbv zeta.
    set (n := Z.of_nat (length days)) in *.
    destruct (i + train + embargo <? n)%Z eqn:E.
    2:{ exists []. split; [reflexivity|constructor]. }
    apply Z.ltb_lt in E.
    rewrite (py_index_in_range days i) by (fold n; lia).
    rewrite (py_index_in_range days (i + train - 1)) by (fold n; lia).
    rewrite (py_index_in_range days (i + train + embargo)) by (fold n; lia).
    rewrite (py_index_in_range days (Z.min (i + train + embargo + test - 1) (n - 1)))
      by (fold n; lia).
    destruct (IH (i + step)%Z) as (ws & Hws & Hall); [lia|lia|lia|].
    rewrite Hws. eexists. split; [reflexivity|].
    constructor; [|exact Hall].
    assert (Hlen : n = Z.of_nat (length days)) by reflexivity.
    exists (Z.to_nat i),
      (Z.to_nat (Z.min (i + train + embargo + test - 1) (n - 1))).
    cbn [tr0 tr1 te0 te1].
    replace (Z.to_nat i + Z.to_nat train - 1)%nat with (Z.to_nat (i + train - 1)) by lia.
    replace (Z.to_nat i + Z.to_nat train + Z.to_nat embargo)%nat
      with (Z.to_nat (i + train + embargo)) by lia.
    repeat split; try (apply nth_error_nth'; lia); try lia.
    + apply sorted_nth_le; [assumption|lia|lia].
    + apply sorted_nth_lt; [assumption|lia|lia].
    + apply sorted_nth_le; [assumption|lia|lia].
Qed.

Lemma day_index_sorted (x : list Z) : StronglySorted Z.lt (day_index x).
Proof. apply sort_uniq_sorted. Qed.

(** X27. Walk-forward windows: with train_days, test_days, step_days >= 1
    and embargo_days >= 0 the generator ends without an exception; the train
    days of every window are train_days consecutive trading days, its test
    days begin embargo_days + 1 trading days after the last train day and
    span at most test_days days, so that tr0 <= tr1 < te0 <= te1; and no
    window is yielded when there are at most train_days + embargo_days
    trading days. *)
Theorem windows_train_before_test :
  forall (x : list Z) (train_days test_days step_days embargo_days : Z) (fuel : nat),
    (1 <= train_days)%Z -> (1 <= test_days)%Z -> (1 <= step_days)%Z ->
    (0 <= embargo_days)%Z ->
    (length (day_index x) < fuel)%nat ->
    exists ws,
      windows fuel x train_days test_days step_days embargo_days = (ws, Finished)
      /\ Forall (window_ok (day_index x) train_days test_days embargo_days) ws
      /\ ((Z.of_nat (length (day_index x)) <= train_days + embargo_days)%Z -> ws = []).
Proof.
  intros x train test step embargo fuel Htr Hte Hst Hem Hf.
  destruct (windows_loop_ok (day_index x) train test step embargo
              (day_index_sorted x) Htr Hte Hst Hem fuel 0%Z) as (ws & Hws & Hall);
    [lia|lia|lia|].
  exists ws. unfold windows. split; [exact Hws|]. split; [exact Hall|].
  intros Hshort. destruct fuel as [|fuel]; [lia|].
  cbn [windows_loop] in Hws. cbv zeta in Hws.
  assert (E : (0 + train + embargo <? Z.of_nat (length (day_index x)))%Z = false)
    by (apply Z.ltb_ge; lia).
  rewrite E in Hws. now injection Hws as <-.
Qed.

Lemma windows_train_before_test_witness :
  exists ws,
    windows 5 [0; 86400; 172800; 259200]%Z 2 1 1 0 = (ws, Finished)
    /\ Forall (fun w => (tr0 w <= tr1 w < te0 w)%Z /\ (te0 w <= te1 w)%Z) ws.
Proof.
  destruct (windows_train_before_test [0; 86400; 172800; 259200]%Z 2 1 1 0 5)
    as (ws & H1 & H2 & _); try lia.
  - vm_compute. lia.
  - exists ws. split; [exact H1|].
    eapply Forall_impl; [|exact H2]. cbn. intros w (i & j & _ & _ & _ & _ & _ & A & B).
    auto.
Defined.

(** ** Equity curve and drawdown ([src/plotting.py], [src/metrics.py]) *)

Lemma drawdown_cell_bounds (e p : Q) :
  0 < e -> e <= p ->
  exists d, drawdown_cell e p = Some d /\ -1 < d /\ d <= 0 /\ (p == e -> d == 0).
Proof.
  intros He Hp. unfold drawdown_cell.
  assert (E : Qeq_bool p 0 = false).
  { destruct (Qeq_bool p 0) eqn:E; [|reflexivity]. apply Qeq_bool_iff in E. lra. }
  rewrite E. eexists. split; [reflexivity|].
  assert (H1 : 0 < e / p) by (apply Qlt_shift_div_l; lra).
  assert (H2 : e / p <= 1) by (apply Qle_shift_div_r; lra).
  repeat split; try lra.
  intros Heq. assert (e / p == 1) by (rewrite Heq; field; lra). lra.
Qed.

Lemma drawdown_cells (l : list Q) :
  Forall (fun x => 0 < x) l ->
  forall acc m : Q, 0 < acc -> acc <= m ->
    Forall (fun c => exists d, c = Some d /\ -1 < d /\ d <= 0)
           (zipw drawdown_cell (cumprod_from acc l) (cummax_from m (cumprod_from acc l))).
Proof.
  induction 1 as [|x l Hx _ IH]; intros acc m Ha Hm; cbn [cumprod_from cummax_from zipw];
    [constructor|].
  assert (Hax : 0 < acc * x) by nra.
  pose proof (Q.le_max_r m (acc * x)) as Hr.
  pose proof (Q.le_max_l m (acc * x)) as Hl.
  constructor.
  - destruct (drawdown_cell_bounds (acc * x) (Qmax m (acc * x)) Hax Hr) as (d & E & A & B & _).
    exists d. auto.
  - apply IH; assumption.
Qed.

Lemma drawdown_cells_rising (l : list Q) :
  Forall (fun x => 1 <= x) l ->
  forall acc m : Q, 0 < acc -> m == acc ->
    Forall (fun c => exists d, c = Some d /\ d == 0)
           (zipw drawdown_cell (cumprod_from acc l) (cummax_from m (cumprod_from acc l))).
Proof.
  induction 1 as [|x l Hx _ IH]; intros acc m Ha Hm; cbn [cumprod_from cummax_from zipw];
    [constructor|].
  assert (Hax : 0 < acc * x) by nra.
  assert (Hge : m <= acc * x) by nra.
  assert (Hmax : Qmax m (acc * x) == acc * x) by now apply Q.max_r.
  constructor.
  - destruct (drawdown_cell_bounds (acc * x) (Qmax m (acc * x)) Hax) as (d & E & _ & _ & Z0);
      [rewrite Hmax; lra|].
    exists d. split; [exact E|]. now apply Z0.
  - apply IH; assumption.
Qed.

Lemma min_skipna_bounds (P : Q -> Prop) (l : list (option Q)) :
  (forall x y, P x -> P y -> P (Qmin x y)) ->
  l <> [] ->
  Forall (fun c => exists d, c = Some d /\ P d) l ->
  exists d, min_skipna l = Some d /\ P d.
Proof.
  intros Hmin Hne H. induction H as [|c l (d & -> & Hd) Hl IH]; [congruence|].
  cbn [min_skipna]. destruct l as [|c' l'].
  - cbn [min_skipna]. exists d. auto.
  - destruct IH as (y & -> & Hy); [discriminate|].
    exists (Qmin d y). auto.
Qed.

Lemma cumprod_from_positive (l : list Q) :
  Forall (fun x => 0 < x) l ->
  forall acc : Q, 0 < acc -> Forall (fun e => 0 < e) (cumprod_from acc l).
Proof.
  induction 1 as [|x l Hx _ IH]; intros acc Ha; cbn [cumprod_from]; [constructor|].
  assert (0 < acc * x) by nra. constructor; [assumption|now apply IH].
Qed.

Lemma max_dd_range (ret : list Q) :
  ret <> [] ->
  Forall (fun r => -1 < r) ret ->
  exists d,
    max_dd ret = Some d /\ -1 < d /\ d <= 0
    /\ (Forall (fun r => 0 <= r) ret -> d == 0).
Proof.
  intros Hne Hr. unfold max_dd, cumprod, cummax.
  destruct ret as [|r0 ret]; [congruence|].
  inversion Hr as [|? ? Hr0 Hr']; subst.
  cbn [map cumprod_from zipw].
  set (e0 := 1 * (1 + r0)).
  assert (He0 : 0 < e0) by (unfold e0; lra).
  assert (Hpos : Forall (fun x => 0 < x) (map (fun r => 1 + r) ret)).
  { apply Forall_map. eapply Forall_impl; [|exact Hr']. cbn. intros; lra. }
  destruct (drawdown_cell_bounds e0 e0 He0 (Qle_refl e0)) as (d0 & E0 & A0 & B0 & Z0).
  pose proof (drawdown_cells _ Hpos e0 e0 He0 (Qle_refl e0)) as Hcells.
  set (cells := zipw drawdown_cell (cumprod_from e0 (map (fun r => 1 + r) ret))
                     (cummax_from e0 (cumprod_from e0 (map (fun r => 1 + r) ret)))) in *.
  assert (Hall : Forall (fun c => exists d, c = Some d /\ (-1 < d /\ d <= 0))
                        (drawdown_cell e0 e0 :: cells)).
  { constructor; [exists d0; auto|].
    eapply Forall_impl; [|exact Hcells]. cbn. intros c (d & E & A & B). exists d. auto. }
  destruct (min_skipna_bounds (fun d => -1 < d /\ d <= 0) (drawdown_cell e0 e0 :: cells))
    as (d & Ed & Ad & Bd).
  { intros x y [? ?] [? ?].
    destruct (Q.min_spec x y) as [[? E]|[? E]]; rewrite E; auto. }
  { discriminate. }
  { exact Hall. }
  exists d. repeat split; auto.
  intros Hnn.
  inversion Hnn as [|? ? Hn0 Hn']; subst.
  assert (Hrise : Forall (fun x => 1 <= x) (map (fun r => 1 + r) ret)).
  { apply Forall_map. eapply Forall_impl; [|exact Hn']. cbn. intros; lra. }
  pose proof (drawdown_cells_rising _ Hrise e0 e0 He0 (Qeq_refl e0)) as Hz.
  fold cells in Hz.
  assert (Hallz : Forall (fun c => exists d, c = Some d /\ d == 0)
                         (drawdown_cell e0 e0 :: cells)).
  { constructor; [exists d0; split; [exact E0|apply Z0; reflexivity]|exact Hz]. }
  destruct (min_skipna_bounds (fun d => d == 0) (drawdown_cell e0 e0 :: cells))
    as (d' & Ed' & Zd').
  { intros x y Hx Hy. destruct (Q.min_spec x y) as [[? E]|[? E]]; rewrite E; auto. }
  { discriminate. }
  { exact Hallz. }
  rewrite Ed in Ed'. injection Ed' as <-. exact Zd'.
Qed.

(** X28. When every net return is above -1, every point of the equity curve
    is positive and the maximum drawdown is a number in (-1, 0]; it is 0 when
    no net return is negative. *)
Theorem equity_stays_positive_and_drawdown_bounded :
  forall df_bt : list out_row,
    df_bt <> [] ->
    Forall (fun o => -1 < net_ret o) df_bt ->
    Forall (fun e => 0 < e) (equity_curve df_bt)
    /\ exists d,
         max_dd (map net_ret df_bt) = Some d /\ -1 < d /\ d <= 0
         /\ (Forall (fun o => 0 <= net_ret o) df_bt -> d == 0).
Proof.
  intros df Hne Hr. split.
  - unfold equity_curve, cumprod. apply cumprod_from_positive; [|lra].
    apply Forall_map. eapply Forall_impl; [|exact Hr]. cbn. intros; lra.
  - destruct (max_dd_range (map net_ret df)) as (d & E & A & B & Z0).
    + destruct df; [congruence|discriminate].
    + now apply Forall_map.
    + exists d. repeat split; auto. intros Hnn. apply Z0. now apply Forall_map.
Qed.

Lemma equity_stays_positive_and_drawdown_bounded_witness :
  let df := [mkOut 34200 0 0 (1 # 10) 0; mkOut 34260 0 0 (-1 # 5) 0;
             mkOut 34320 0 0 (1 # 20) 0] in
  Forall (fun e => 0 < e) (equity_curve df)
  /\ exists d, max_dd (map net_ret df) = Some d /\ -1 < d /\ d <= 0.
Proof.
  intros df.
  destruct (equity_stays_positive_and_drawdown_bounded df) as (H1 & d & E & A & B & _).
  - discriminate.
  - repeat constructor.
  - split; [exact H1|]. exists d. auto.
Defined.

(** ** The order of the input rows *)

Lemma sort_uniq_Z_perm (l l' : list Z) :
  Permutation l l' -> sort_uniq Z.compare l = sort_uniq Z.compare l'.
Proof.
  intros HP.
  apply (sorted_same_elements Z.lt Z.lt_irrefl Z.lt_trans);
    try apply sort_uniq_sorted.
  intros x. rewrite !(sort_uniq_elem Z.compare Z.compare_eq).
  split; apply Permutation_in; [exact HP|now symmetry].
Qed.

Lemma sort_uniq_string_perm (l l' : list string) :
  Permutation l l' -> sort_uniq String.compare l = sort_uniq String.compare l'.
Proof.
  intros HP.
  apply (sorted_same_elements (fun a b => String.compare a b = Lt)
           string_compare_irrefl string_compare_trans);
    try apply (sort_uniq_ordered String.compare String.compare_eq_iff
                 string_compare_gt string_compare_trans).
  intros x. rewrite !(sort_uniq_elem String.compare String.compare_eq_iff).
  split; apply Permutation_in; [exact HP|now symmetry].
Qed.

Lemma has_dup_perm (df df' : list bar) : Permutation df df' -> has_dup df = has_dup df'.
Proof.
  intros HP.
  assert (H : has_dup df = false <-> has_dup df' = false).
  { rewrite !has_dup_false_iff. split; apply Permutation_NoDup, Permutation_map;
      [exact HP|now symmetry]. }
  destruct (has_dup df), (has_dup df'); try reflexivity.
  - destruct H as [_ H]. now rewrite H.
  - destruct H as [H _]. now rewrite H.
Qed.

Lemma find_key_perm (df df' : list bar) (t : Z) (s : string) :
  Permutation df df' -> has_dup df = false ->
  find (same_key t s) df = find (same_key t s) df'.
Proof.
  intros HP Hd.
  assert (Hd' : has_dup df' = false) by (rewrite <- (has_dup_perm df df' HP); exact Hd).
  destruct (find (same_key t s) df) as [b|] eqn:F.
  - apply find_some in F as [Hin Hk]. apply same_key_iff in Hk as [<- <-].
    symmetry. apply find_first_key; [exact Hd'|].
    now apply (Permutation_in _ HP).
  - destruct (find (same_key t s) df') as [b'|] eqn:F'; [|reflexivity].
    apply find_some in F' as [Hin Hk].
    apply (Permutation_in _ (Permutation_sym HP)) in Hin.
    apply (find_none _ _ F) in Hin. congruence.
Qed.

Lemma to_wide_perm (df df' : list bar) (col : bar -> Q) :
  Permutation df df' -> to_wide df col = to_wide df' col.
Proof.
  intros HP. unfold to_wide. rewrite <- (has_dup_perm df df' HP).
  destruct (has_dup df) eqn:Hd; [reflexivity|].
  rewrite <- (sort_uniq_Z_perm (map datetime df) (map datetime df'))
    by now apply Permutation_map.
  rewrite <- (sort_uniq_string_perm (map symbol df) (map symbol df'))
    by now apply Permutation_map.
  do 2 f_equal.
  apply map_ext. intros t. apply map_ext. intros s.
  now rewrite (find_key_perm df df' t s HP Hd).
Qed.

(** X29. [vector_backtest] does not depend on the order of the rows of its
    long-form input: two tables that hold the same rows give the same result,
    or raise the same exception. *)
Theorem vector_backtest_ignores_row_order :
  forall (ln : Q -> Q) (df_feat df_feat' : list bar) (cfg : config),
    Permutation df_feat df_feat' ->
    vector_backtest ln df_feat cfg = vector_backtest ln df_feat' cfg.
Proof.
  intros ln df df' cfg HP. unfold vector_backtest.
  now rewrite (to_wide_perm df df' close HP), (to_wide_perm df df' open HP).
Qed.

Lemma vector_backtest_ignores_row_order_witness :
  let cfg := mkConfig 1 1 10 0 0 Ratelimit 100 0 0 1 Momentum 1 (3 # 10) (55 # 100) in
  vector_backtest (fun x => x)
    [mkBar 34200 "A" 10 10; mkBar 34260 "A" 10 11; mkBar 34200 "B" 20 20] cfg
  = vector_backtest (fun x => x)
      [mkBar 34260 "A" 10 11; mkBar 34200 "B" 20 20; mkBar 34200 "A" 10 10] cfg.
Proof.
  intros cfg. apply vector_backtest_ignores_row_order.
  apply Permutation_cons_app with (l1 := [mkBar 34260 "A" 10 11; mkBar 34200 "B" 20 20])
                                   (l2 := []).
  cbn [app]. apply Permutation_refl.
Defined.

(** ** The two books at the first update bar *)

Lemma rank_cells_nats (n : nat) :
  forall rest before : nrow,
    rank_cells n before rest
    = map (option_map (fun k => inject_Z (Z.of_nat k) / inject_Z (Z.of_nat n)))
          (rank_nats before rest).
Proof.
  induction rest as [|[x|] rest IH]; intros before; cbn [rank_cells rank_nats map option_map];
    [reflexivity| |]; now rewrite IH.
Qed.

Lemma count_if_cons (p : Q -> bool) (c : option Q) (r : nrow) :
  count_if p (c :: r)
  = ((match c with Some y => if p y then 1 else 0 | None => 0 end) + count_if p r)%nat.
Proof.
  unfold count_if. cbn [filter]. destruct c as [y|]; [destruct (p y)|]; reflexivity.
Qed.

Lemma count_if_app (p : Q -> bool) (a b : nrow) :
  count_if p (a ++ b) = (count_if p a + count_if p b)%nat.
Proof. unfold count_if. now rewrite filter_app, length_app. Qed.

Lemma count_if_mono (p q : Q -> bool) (r : nrow) :
  (forall y, p y = true -> q y = true) -> (count_if p r <= count_if q r)%nat.
Proof.
  intros H. induction r as [|c r IH]; [reflexivity|].
  rewrite !count_if_cons. destruct c as [y|]; [|lia].
  destruct (p y) eqn:E; [rewrite (H y E); lia|destruct (q y); lia].
Qed.

Lemma count_if_le_valid (p : Q -> bool) (r : nrow) : (count_if p r <= count_valid r)%nat.
Proof.
  induction r as [|c r IH]; [reflexivity|].
  rewrite count_if_cons. unfold count_valid in *. cbn [filter].
  destruct c as [y|]; cbn [is_some length]; [destruct (p y)|]; lia.
Qed.

Lemma count_valid_cons (c : option Q) (r : nrow) :
  count_valid (c :: r) = ((if is_some c then 1 else 0) + count_valid r)%nat.
Proof. unfold count_valid. cbn [filter]. destruct (is_some c); reflexivity. Qed.

Lemma Qlt_bool_iff (x y : Q) : Qlt_bool x y = true <-> x < y.
Proof.
  unfold Qlt_bool. rewrite negb_true_iff. split.
  - apply Qle_bool_false.
  - apply Qle_bool_gt.
Qed.

(** A later cell never receives the rank of an earlier cell. *)
Lemma later_ranks_differ (x : Q) (before : nrow) :
  forall (rest extra : nrow),
    Forall (fun k => k <> Some (1 + count_if (fun y => Qle_bool y x) before
                                + (count_if (fun y => Qlt_bool y x) extra
                                   + count_if (fun y => Qlt_bool y x) rest))%nat)
           (rank_nats (extra ++ Some x :: before) rest).
Proof.
  induction rest as [|[y|] rest IH]; intros extra; cbn [rank_nats]; [constructor| |].
  - constructor.
    + unfold rank_first. rewrite count_if_app, !count_if_cons.
      intros E. injection E as E.
      pose proof (count_if_mono (fun z => Qle_bool z x) (fun z => Qle_bool z y) before) as M1.
      pose proof (count_if_mono (fun z => Qle_bool z y) (fun z => Qle_bool z x) before) as M1'.
      pose proof (count_if_mono (fun z => Qlt_bool z x) (fun z => Qle_bool z y) extra) as M2.
      pose proof (count_if_mono (fun z => Qle_bool z y) (fun z => Qlt_bool z x) extra) as M2'.
      pose proof (count_if_mono (fun z => Qlt_bool z x) (fun z => Qlt_bool z y) rest) as M3.
      pose proof (count_if_mono (fun z => Qlt_bool z y) (fun z => Qlt_bool z x) rest) as M3'.
      destruct (Qle_bool x y) eqn:Exy.
      * apply Qle_bool_iff in Exy.
        assert (Eyx : Qlt_bool y x = false).
        { unfold Qlt_bool. rewrite Qle_bool_true; [reflexivity|exact Exy]. }
        rewrite Eyx in E.
        assert (H1 : (count_if (fun z => Qle_bool z x) before
                      <= count_if (fun z => Qle_bool z y) before)%nat).
        { apply M1. intros z Hz. apply Qle_bool_iff in Hz. apply Qle_bool_iff. lra. }
        assert (H2 : (count_if (fun z => Qlt_bool z x) extra
                      <= count_if (fun z => Qle_bool z y) extra)%nat).
        { apply M2. intros z Hz. apply Qlt_bool_iff in Hz. apply Qle_bool_iff. lra. }
        assert (H3 : (count_if (fun z => Qlt_bool z x) rest
                      <= count_if (fun z => Qlt_bool z y) rest)%nat).
        { apply M3. intros z Hz. apply Qlt_bool_iff in Hz. apply Qlt_bool_iff. lra. }
        lia.
      * apply Qle_bool_false in Exy.
        assert (Eyx : Qlt_bool y x = true) by now apply Qlt_bool_iff.
        rewrite Eyx in E.
        assert (H1 : (count_if (fun z => Qle_bool z y) before
                      <= count_if (fun z => Qle_bool z x) before)%nat).
        { apply M1'. intros z Hz. apply Qle_bool_iff in Hz. apply Qle_bool_iff. lra. }
        assert (H2 : (count_if (fun z => Qle_bool z y) extra
                      <= count_if (fun z => Qlt_bool z x) extra)%nat).
        { apply M2'. intros z Hz. apply Qle_bool_iff in Hz. apply Qlt_bool_iff. lra. }
        assert (H3 : (count_if (fun z => Qlt_bool z y) rest
                      <= count_if (fun z => Qlt_bool z x) rest)%nat).
        { apply M3'. intros z Hz. apply Qlt_bool_iff in Hz. apply Qlt_bool_iff. lra. }
        lia.
    + specialize (IH (Some y :: extra)). cbn [app] in IH.
      eapply Forall_impl; [|exact IH]. cbv beta. intros k Hk.
      rewrite !count_if_cons in Hk. rewrite !count_if_cons.
      intros E. apply Hk. rewrite E. f_equal. destruct (Qlt_bool y x); lia.
  - constructor; [discriminate|].
    specialize (IH (None :: extra)). cbn [app] in IH.
    eapply Forall_impl; [|exact IH]. cbv beta. intros k Hk.
    rewrite !count_if_cons in Hk. rewrite !count_if_cons. exact Hk.
Qed.

Lemma valid_cells_in {A : Type} (r : list (option A)) (k : A) :
  In k (valid_cells r) <-> In (Some k) r.
Proof.
  induction r as [|[x|] r IH]; cbn [valid_cells In].
  - reflexivity.
  - rewrite IH. split; intros [H|H]; auto; left; congruence.
  - rewrite IH. split; [auto|]. intros [H|H]; [discriminate|exact H].
Qed.

Lemma rank_nats_nodup :
  forall rest before : nrow, NoDup (valid_cells (rank_nats before rest)).
Proof.
  induction rest as [|[x|] rest IH]; intros before; cbn [rank_nats valid_cells];
    [constructor| |apply IH].
  constructor; [|apply IH].
  intros Hin. apply valid_cells_in in Hin.
  pose proof (later_ranks_differ x before rest []) as H. cbn [app] in H.
  rewrite Forall_forall in H. apply (H _ Hin).
  unfold rank_first, count_if at 2. cbn [filter length]. f_equal.
Qed.

Lemma rank_nats_range :
  forall rest before : nrow,
    Forall (fun k => (1 <= k <= count_valid before + count_valid rest)%nat)
           (valid_cells (rank_nats before rest)).
Proof.
  induction rest as [|[x|] rest IH]; intros before; cbn [rank_nats valid_cells];
    [constructor| |].
  - constructor.
    + unfold rank_first. rewrite count_valid_cons. cbn [is_some].
      pose proof (count_if_le_valid (fun y => Qle_bool y x) before).
      pose proof (count_if_le_valid (fun y => Qlt_bool y x) rest). lia.
    + specialize (IH (Some x :: before)). rewrite !count_valid_cons in *. cbn [is_some] in *.
      eapply Forall_impl; [|exact IH]. cbn. intros k Hk. lia.
  - specialize (IH (None :: before)). rewrite !count_valid_cons in *. cbn [is_some] in *.
    exact IH.
Qed.

Lemma rank_nats_valid_length :
  forall rest before : nrow, length (valid_cells (rank_nats before rest)) = count_valid rest.
Proof.
  induction rest as [|[x|] rest IH]; intros before; cbn [rank_nats valid_cells];
    rewrite ?count_valid_cons; cbn [is_some length]; [reflexivity| |];
    now rewrite IH.
Qed.

(** The ranks of the valid cells of a row are 1, ..., n in some order. *)
Lemma rank_nats_permutation (r : nrow) :
  Permutation (valid_cells (rank_nats [] r)) (seq 1 (count_valid r)).
Proof.
  apply NoDup_Permutation_bis.
  - apply rank_nats_nodup.
  - rewrite length_seq, rank_nats_valid_length. lia.
  - intros k Hk. pose proof (rank_nats_range r []) as H.
    rewrite Forall_forall in H. specialize (H k Hk).
    change (count_valid []) with 0%nat in H. apply in_seq. lia.
Qed.

Lemma valid_cells_map {A B : Type} (f : A -> B) (l : list (option A)) :
  valid_cells (map (option_map f) l) = map f (valid_cells l).
Proof.
  induction l as [|[x|] l IH]; cbn [map option_map valid_cells]; [reflexivity| |exact IH].
  now rewrite IH.
Qed.

Lemma filter_length_perm {A : Type} (p : A -> bool) (l l' : list A) :
  Permutation l l' -> length (filter p l) = length (filter p l').
Proof.
  induction 1 as [|x l l' _ IH|x y l|l l' l'' _ IH1 _ IH2]; cbn [filter].
  - reflexivity.
  - destruct (p x); cbn [length]; now rewrite IH.
  - destruct (p x), (p y); reflexivity.
  - now rewrite IH1.
Qed.

Lemma count_upto (m n : nat) :
  length (filter (fun k => (k <=? m)%nat) (seq 1 n)) = Nat.min m n.
Proof.
  induction n as [|n IH]; [now rewrite Nat.min_0_r|].
  rewrite seq_S, filter_app, length_app, IH. cbn [filter Nat.add].
  destruct (S n <=? m)%nat eqn:E; cbn [length].
  - apply Nat.leb_le in E. lia.
  - apply Nat.leb_gt in E. lia.
Qed.

Lemma count_from (a n : nat) :
  (1 <= a)%nat ->
  length (filter (fun k => (a <=? k)%nat) (seq 1 n)) = (S n - a)%nat.
Proof.
  intros Ha. induction n as [|n IH]; [cbn [seq filter length]; lia|].
  rewrite seq_S, filter_app, length_app, IH. cbn [filter Nat.add].
  destruct (a <=? S n)%nat eqn:E; cbn [length].
  - apply Nat.leb_le in E. lia.
  - apply Nat.leb_gt in E. lia.
Qed.

Lemma floor_ge_iff (k : Z) (x : Q) : inject_Z k <= x <-> (k <= Qfloor x)%Z.
Proof.
  split; intros H.
  - pose proof (Qlt_floor x) as Hx.
    assert (Hlt : inject_Z k < inject_Z (Qfloor x + 1)) by lra.
    rewrite <- Zlt_Qlt in Hlt. lia.
  - pose proof (Qfloor_le x) as Hx.
    apply Qle_trans with (inject_Z (Qfloor x)); [|exact Hx].
    now rewrite <- Zle_Qle.
Qed.

(** The decision of the loop for a name that is in no book. *)
Lemma sticky_cell_flat (q_in q_out : Q) (v : Q) :
  sticky_cell q_in q_out 0 (Some v)
  = if Qle_bool v q_in then (-1)%Z else if Qle_bool (1 - q_in) v then 1%Z else 0%Z.
Proof.
  unfold sticky_cell. cbn [Z.eqb negb andb orb].
  destruct (Qle_bool (1 - q_in) v), (Qle_bool v q_in); reflexivity.
Qed.

Lemma zipw_repeat_l {A B C : Type} (f : A -> B -> C) (a : A) :
  forall l : list B, zipw f (repeat a (length l)) l = map (f a) l.
Proof. induction l as [|x l IH]; cbn [length repeat zipw map]; [reflexivity|]. now rewrite IH. Qed.

Lemma count_occ_decisions (q_in q_out : Q) (z : Z) (l : list (option Q)) :
  z <> 0%Z ->
  count_occ Z.eq_dec (map (sticky_cell q_in q_out 0) l) z
  = length (filter (fun v => (sticky_cell q_in q_out 0 (Some v) =? z)%Z) (valid_cells l)).
Proof.
  intros Hz. induction l as [|[v|] l IH]; cbn [map count_occ valid_cells filter];
    [reflexivity| |].
  - destruct (Z.eq_dec (sticky_cell q_in q_out 0 (Some v)) z) as [E|E].
    + rewrite E, Z.eqb_refl. cbn [length]. now rewrite IH.
    + apply Z.eqb_neq in E. now rewrite E.
  - rewrite sticky_cell_nan. destruct (Z.eq_dec 0 z); [congruence|exact IH].
Qed.

Lemma last_update_lt (mask : list bool) (t u : nat) :
  last_update mask t = Some u -> (u < t)%nat.
Proof.
  induction t as [|t IH]; [discriminate|].
  cbn [last_update]. destruct (nth t mask false).
  - intros [= <-]. lia.
  - intros H. specialize (IH H). lia.
Qed.

Lemma sticky_raw_flat_row (score : nframe) (q_in q_out : Q) (mask : list bool) (u : nat) :
  rect score -> (u < length score)%nat -> all_none (nth u score []) ->
  nth u (sticky_raw score q_in q_out mask) [] = repeat 0%Z (ncols score).
Proof.
  intros Hrect Hu Hn.
  assert (Hl : length (nth u (sticky_raw score q_in q_out mask) []) = ncols score).
  { apply (Forall_nth_len (fun r => length r = ncols score)).
    - now apply sticky_raw_widths.
    - now rewrite sticky_raw_length. }
  apply (nth_ext _ _ 0%Z 0%Z).
  - now rewrite repeat_length.
  - intros s _. rewrite nth_repeat. now apply sticky_raw_nan_row.
Qed.

(** At the first bar that has a score, the returned row is the decision of
    the loop for names that are in no book. *)
Lemma first_scored_row (score : nframe) (q_in q_out : Q) (mask : list bool) (t : nat) :
  rect score -> (t < length score)%nat -> nth t mask false = true ->
  (forall u, (u < t)%nat -> all_none (nth u score [])) ->
  nth t (sticky_body score q_in q_out mask) []
  = map (sticky_cell q_in q_out 0) (rank_pct (nth t score [])).
Proof.
  intros Hrect Ht Hm Hn.
  assert (Hrk : length (rank_pct (nth t score [])) = ncols score).
  { rewrite rank_pct_length.
    apply (Forall_nth_len (fun r => length r = ncols score)); assumption. }
  assert (Hraw : nth t (sticky_raw score q_in q_out mask) []
                 = map (sticky_cell q_in q_out 0) (rank_pct (nth t score []))).
  { unfold sticky_raw.
    rewrite sticky_loop_update_row by (rewrite ?length_map; assumption).
    fold (sticky_raw score q_in q_out mask).
    rewrite (nth_map_in _ [] []) by exact Ht.
    assert (Hp : match last_update mask t with
                 | Some u => nth u (sticky_raw score q_in q_out mask) []
                 | None => repeat 0%Z (ncols score)
                 end = repeat 0%Z (length (rank_pct (nth t score [])))).
    { rewrite Hrk. destruct (last_update mask t) as [u|] eqn:Eu; [|reflexivity].
      apply last_update_lt in Eu. apply sticky_raw_flat_row; auto; lia. }
    rewrite Hp. apply zipw_repeat_l. }
  assert (Hw : length (nth t (sticky_body score q_in q_out mask) []) = ncols score).
  { apply (Forall_nth_len (fun x => length x = ncols score)).
    - now apply sticky_body_widths.
    - now rewrite sticky_body_length. }
  apply (nth_ext _ _ 0%Z 0%Z).
  - now rewrite length_map, Hrk.
  - intros s Hs. rewrite Hw in Hs.
    pose proof (sticky_body_cell score q_in q_out mask t s Hrect Ht Hs) as C.
    cbv zeta in C. unfold mcell at 1 2 4 in C. rewrite C, Hraw. clear C.
    match goal with
    | |- (if ?b then _ else _) = _ => destruct b eqn:Z0; [|reflexivity]
    end.
    apply Z.eqb_eq in Z0. rewrite Z0.
    destruct t as [|t']; [reflexivity|].
    apply sticky_body_flat_before; auto; try lia.
    intros u Hu. apply Hn. lia.
Qed.

(** The decisions for a row of names that are in no book: with n >= 1 valid
    scores and 0 <= q_in < 1/2, floor(q_in * n) shorts and one long more. *)
Lemma flat_decisions_count (q_in q_out : Q) (r : nrow) :
  (1 <= count_valid r)%nat -> 0 <= q_in -> q_in < 1 # 2 ->
  let k := Z.to_nat (Qfloor (q_in * inject_Z (Z.of_nat (count_valid r)))) in
  count_occ Z.eq_dec (map (sticky_cell q_in q_out 0) (rank_pct r)) (-1)%Z = k
  /\ count_occ Z.eq_dec (map (sticky_cell q_in q_out 0) (rank_pct r)) 1%Z = S k.
Proof.
  intros Hn Hq0 Hq k.
  set (n := count_valid r) in *.
  assert (HnQ : 0 < inject_Z (Z.of_nat n)).
  { change 0 with (inject_Z 0). rewrite <- Zlt_Qlt. lia. }
  set (f := fun j : nat => inject_Z (Z.of_nat j) / inject_Z (Z.of_nat n)).
  assert (Hranks : valid_cells (rank_pct r) = map f (valid_cells (rank_nats [] r))).
  { unfold rank_pct. fold n. rewrite rank_cells_nats. apply valid_cells_map. }
  assert (Hfl : (0 <= Qfloor (q_in * inject_Z (Z.of_nat n)))%Z).
  { apply floor_ge_iff. change (inject_Z 0) with 0. nra. }
  assert (Hk : (2 * k < n)%nat).
  { assert (Hx : (2 * Qfloor (q_in * inject_Z (Z.of_nat n)) < Z.of_nat n)%Z).
    { pose proof (Qfloor_le (q_in * inject_Z (Z.of_nat n))) as Hle.
      rewrite Zlt_Qlt, inject_Z_mult. change (inject_Z 2) with 2. nra. }
    unfold k. lia. }
  assert (Hfj : forall j : nat, inject_Z (Z.of_nat j) == f j * inject_Z (Z.of_nat n)).
  { intros j. unfold f. field. lra. }
  pose proof (Qfloor_le (q_in * inject_Z (Z.of_nat n))) as Hlo.
  pose proof (Qlt_floor (q_in * inject_Z (Z.of_nat n))) as Hhi.
  assert (HkZ : Z.of_nat k = Qfloor (q_in * inject_Z (Z.of_nat n))) by (unfold k; lia).
  rewrite <- HkZ in Hlo, Hhi.
  rewrite inject_Z_plus in Hhi. change (inject_Z 1) with 1 in Hhi.
  assert (Hin : forall j : nat, Qle_bool (f j) q_in = (j <=? k)%nat).
  { intros j. specialize (Hfj j).
    destruct (j <=? k)%nat eqn:Ej.
    - apply Nat.leb_le in Ej. apply Qle_bool_iff.
      assert (Hj : inject_Z (Z.of_nat j) <= inject_Z (Z.of_nat k))
        by (rewrite <- Zle_Qle; lia).
      nra.
    - apply Nat.leb_gt in Ej. apply Qle_bool_gt.
      assert (Hj : inject_Z (Z.of_nat k) + 1 <= inject_Z (Z.of_nat j)).
      { change 1 with (inject_Z 1). rewrite <- inject_Z_plus, <- Zle_Qle. lia. }
      nra. }
  assert (Hup : forall j : nat, Qle_bool (1 - q_in) (f j) = (n - k <=? j)%nat).
  { intros j. specialize (Hfj j).
    assert (Hnk : inject_Z (Z.of_nat (n - k)) == inject_Z (Z.of_nat n) - inject_Z (Z.of_nat k)).
    { rewrite Nat2Z.inj_sub by lia. unfold Z.sub. rewrite inject_Z_plus, inject_Z_opp. ring. }
    destruct (n - k <=? j)%nat eqn:Ej.
    - apply Nat.leb_le in Ej. apply Qle_bool_iff.
      assert (Hj : inject_Z (Z.of_nat (n - k)) <= inject_Z (Z.of_nat j))
        by (rewrite <- Zle_Qle; lia).
      nra.
    - apply Nat.leb_gt in Ej. apply Qle_bool_gt.
      assert (Hj : inject_Z (Z.of_nat j) + 1 <= inject_Z (Z.of_nat (n - k))).
      { change 1 with (inject_Z 1). rewrite <- inject_Z_plus, <- Zle_Qle. lia. }
      nra. }
  pose proof (rank_nats_permutation r) as HP. fold n in HP.
  split.
  - rewrite count_occ_decisions by discriminate.
    rewrite Hranks, filter_map_comm, length_map.
    rewrite (filter_length_perm _ _ _ HP).
    rewrite (filter_ext _ (fun j => (j <=? k)%nat)).
    + rewrite count_upto. lia.
    + intros j. rewrite sticky_cell_flat, Hin.
      destruct (j <=? k)%nat; [reflexivity|].
      destruct (Qle_bool (1 - q_in) (f j)); reflexivity.
  - rewrite count_occ_decisions by discriminate.
    rewrite Hranks, filter_map_comm, length_map.
    rewrite (filter_length_perm _ _ _ HP).
    rewrite (filter_ext _ (fun j => (n - k <=? j)%nat)).
    + rewrite count_from by lia. lia.
    + intros j. rewrite sticky_cell_flat, Hin, Hup.
      destruct (j <=? k)%nat eqn:E1; destruct (n - k <=? j)%nat eqn:E2; try reflexivity.
      apply Nat.leb_le in E1, E2. lia.
Qed.

(** X30. The two books at the first scored bar: at an update bar before which
    every score is NaN, with n >= 1 valid scores and 0 <= q_in < 1/2,
    exactly floor(q_in * n) names are returned short; the names returned
    long are at least as many and at most one more, and exactly one more
    when q_in * n is not an integer (no rank sits on the threshold
    1 - q_in). *)
Theorem first_update_book_sizes :
  forall (score : nframe) (q_in q_out : Q) (update_mask : option (list bool)) (m : mframe)
         (t : nat),
    sticky_membership score q_in q_out update_mask = Ok m ->
    rect score -> (t < length score)%nat ->
    nth t (mask_of update_mask score) false = true ->
    (forall u, (u < t)%nat -> all_none (nth u score [])) ->
    (1 <= count_valid (nth t score []))%nat ->
    0 <= q_in -> q_in < 1 # 2 ->
    let x := q_in * inject_Z (Z.of_nat (count_valid (nth t score []))) in
    let k := Z.to_nat (Qfloor x) in
    count_occ Z.eq_dec (nth t m []) (-1)%Z = k
    /\ (k <= count_occ Z.eq_dec (nth t m []) 1%Z <= S k)%nat
    /\ (~ x == inject_Z (Qfloor x) -> count_occ Z.eq_dec (nth t m []) 1%Z = S k).
Proof.
  intros score q_in q_out um m t H Hrect Ht Hm Hwarm Hn Hq0 Hq x k.
  apply sticky_membership_body in H as (_ & _ & ->).
  rewrite (first_scored_row score q_in q_out _ t Hrect Ht Hm Hwarm).
  destruct (flat_decisions_count q_in q_out (nth t score []) Hn Hq0 Hq) as [Hs Hl].
  fold x in Hs, Hl. fold k in Hs, Hl.
  split; [exact Hs|]. split; [lia|]. intros _. exact Hl.
Qed.

Lemma first_update_book_sizes_witness :
  let score := [[None; None; None; None; None; None; None; None; None; None];
                [Some 5; Some 1; Some 4; Some 2; Some 3; Some 9; Some 8; Some 7; Some 6;
                 Some 10]] in
  exists m,
    sticky_membership score (1 # 4) (55 # 100) None = Ok m
    /\ count_occ Z.eq_dec (nth 1 m []) (-1)%Z = 2%nat
    /\ count_occ Z.eq_dec (nth 1 m []) 1%Z = 3%nat.
Proof.
  intros score.
  destruct (sticky_membership score (1 # 4) (55 # 100) None) as [m|e] eqn:H;
    [|vm_compute in H; discriminate].
  exists m. split; [reflexivity|].
  assert (G : (forall u, (u < 1)%nat -> all_none (nth u score [])))
    by (intros [|u] Hu; [repeat constructor|lia]).
  assert (Hr : rect score) by (repeat constructor).
  assert (Hv : (1 <= count_valid (nth 1 score []))%nat) by (vm_compute; lia).
  assert (H0 : 0 <= 1 # 4) by (vm_compute; discriminate).
  assert (H2 : 1 # 4 < 1 # 2) by reflexivity.
  destruct (first_update_book_sizes score (1 # 4) (55 # 100) None m 1 H Hr
              ltac:(simpl; lia) eq_refl G Hv H0 H2) as (Hs & _ & Hl).
  split; [exact Hs|]. apply Hl. vm_compute. discriminate.
Defined.
